(** * Gazebo maze generator: a shallow embedding of [make_maze.py]

    The development follows the class [MazeGenerator]:
    the two wall matrices, the recursive depth-first carver
    ([_dfs_carve]), the breadth-first connectivity check
    ([_is_all_connected]), the greedy wall densifier
    ([_add_additional_walls]) and the projection to box descriptors
    ([_convert_to_3d_walls]).

    Conventions.
    - Python integers are [Z]; Python floats are IEEE binary64 values
      ([PrimFloat.float]).
    - Python lists are Rocq lists; indexing follows Python: a negative
      index counts from the end, anything else out of range raises
      [IndexError].
    - A computation either returns or raises. The carver is recursive
      and the source never calls [sys.setrecursionlimit], so the
      interpreter's recursion limit applies to it: the functions that
      reach [_dfs_carve] take the number [depth] of nested calls of
      [_dfs_carve] for which the interpreter has room, and one call
      more raises [RecursionError], which nothing catches.
    - The [while] loop of the connectivity check is a bounded iteration
      in the model; [OutOfFuel] is the result of a bound that is too
      small, which the bound the model uses never is.
    - The module [random] is an oracle: a stream of naturals read through
      a cursor, from which [randbelow n] takes one element modulo [n]. *)

From Stdlib Require Import ZArith Lia Floats.PrimFloat Uint63.
From stdpp Require Import base tactics option numbers list relations sorting.

Local Open Scope Z_scope.

(** ** Results of Python computations *)

Inductive exn := IndexError | ValueError | RecursionError.

Inductive result (A : Type) :=
  | Ok (a : A)
  | Raise (e : exn)
  | OutOfFuel.
Arguments Ok {A} a.
Arguments Raise {A} e.
Arguments OutOfFuel {A}.

Definition result_bind {A B} (f : A → result B) (x : result A) : result B :=
  match x with
  | Ok a => f a
  | Raise e => Raise e
  | OutOfFuel => OutOfFuel
  end.

#[global] Instance result_mbind : MBind result := @result_bind.
#[global] Instance result_mret : MRet result := @Ok.

(** The body of a [for] loop over a list, threading the state. *)
Fixpoint for_each {A S} (body : A → S → result S) (l : list A) (s : S) : result S :=
  match l with
  | [] => Ok s
  | a :: l' => s' ← body a s; for_each body l' s'
  end.

(** ** Python list indexing *)

Definition zlen {A} (l : list A) : Z := Z.of_nat (length l).

(** [l[i]] accepts [-len <= i < len]; [norm_index] is the position read. *)
Definition norm_index (len i : Z) : Z := if i <? 0 then i + len else i.

Definition in_range (len i : Z) : bool :=
  (0 <=? norm_index len i) && (norm_index len i <? len).

Definition getitem {A} (l : list A) (i : Z) : result A :=
  if in_range (zlen l) i then
    match l !! Z.to_nat (norm_index (zlen l) i) with
    | Some x => Ok x
    | None => Raise IndexError
    end
  else Raise IndexError.

Definition setitem {A} (l : list A) (i : Z) (v : A) : result (list A) :=
  if in_range (zlen l) i then Ok (<[Z.to_nat (norm_index (zlen l) i) := v]> l)
  else Raise IndexError.

(** ** Boolean matrices (lists of row lists) *)

Abbreviation matrix := (list (list bool)).

(** [m[r][c]] *)
Definition mget (m : matrix) (r c : Z) : result bool :=
  row ← getitem m r; getitem row c.

(** [m[r][c] = v]: the row object is updated in place; the rows of a
    matrix built by a list comprehension are distinct objects. *)
Definition mset (m : matrix) (r c : Z) (v : bool) : result matrix :=
  row ← getitem m r; row' ← setitem row c v; setitem m r row'.

(** [[[v] * cols for _ in range(rows)]]; a non-positive count gives the
    empty list. *)
Definition mk_matrix (rows cols : Z) (v : bool) : matrix :=
  replicate (Z.to_nat rows) (replicate (Z.to_nat cols) v).

(** [range(a, b)] *)
Definition range (a b : Z) : list Z := seqZ a (b - a).

(** Two nested [for] loops over the entries of a matrix, the rows in the
    outer loop: the shape shared by the counting, enumerating and
    projecting methods. [body row col m[row][col]] updates the
    accumulator. *)
Definition scan {S} (m : matrix) (rows cols : list Z)
    (body : Z → Z → bool → S → S) (s : S) : result S :=
  for_each (λ row s,
    for_each (λ col s, b ← mget m row col; Ok (body row col b s)) cols s)
    rows s.

(** ** The module [random] *)

Record rng := { tape : nat → nat; cursor : nat }.

(** A value in [0, n), [n > 0]. *)
Definition randbelow (n : Z) (g : rng) : Z * rng :=
  (Z.of_nat (tape g (cursor g)) mod n,
   {| tape := tape g; cursor := S (cursor g) |}).

(** [random.randint(a, b)]: [ValueError] on an empty range. *)
Definition randint (a b : Z) (g : rng) : result (Z * rng) :=
  if a <=? b then
    let '(k, g') := randbelow (b - a + 1) g in Ok (a + k, g')
  else Raise ValueError.

(** [x[i], x[j] = x[j], x[i]] *)
Definition swap {A} (l : list A) (i j : nat) : list A :=
  match l !! i, l !! j with
  | Some a, Some b => <[j := a]> (<[i := b]> l)
  | _, _ => l
  end.

(** [random.shuffle]: for [i] from [len - 1] down to [1], exchange
    [x[i]] with [x[randbelow(i + 1)]]. *)
Fixpoint shuffle_from {A} (i : nat) (l : list A) (g : rng) : list A * rng :=
  match i with
  | O => (l, g)
  | S i' =>
      let '(j, g') := randbelow (Z.of_nat i + 1) g in
      shuffle_from i' (swap l i (Z.to_nat j)) g'
  end.

Definition shuffle {A} (l : list A) (g : rng) : list A * rng :=
  shuffle_from (length l - 1) l g.

(** ** The generator object *)

Record MazeGenerator := {
  grid_size : Z;
  cell_size : float;
  min_walls : Z;
  wall_height : float;
  wall_thickness : float;
  horizontal_walls : matrix;
  vertical_walls : matrix;
}.

Definition set_horizontal_walls (self : MazeGenerator) (hw : matrix) : MazeGenerator :=
  {| grid_size := grid_size self; cell_size := cell_size self;
     min_walls := min_walls self; wall_height := wall_height self;
     wall_thickness := wall_thickness self;
     horizontal_walls := hw; vertical_walls := vertical_walls self |}.

Definition set_vertical_walls (self : MazeGenerator) (vw : matrix) : MazeGenerator :=
  {| grid_size := grid_size self; cell_size := cell_size self;
     min_walls := min_walls self; wall_height := wall_height self;
     wall_thickness := wall_thickness self;
     horizontal_walls := horizontal_walls self; vertical_walls := vw |}.

(** [__init__] (the output file name plays no part in generation). *)
Definition init (grid_size : Z) (cell_size : float) (min_walls : Z) : MazeGenerator :=
  {| grid_size := grid_size; cell_size := cell_size; min_walls := min_walls;
     wall_height := 0.5%float; wall_thickness := 0x1.999999999999ap-5%float; (* 0.05 *)
     horizontal_walls := mk_matrix (grid_size + 1) grid_size true;
     vertical_walls := mk_matrix grid_size (grid_size + 1) true |}.

(** ** [_is_all_connected] *)

Record bfs_state := {
  b_visited : matrix;
  b_queue : list (Z * Z);
  b_count : Z;
}.

(** One of the four tests of the loop body,
    [if guard and not wall and not visited[nr][nc]: ...];
    [and] evaluates its operands left to right and stops at the first
    false one. *)
Definition bfs_probe (guard : bool) (wall : result bool) (nr nc : Z)
    (b : bfs_state) : result bfs_state :=
  if guard then
    w ← wall;
    if negb w then
      seen ← mget (b_visited b) nr nc;
      if negb seen then
        v ← mset (b_visited b) nr nc true;
        Ok {| b_visited := v;
              b_queue := b_queue b ++ [(nr, nc)];
              b_count := b_count b + 1 |}
      else Ok b
    else Ok b
  else Ok b.

(** The loop body after [row, col = queue.popleft()]. *)
Definition bfs_step (self : MazeGenerator) (row col : Z) (b : bfs_state) : result bfs_state :=
  let n := grid_size self in
  let hw := horizontal_walls self in
  let vw := vertical_walls self in
  b ← bfs_probe (0 <? row) (mget hw row col) (row - 1) col b;
  b ← bfs_probe (row <? n - 1) (mget hw (row + 1) col) (row + 1) col b;
  b ← bfs_probe (0 <? col) (mget vw row col) row (col - 1) b;
  bfs_probe (col <? n - 1) (mget vw row (col + 1)) row (col + 1) b.

(** [while queue: ...]; the fuel bounds the number of iterations. *)
Fixpoint bfs_loop (fuel : nat) (self : MazeGenerator) (b : bfs_state) : result bfs_state :=
  match b_queue b with
  | [] => Ok b
  | (row, col) :: q =>
      match fuel with
      | O => OutOfFuel
      | S fuel' =>
          b' ← bfs_step self row col
                 {| b_visited := b_visited b; b_queue := q; b_count := b_count b |};
          bfs_loop fuel' self b'
      end
  end.

Definition is_all_connected_fuel (fuel : nat) (self : MazeGenerator) : result bool :=
  let n := grid_size self in
  visited ← mset (mk_matrix n n false) 0 0 true;
  b ← bfs_loop fuel self {| b_visited := visited; b_queue := [(0, 0)]; b_count := 1 |};
  Ok (b_count b =? n * n).

(** Every iteration dequeues a cell and a cell is enqueued at most
    once, so [grid_size * grid_size] iterations are enough
    (lemma [is_all_connected_fuel_spec]). *)
Definition is_all_connected (self : MazeGenerator) : result bool :=
  is_all_connected_fuel (Z.to_nat (grid_size self * grid_size self)) self.

(** ** [_generate_connected_maze_dfs] and [_dfs_carve] *)

(** What the carver works on: the generator, the local [visited]
    matrix (one object shared by all recursive calls) and the random
    source. [c_calls] is instrumentation that the source does not
    have: the cells on which [_dfs_carve] has been entered, the latest
    first. *)
Record carve_state := {
  c_self : MazeGenerator;
  c_visited : matrix;
  c_rng : rng;
  c_calls : list (Z * Z);
}.

Definition directions : list (Z * Z) := [(0, 1); (1, 0); (0, -1); (-1, 0)].

(** The [if dr == 1: ... elif dr == -1: ... elif dc == 1: ... elif dc == -1: ...]
    chain that removes the wall between the current cell and the next. *)
Definition remove_wall (self : MazeGenerator) (row col dr dc : Z) : result MazeGenerator :=
  if dr =? 1 then
    hw ← mset (horizontal_walls self) (row + 1) col false;
    Ok (set_horizontal_walls self hw)
  else if dr =? -1 then
    hw ← mset (horizontal_walls self) row col false;
    Ok (set_horizontal_walls self hw)
  else if dc =? 1 then
    vw ← mset (vertical_walls self) row (col + 1) false;
    Ok (set_vertical_walls self vw)
  else if dc =? -1 then
    vw ← mset (vertical_walls self) row col false;
    Ok (set_vertical_walls self vw)
  else Ok self.

(** The test [0 <= next_row < n and 0 <= next_col < n and not visited[next_row][next_col]]. *)
Definition unvisited_in_bounds (n : Z) (visited : matrix) (next_row next_col : Z) : result bool :=
  if (0 <=? next_row) && (next_row <? n) && (0 <=? next_col) && (next_col <? n)
  then seen ← mget visited next_row next_col; Ok (negb seen)
  else Ok false.

(** The body of the loop [for dr, dc in directions]; [recurse] is the
    recursive call. *)
Definition carve_dir (recurse : Z → Z → carve_state → result carve_state)
    (row col : Z) (d : Z * Z) (s : carve_state) : result carve_state :=
  let '(dr, dc) := d in
  let next_row := row + dr in
  let next_col := col + dc in
  go ← unvisited_in_bounds (grid_size (c_self s)) (c_visited s) next_row next_col;
  if go : bool then
    self ← remove_wall (c_self s) row col dr dc;
    recurse next_row next_col
      {| c_self := self; c_visited := c_visited s;
         c_rng := c_rng s; c_calls := c_calls s |}
  else Ok s.

(** [depth] is the number of nested calls of [_dfs_carve], this one
    included, for which the interpreter still has room. With no room
    left the call raises [RecursionError]: at its own entry, or at the
    call of [random.shuffle] that every call makes before anything else
    can fail, which is the same to a caller that catches nothing. Each
    recursive call has one frame less. *)
Fixpoint dfs_carve (depth : nat) (row col : Z) (s : carve_state) : result carve_state :=
  match depth with
  | O => Raise RecursionError
  | S depth' =>
      visited ← mset (c_visited s) row col true;
      let '(dirs, g) := shuffle directions (c_rng s) in
      for_each (carve_dir (dfs_carve depth') row col) dirs
        {| c_self := c_self s; c_visited := visited;
           c_rng := g; c_calls := (row, col) :: c_calls s |}
  end.

(** [depth] is the room the interpreter has when the first call of
    [_dfs_carve] is made: its recursion limit (1000 unless changed, and
    the source does not change it) less the frames already on the stack
    and those that [random.shuffle] needs. *)
Definition generate_connected_maze_dfs (depth : nat) (self : MazeGenerator) (g : rng) :
    result carve_state :=
  let n := grid_size self in
  let visited := mk_matrix n n false in
  '(start_row, g) ← randint 0 (n - 1) g;
  '(start_col, g) ← randint 0 (n - 1) g;
  dfs_carve depth start_row start_col
    {| c_self := self; c_visited := visited; c_rng := g; c_calls := [] |}.

(** ** [_count_inner_walls] *)

Definition count_inner_walls (self : MazeGenerator) : result Z :=
  let n := grid_size self in
  let tally (_ _ : Z) (b : bool) (count : Z) := if b then count + 1 else count in
  count ← scan (horizontal_walls self) (range 1 n) (range 0 n) tally 0;
  scan (vertical_walls self) (range 0 n) (range 1 n) tally count.

(** ** [_add_additional_walls] *)

Inductive path_type := PathH | PathV.

Definition path : Type := path_type * Z * Z.

Definition removable_paths (self : MazeGenerator) : result (list path) :=
  let n := grid_size self in
  let collect (t : path_type) (row col : Z) (b : bool) (paths : list path) :=
    if negb b then paths ++ [(t, row, col)] else paths in
  paths ← scan (horizontal_walls self) (range 1 n) (range 0 n) (collect PathH) [];
  scan (vertical_walls self) (range 0 n) (range 1 n) (collect PathV) paths.

(** [self.horizontal_walls[row][col] = v] or [self.vertical_walls[row][col] = v],
    by the type of the path. *)
Definition set_wall (self : MazeGenerator) (p : path) (v : bool) : result MazeGenerator :=
  let '(t, row, col) := p in
  match t with
  | PathH => hw ← mset (horizontal_walls self) row col v; Ok (set_horizontal_walls self hw)
  | PathV => vw ← mset (vertical_walls self) row col v; Ok (set_vertical_walls self vw)
  end.

(** One candidate: put the wall up, check, take it down again when the
    check fails. The result carries the updated count [added]. *)
Definition try_candidate (p : path) (st : MazeGenerator * Z) : result (MazeGenerator * Z) :=
  let '(self, added) := st in
  self ← set_wall self p true;
  connected ← is_all_connected self;
  if connected : bool then Ok (self, added + 1)
  else self ← set_wall self p false; Ok (self, added).

(** The loop over the shuffled candidates, with its [break]. *)
Fixpoint densify_loop (num_walls_to_add : Z) (paths : list path)
    (st : MazeGenerator * Z) : result (MazeGenerator * Z) :=
  match paths with
  | [] => Ok st
  | p :: rest =>
      if num_walls_to_add <=? st.2 then Ok st
      else st' ← try_candidate p st; densify_loop num_walls_to_add rest st'
  end.

(** What [_add_additional_walls] leaves behind: the generator, the random
    source, the number of walls added, and whether the warning of the
    last two lines was printed. *)
Record densify_result := {
  d_self : MazeGenerator;
  d_rng : rng;
  d_added : Z;
  d_warning : bool;
}.

Definition add_additional_walls (self : MazeGenerator) (num_walls_to_add : Z) (g : rng)
    : result densify_result :=
  paths ← removable_paths self;
  let '(paths, g) := shuffle paths g in
  '(self, added) ← densify_loop num_walls_to_add paths (self, 0);
  Ok {| d_self := self; d_rng := g; d_added := added;
        d_warning := added <? num_walls_to_add |}.

(** ** [_convert_to_3d_walls] and [_create_wall] *)

(** Conversion of a Python integer to a float, as in [col + 0.5] or
    [row * cell_size] (exact below [2^53] in absolute value). *)
Definition Z2f (z : Z) : float :=
  if 0 <=? z then of_uint63 (Uint63.of_Z z)
  else (- of_uint63 (Uint63.of_Z (- z)))%float.

Inductive orientation := Horizontal | Vertical.

Record wall := {
  w_x : float;
  w_y : float;
  w_z : float;
  w_length : float;
  w_width : float;
  w_height : float;
  w_yaw : Z;
}.

Definition create_wall (self : MazeGenerator) (x y : float) (z : Z) (o : orientation) : wall :=
  let '(length, width, yaw) :=
    match o with
    | Horizontal => (cell_size self, wall_thickness self, 0)
    | Vertical => (wall_thickness self, cell_size self, 0)
    end in
  {| w_x := x; w_y := y;
     w_z := (Z2f z + wall_height self / 2.0)%float;
     w_length := length; w_width := width;
     w_height := wall_height self;
     w_yaw := yaw |}.

Definition half_size (self : MazeGenerator) : float :=
  ((Z2f (grid_size self) * cell_size self) / 2.0)%float.

Definition horizontal_wall_at (self : MazeGenerator) (row col : Z) : wall :=
  let x := (- half_size self + (Z2f col + 0.5) * cell_size self)%float in
  let y := (- half_size self + Z2f row * cell_size self)%float in
  create_wall self x y 0 Horizontal.

Definition vertical_wall_at (self : MazeGenerator) (row col : Z) : wall :=
  let x := (- half_size self + Z2f col * cell_size self)%float in
  let y := (- half_size self + (Z2f row + 0.5) * cell_size self)%float in
  create_wall self x y 0 Vertical.

Definition convert_to_3d_walls (self : MazeGenerator) : result (list wall) :=
  let n := grid_size self in
  let emit (mk : Z → Z → wall) (row col : Z) (b : bool) (walls : list wall) :=
    if b then walls ++ [mk row col] else walls in
  walls ← scan (horizontal_walls self) (range 0 (n + 1)) (range 0 n)
            (emit (horizontal_wall_at self)) [];
  scan (vertical_walls self) (range 0 n) (range 0 (n + 1))
    (emit (vertical_wall_at self)) walls.

(** ** [generate_maze] and [main] *)

(** The returned list [walls], together with what the run did to the
    generator: its final state, the number of walls the densifier added
    ([None] when it was not called) and whether it printed its warning. *)
Record outcome := {
  walls : list wall;
  generator : MazeGenerator;
  added_walls : option Z;
  warning : bool;
}.

Definition generate_maze (depth : nat) (self : MazeGenerator) (g : rng) : result outcome :=
  s ← generate_connected_maze_dfs depth self g;
  let self := c_self s in
  current_inner_walls ← count_inner_walls self;
  if current_inner_walls <? min_walls self then
    d ← add_additional_walls self (min_walls self - current_inner_walls) (c_rng s);
    ws ← convert_to_3d_walls (d_self d);
    Ok {| walls := ws; generator := d_self d;
          added_walls := Some (d_added d); warning := d_warning d |}
  else
    ws ← convert_to_3d_walls self;
    Ok {| walls := ws; generator := self; added_walls := None; warning := false |}.

(** [main] after argument parsing: no argument is validated. *)
Definition main (depth : nat) (size : Z) (cell_size : float) (min_walls : Z) (g : rng) :
    result outcome :=
  generate_maze depth (init size cell_size min_walls) g.

(** ** [save_to_sdf]: the figures it reports *)

(** The three counts that [save_to_sdf] prints for the list it is given.
    The text of the file it writes is not part of the model. *)
Record report := {
  total_walls : Z;
  outer_walls : Z;
  inner_walls : Z;
}.

Definition save_to_sdf (self : MazeGenerator) (ws : list wall) : report :=
  let outer := 2 * grid_size self + 2 * grid_size self in
  let inner := zlen ws - outer in
  {| total_walls := zlen ws; outer_walls := outer; inner_walls := inner |}.

(** [main] to its end: the generator that produced the list reports on it. *)
Definition main_report (depth : nat) (size : Z) (cell_size : float) (min_walls : Z) (g : rng) :
    result report :=
  o ← main depth size cell_size min_walls g;
  Ok (save_to_sdf (generator o) (walls o)).

(** * Facts *)

(** ** List indexing and matrices *)

Lemma getitem_ok {A} (l : list A) i :
  0 ≤ i < zlen l → ∃ x, getitem l i = Ok x ∧ l !! Z.to_nat i = Some x.
Proof.
  intros Hi. destruct (lookup_lt_is_Some_2 l (Z.to_nat i)) as [x Hx].
  { unfold zlen in Hi. lia. }
  exists x. split; [|done]. unfold getitem, in_range, norm_index.
  replace (i <? 0) with false by lia.
  replace ((0 <=? i) && (i <? zlen l)) with true by lia.
  by rewrite Hx.
Qed.

Lemma setitem_ok {A} (l : list A) i v :
  0 ≤ i < zlen l → setitem l i v = Ok (<[Z.to_nat i := v]> l).
Proof.
  intros Hi. unfold setitem, in_range, norm_index.
  replace (i <? 0) with false by lia.
  by replace ((0 <=? i) && (i <? zlen l)) with true by lia.
Qed.

(** Proof-side view of a matrix: the entry at an in-range position, and
  the matrix with one entry replaced. *)
Definition cell (m : matrix) (r c : Z) : bool :=
if (0 <=? r) && (0 <=? c) then
  match m !! Z.to_nat r with
  | Some row => default false (row !! Z.to_nat c)
  | None => false
  end
else false.

Definition mupd (m : matrix) (r c : Z) (v : bool) : matrix :=
alter (λ row, <[Z.to_nat c := v]> row) (Z.to_nat r) m.

Definition wf_matrix (rows cols : Z) (m : matrix) : Prop :=
zlen m = rows ∧ Forall (λ row, zlen row = cols) m.

(** An entry that is [True] (a wall) or [False] (an open passage). *)
Definition is_wall (m : matrix) (p : Z * Z) : Prop := cell m p.1 p.2 = true.
Definition is_open (m : matrix) (p : Z * Z) : Prop := cell m p.1 p.2 = false.

#[global] Instance is_wall_dec m p : Decision (is_wall m p).
Proof. unfold is_wall. apply _. Defined.

#[global] Instance is_open_dec m p : Decision (is_open m p).
Proof. unfold is_open. apply _. Defined.

Section matrix_facts.
Context (rows cols : Z) (m : matrix).
Hypothesis Hwf : wf_matrix rows cols m.

Lemma wf_row r : 0 ≤ r < rows → ∃ row, m !! Z.to_nat r = Some row ∧ zlen row = cols.
Proof.
  intros Hr. destruct Hwf as [Hl Hall].
  destruct (lookup_lt_is_Some_2 m (Z.to_nat r)) as [row Hrow].
  { unfold zlen in Hl. lia. }
  exists row. split; [done|].
  rewrite Forall_lookup in Hall. eauto.
Qed.

Lemma getitem_row r : 0 ≤ r < rows →
  ∃ row, getitem m r = Ok row ∧ m !! Z.to_nat r = Some row ∧ zlen row = cols.
Proof.
  intros Hr. destruct (wf_row r Hr) as (row & Hrow & Hlen).
  exists row. split; [|done].
  destruct (getitem_ok m r) as (x & Hx & Hx'); [destruct Hwf; lia|].
  congruence.
Qed.

Lemma mget_ok r c : 0 ≤ r < rows → 0 ≤ c < cols → mget m r c = Ok (cell m r c).
Proof.
  intros Hr Hc. destruct (getitem_row r Hr) as (row & Hg & Hrow & Hlen).
  unfold mget. rewrite Hg. cbn.
  destruct (getitem_ok row c) as (b & Hb & Hb'); [lia|]. rewrite Hb.
  unfold cell. replace ((0 <=? r) && (0 <=? c)) with true by lia.
  by rewrite Hrow, Hb'.
Qed.

Lemma mset_ok r c v : 0 ≤ r < rows → 0 ≤ c < cols → mset m r c v = Ok (mupd m r c v).
Proof.
  intros Hr Hc. destruct (getitem_row r Hr) as (row & Hg & Hrow & Hlen).
  unfold mset. rewrite Hg. cbn.
  rewrite setitem_ok by lia. cbn.
  rewrite setitem_ok by (destruct Hwf; lia).
  f_equal. unfold mupd.
  apply list_eq. intros i. destruct (decide (i = Z.to_nat r)) as [->|Hne].
  - rewrite list_lookup_alter_eq, Hrow. cbn.
    rewrite list_lookup_insert_eq; [done|]. apply lookup_lt_Some in Hrow. done.
  - rewrite list_lookup_alter_ne by done. by rewrite list_lookup_insert_ne.
Qed.

Lemma wf_mupd r c v : wf_matrix rows cols (mupd m r c v).
Proof.
  destruct Hwf as [Hl Hall]. split.
  - unfold zlen, mupd in *. by rewrite length_alter.
  - unfold mupd. apply Forall_alter; [done|].
    intros row _ Hrow. unfold zlen in *. by rewrite length_insert.
Qed.

Lemma cell_mupd_eq r c v : 0 ≤ r < rows → 0 ≤ c < cols → cell (mupd m r c v) r c = v.
Proof.
  intros Hr Hc. destruct (wf_row r Hr) as (row & Hrow & Hlen).
  unfold cell, mupd. replace ((0 <=? r) && (0 <=? c)) with true by lia.
  rewrite list_lookup_alter_eq, Hrow. cbn.
  rewrite list_lookup_insert_eq; [done|]. unfold zlen in Hlen. lia.
Qed.

Lemma cell_mupd_ne r c v r' c' : (r', c') ≠ (r, c) → 0 ≤ r → 0 ≤ c →
  cell (mupd m r c v) r' c' = cell m r' c'.
Proof.
  intros Hne Hr Hc. unfold cell, mupd.
  destruct ((0 <=? r') && (0 <=? c')) eqn:Hpos; [|done].
  destruct (decide (Z.to_nat r' = Z.to_nat r)) as [Heq|Hr'].
  - rewrite Heq, list_lookup_alter_eq.
    destruct (m !! Z.to_nat r) as [row|]; [|done]. cbn.
    rewrite list_lookup_insert_ne; [done|].
    intros Hc'. apply Hne. f_equal; lia.
  - by rewrite list_lookup_alter_ne.
Qed.

Lemma mupd_same r c : 0 ≤ r < rows → 0 ≤ c < cols → mupd m r c (cell m r c) = m.
Proof.
  intros Hr Hc. destruct (wf_row r Hr) as (row & Hrow & Hlen).
  unfold mupd, cell. replace ((0 <=? r) && (0 <=? c)) with true by lia.
  rewrite Hrow.
  destruct (lookup_lt_is_Some_2 row (Z.to_nat c)) as [b Hb].
  { unfold zlen in Hlen. lia. }
  rewrite Hb. cbn.
  apply list_eq. intros i. destruct (decide (i = Z.to_nat r)) as [->|Hne].
  - rewrite list_lookup_alter_eq, Hrow. cbn. by rewrite list_insert_id.
  - by rewrite list_lookup_alter_ne.
Qed.

Lemma mupd_mupd r c v w : mupd (mupd m r c v) r c w = mupd m r c w.
Proof.
  unfold mupd. apply list_eq. intros i.
  destruct (decide (i = Z.to_nat r)) as [->|Hne].
  - rewrite !list_lookup_alter_eq. destruct (m !! Z.to_nat r) as [row|]; [|done].
    cbn. by rewrite list_insert_insert_eq.
  - by rewrite !list_lookup_alter_ne.
Qed.
End matrix_facts.

Lemma wf_mk_matrix rows cols v : 0 ≤ rows → 0 ≤ cols → wf_matrix rows cols (mk_matrix rows cols v).
Proof.
intros Hr Hc. unfold wf_matrix, mk_matrix, zlen. split.
- rewrite length_replicate. lia.
- apply Forall_replicate. rewrite length_replicate. lia.
Qed.

Lemma cell_mk_matrix rows cols v r c : 0 ≤ r < rows → 0 ≤ c < cols →
cell (mk_matrix rows cols v) r c = v.
Proof.
intros Hr Hc. unfold cell, mk_matrix.
replace ((0 <=? r) && (0 <=? c)) with true by lia.
rewrite lookup_replicate_2 by lia. cbn.
by rewrite lookup_replicate_2 by lia.
Qed.

(** ** Loops over the entries of a matrix *)

(** The positions visited by two nested loops, the rows outermost. *)
Fixpoint positions (rows cols : list Z) : list (Z * Z) :=
  match rows with
  | [] => []
  | r :: rows' => (pair r <$> cols) ++ positions rows' cols
  end.

Lemma elem_of_positions rows cols p :
  p ∈ positions rows cols ↔ p.1 ∈ rows ∧ p.2 ∈ cols.
Proof.
  destruct p as [r c]. induction rows as [|r0 rows IH]; cbn.
  - split; [by intros ?%elem_of_nil | by intros [?%elem_of_nil _]].
  - rewrite elem_of_app, IH, list_elem_of_fmap, elem_of_cons. split.
    + intros [(c' & [= -> ->] & Hc)|[Hr Hc]]; auto.
    + intros [[->|Hr] Hc]; [left; eauto | right; auto].
Qed.

Lemma NoDup_positions rows cols :
  NoDup rows → NoDup cols → NoDup (positions rows cols).
Proof.
  intros Hrows Hcols. induction Hrows as [|r rows Hr Hrows IH]; cbn.
  - constructor.
  - apply NoDup_app. split_and!.
    + apply NoDup_fmap_2; [|done]. by intros ?? [= ->].
    + intros p (c & -> & Hc)%list_elem_of_fmap [Hin _]%elem_of_positions. done.
    + done.
Qed.

Lemma positions_app rows1 rows2 cols :
  positions (rows1 ++ rows2) cols = positions rows1 cols ++ positions rows2 cols.
Proof.
  induction rows1 as [|r rows1 IH]; cbn; [done|]. by rewrite IH, app_assoc.
Qed.

Lemma length_positions rows cols :
  length (positions rows cols) = (length rows * length cols)%nat.
Proof.
  induction rows as [|r rows IH]; cbn; [done|].
  by rewrite length_app, length_fmap, IH.
Qed.

Lemma range_app a b c : a ≤ b → b ≤ c → range a c = range a b ++ range b c.
Proof.
  intros Hab Hbc. unfold range.
  replace (c - a) with ((b - a) + (c - b)) by lia.
  rewrite seqZ_app by lia. do 2 f_equal. lia.
Qed.

Lemma elem_of_range a b k : k ∈ range a b ↔ a ≤ k < b.
Proof. unfold range. rewrite elem_of_seqZ. lia. Qed.

Lemma NoDup_range a b : NoDup (range a b).
Proof. apply NoDup_seqZ. Qed.

Lemma length_range a b : length (range a b) = Z.to_nat (b - a).
Proof. apply length_seqZ. Qed.

Lemma range_singleton a : range a (a + 1) = [a].
Proof.
  unfold range. replace (a + 1 - a) with 1 by lia.
  rewrite seqZ_cons by lia. by rewrite seqZ_nil by lia.
Qed.

(** On a well-formed matrix and in-range loop bounds the nested loops
    raise nothing and amount to a left fold over the positions. *)
Lemma scan_ok {S} nrows ncols (m : matrix) rows cols (body : Z → Z → bool → S → S) s :
  wf_matrix nrows ncols m →
  Forall (λ r, 0 ≤ r < nrows) rows →
  Forall (λ c, 0 ≤ c < ncols) cols →
  scan m rows cols body s =
    Ok (foldl (λ s p, body p.1 p.2 (cell m p.1 p.2) s) s (positions rows cols)).
Proof.
  intros Hwf Hrows Hcols. unfold scan. revert s.
  induction Hrows as [|r rows Hr Hrows IH]; intros s; cbn; [done|].
  rewrite foldl_app.
  assert (∀ s, for_each (λ col s0, b ← mget m r col; Ok (body r col b s0)) cols s
      = Ok (foldl (λ s p, body p.1 p.2 (cell m p.1 p.2) s) s (pair r <$> cols))) as ->.
  { clear IH. induction Hcols as [|c cols Hc Hcols IHc]; intros s0; cbn; [done|].
    rewrite (mget_ok nrows ncols) by done. cbn. apply IHc. }
  cbn. apply IH.
Qed.

Lemma foldl_tally (m : matrix) (ps : list (Z * Z)) (count : Z) :
  foldl (λ count p, if cell m p.1 p.2 then count + 1 else count) count ps
  = count + Z.of_nat (length (filter (is_wall m) ps)).
Proof.
  revert count. induction ps as [|p ps IH]; intros count; [cbn; lia|].
  rewrite filter_cons. cbn [foldl]. rewrite IH.
  destruct (decide (is_wall m p)) as [Hw|Hne]; unfold is_wall in *.
  - rewrite Hw. cbn [length]. lia.
  - by destruct (cell m p.1 p.2).
Qed.

Lemma foldl_emit_wall {B} (m : matrix) (f : Z → Z → B) (ps : list (Z * Z)) (acc : list B) :
  foldl (λ acc p, if cell m p.1 p.2 then acc ++ [f p.1 p.2] else acc) acc ps
  = acc ++ ((λ p, f p.1 p.2) <$> filter (is_wall m) ps).
Proof.
  revert acc. induction ps as [|p ps IH]; intros acc; [cbn; by rewrite app_nil_r|].
  rewrite filter_cons. cbn [foldl]. rewrite IH.
  destruct (decide (is_wall m p)) as [Hw|Hne]; unfold is_wall in *.
  - rewrite Hw. cbn. by rewrite <- app_assoc.
  - by destruct (cell m p.1 p.2).
Qed.

Lemma foldl_emit_open {B} (m : matrix) (f : Z → Z → B) (ps : list (Z * Z)) (acc : list B) :
  foldl (λ acc p, if negb (cell m p.1 p.2) then acc ++ [f p.1 p.2] else acc) acc ps
  = acc ++ ((λ p, f p.1 p.2) <$> filter (is_open m) ps).
Proof.
  revert acc. induction ps as [|p ps IH]; intros acc; [cbn; by rewrite app_nil_r|].
  rewrite filter_cons. cbn [foldl]. rewrite IH.
  destruct (decide (is_open m p)) as [Hw|Hne]; unfold is_open in *.
  - rewrite Hw. cbn. by rewrite <- app_assoc.
  - by destruct (cell m p.1 p.2).
Qed.

(** ** [shuffle] permutes *)

Lemma swap_Permutation {A} (l : list A) i j : swap l i j ≡ₚ l.
Proof.
  unfold swap. destruct (l !! i) as [a|] eqn:Hi; [|done].
  destruct (l !! j) as [b|] eqn:Hj; [|done].
  by apply Permutation_insert_swap.
Qed.

Lemma shuffle_from_Permutation {A} i (l : list A) g : (shuffle_from i l g).1 ≡ₚ l.
Proof.
  revert l g. induction i as [|i IH]; intros l g; [done|].
  cbn [shuffle_from]. destruct (randbelow _ g) as [j g'].
  rewrite IH. apply swap_Permutation.
Qed.

Lemma shuffle_Permutation {A} (l : list A) g : (shuffle l g).1 ≡ₚ l.
Proof. apply shuffle_from_Permutation. Qed.

#[global] Arguments shuffle {A} l g : simpl never.

(** ** Counting the entries that satisfy a predicate *)

Lemma length_filter_ext {A} (P Q : A → Prop) `{∀ x, Decision (P x)} `{∀ x, Decision (Q x)}
    (l : list A) :
  (∀ x, x ∈ l → (P x ↔ Q x)) → length (filter P l) = length (filter Q l).
Proof.
  induction l as [|a l IH]; intros Hext; [done|].
  rewrite !filter_cons.
  assert (P a ↔ Q a) as Ha by (apply Hext; left).
  assert (length (filter P l) = length (filter Q l)) as IH'.
  { apply IH. intros x Hx. apply Hext. by right. }
  destruct (decide (P a)), (decide (Q a)); cbn; try tauto; by rewrite IH'.
Qed.

(** Switching the predicate on at a single element of a duplicate-free
    list adds one to the count. *)
Lemma length_filter_flip {A} (P Q : A → Prop) `{∀ x, Decision (P x)} `{∀ x, Decision (Q x)}
    (l : list A) (a : A) :
  NoDup l → a ∈ l → ¬ P a → Q a → (∀ x, x ≠ a → (P x ↔ Q x)) →
  length (filter Q l) = S (length (filter P l)).
Proof.
  intros Hnd Ha HPa HQa Hext.
  induction Hnd as [|b l Hb Hnd IH]; [by apply elem_of_nil in Ha|].
  rewrite !filter_cons. apply elem_of_cons in Ha as [<-|Ha].
  - destruct (decide (P a)); [done|]. destruct (decide (Q a)); [|done].
    cbn. f_equal. apply length_filter_ext. intros x Hx. symmetry. apply Hext.
    intros ->. done.
  - assert (b ≠ a) as Hne by (intros ->; done).
    specialize (IH Ha). pose proof (Hext b Hne) as Hb'.
    destruct (decide (P b)), (decide (Q b)); cbn; try tauto; by rewrite IH.
Qed.

(** ** The grid and its passages *)

Abbreviation cell_id := (Z * Z)%type.

Definition in_grid (n : Z) (p : cell_id) : Prop := 0 ≤ p.1 < n ∧ 0 ≤ p.2 < n.

Definition all_cells (n : Z) : list cell_id := positions (range 0 n) (range 0 n).

(** The two wall matrices have the shapes [(n+1) x n] and [n x (n+1)]. *)
Definition wf_walls (self : MazeGenerator) : Prop :=
  wf_matrix (grid_size self + 1) (grid_size self) (horizontal_walls self) ∧
  wf_matrix (grid_size self) (grid_size self + 1) (vertical_walls self).

(** [passage self a b]: the cells [a] and [b] are adjacent in the grid and
    the wall entry between them is [False]. *)
Definition passage (self : MazeGenerator) (a b : cell_id) : Prop :=
  in_grid (grid_size self) a ∧ in_grid (grid_size self) b ∧
  ((b = (a.1 - 1, a.2) ∧ cell (horizontal_walls self) a.1 a.2 = false) ∨
   (b = (a.1 + 1, a.2) ∧ cell (horizontal_walls self) (a.1 + 1) a.2 = false) ∨
   (b = (a.1, a.2 - 1) ∧ cell (vertical_walls self) a.1 a.2 = false) ∨
   (b = (a.1, a.2 + 1) ∧ cell (vertical_walls self) a.1 (a.2 + 1) = false)).

Definition reachable (self : MazeGenerator) : cell_id → cell_id → Prop :=
  rtc (passage self).

(** Invariant I2: every cell is reachable from every other cell. *)
Definition connected (self : MazeGenerator) : Prop :=
  ∀ a b, in_grid (grid_size self) a → in_grid (grid_size self) b → reachable self a b.

Definition marked (v : matrix) (p : cell_id) : Prop := cell v p.1 p.2 = true.

#[global] Instance marked_dec v p : Decision (marked v p).
Proof. unfold marked. apply _. Defined.

#[global] Instance in_grid_dec n p : Decision (in_grid n p).
Proof. unfold in_grid. apply _. Defined.

Lemma elem_of_all_cells n p : p ∈ all_cells n ↔ in_grid n p.
Proof.
  unfold all_cells, in_grid. rewrite elem_of_positions, !elem_of_range. done.
Qed.

Lemma NoDup_all_cells n : NoDup (all_cells n).
Proof. apply NoDup_positions; apply NoDup_range. Qed.

Lemma length_all_cells n : 0 ≤ n → Z.of_nat (length (all_cells n)) = n * n.
Proof.
  intros Hn. unfold all_cells. rewrite length_positions, !length_range. lia.
Qed.

Lemma passage_sym self a b : passage self a b → passage self b a.
Proof.
  unfold passage. destruct a as [r c], b as [r' c']; cbn.
  intros (Ha & Hb & [[[= -> ->] Hw]|[[[= -> ->] Hw]|[[[= -> ->] Hw]|[[= -> ->] Hw]]]]);
    split_and!; try done.
  - right; left. split; [f_equal; lia|]. by replace (r - 1 + 1) with r by lia.
  - left. split; [f_equal; lia|done].
  - do 3 right. split; [f_equal; lia|]. by replace (c - 1 + 1) with c by lia.
  - right; right; left. split; [f_equal; lia|done].
Qed.

Lemma reachable_sym self a b : reachable self a b → reachable self b a.
Proof.
  induction 1 as [|a b c Hab _ IH]; [apply rtc_refl|].
  eapply rtc_r; [exact IH|]. by apply passage_sym.
Qed.

Lemma marked_in_grid n v p : wf_matrix n n v → marked v p → in_grid n p.
Proof.
  intros [Hl Hall] Hm. unfold marked, cell in Hm. destruct p as [r c]; cbn in *.
  destruct ((0 <=? r) && (0 <=? c)) eqn:Hpos; [|done].
  destruct (v !! Z.to_nat r) as [row|] eqn:Hrow; [|done].
  destruct (row !! Z.to_nat c) as [b|] eqn:Hb; [|done].
  apply lookup_lt_Some in Hrow as Hr, Hb as Hc.
  rewrite Forall_lookup in Hall. specialize (Hall _ _ Hrow).
  unfold zlen, in_grid in *. cbn. lia.
Qed.

Lemma marked_mupd n v r c p :
  wf_matrix n n v → in_grid n (r, c) →
  marked (mupd v r c true) p ↔ p = (r, c) ∨ marked v p.
Proof.
  intros Hwf [Hr Hc]. cbn in Hr, Hc. unfold marked.
  destruct (decide (p = (r, c))) as [->|Hne].
  - cbn. rewrite (cell_mupd_eq n n) by done. split; auto.
  - rewrite cell_mupd_ne; [split; [by right | by intros [?|?]]| |lia..].
    intros Heq. apply Hne. by destruct p.
Qed.

Lemma count_marked_mupd n v r c :
  wf_matrix n n v → in_grid n (r, c) → ¬ marked v (r, c) →
  length (filter (marked (mupd v r c true)) (all_cells n))
  = S (length (filter (marked v) (all_cells n))).
Proof.
  intros Hwf Hq Hnm. apply (length_filter_flip _ _ _ (r, c)).
  - apply NoDup_all_cells.
  - by apply elem_of_all_cells.
  - done.
  - apply (marked_mupd n); auto.
  - intros p Hne. rewrite (marked_mupd n) by done. split; [by right | by intros [?|?]].
Qed.

(** ** The breadth-first search of [_is_all_connected] *)

Section bfs.
Context (self : MazeGenerator).
Hypothesis Hn : 1 ≤ grid_size self.
Hypothesis Hwalls : wf_walls self.

(** The loop invariant. [cur] holds the dequeued cell while its four
    neighbours are being examined and is empty at the head of the loop. *)
Record bfs_inv (cur : list cell_id) (b : bfs_state) : Prop := {
  bi_wf : wf_matrix (grid_size self) (grid_size self) (b_visited b);
  bi_origin : marked (b_visited b) (0, 0);
  bi_sound : ∀ p, marked (b_visited b) p → reachable self (0, 0) p;
  bi_queue : ∀ p, p ∈ b_queue b → marked (b_visited b) p;
  bi_closed : ∀ p, marked (b_visited b) p →
    p ∈ b_queue b ∨ p ∈ cur ∨ ∀ q, passage self p q → marked (b_visited b) q;
  bi_count : b_count b
    = Z.of_nat (length (filter (marked (b_visited b)) (all_cells (grid_size self))));
}.

Lemma bfs_probe_spec p guard wall nr nc b :
  bfs_inv [p] b → marked (b_visited b) p →
  (guard = true →
     in_grid (grid_size self) (nr, nc) ∧
     ∃ w, wall = Ok w ∧ (w = false → passage self p (nr, nc))) →
  ∃ b', bfs_probe guard wall nr nc b = Ok b' ∧ bfs_inv [p] b' ∧
    (∀ x, marked (b_visited b) x → marked (b_visited b') x) ∧
    (guard = true → wall = Ok false → marked (b_visited b') (nr, nc)) ∧
    Z.of_nat (length (b_queue b')) - b_count b'
      = Z.of_nat (length (b_queue b)) - b_count b.
Proof.
  intros Hinv Hp Hguard. unfold bfs_probe.
  destruct guard; [|exists b; split_and!; auto; done].
  destruct Hguard as (Hq & w & -> & Hw); [done|]. cbn.
  destruct w; cbn; [exists b; split_and!; auto; done|].
  destruct Hinv as [Hwf Ho Hs Hqu Hcl Hcnt].
  rewrite (mget_ok _ _ _ Hwf) by apply Hq. cbn.
  destruct (cell (b_visited b) nr nc) eqn:Hseen; cbn.
  { exists b. split_and!; auto. by constructor. }
  rewrite (mset_ok _ _ _ Hwf) by apply Hq. cbn.
  assert (¬ marked (b_visited b) (nr, nc)) as Hnm by (unfold marked; cbn; congruence).
  assert (∀ x, marked (mupd (b_visited b) nr nc true) x
               ↔ x = (nr, nc) ∨ marked (b_visited b) x) as Hupd.
  { intros x. apply (marked_mupd _ _ nr nc x Hwf Hq). }
  pose proof (count_marked_mupd _ _ nr nc Hwf Hq Hnm) as Hcount.
  eexists. split; [done|]. split_and!; cbn.
  - constructor; cbn.
    + by apply wf_mupd.
    + apply Hupd. by right.
    + intros x [->|Hx]%Hupd; [|by apply Hs].
      eapply rtc_r; [by apply Hs|by apply Hw].
    + intros x [Hx| ->%list_elem_of_singleton]%elem_of_app; apply Hupd; auto.
    + intros x [->|Hx]%Hupd.
      { left. apply elem_of_app. right. by apply list_elem_of_singleton. }
      destruct (Hcl x Hx) as [Hin|[Hin|Hclosed]].
      * left. apply elem_of_app. by left.
      * by right; left.
      * right; right. intros y Hy. apply Hupd. right. auto.
    + rewrite Hcount, Hcnt. lia.
  - intros x Hx. apply Hupd. by right.
  - intros _ _. apply Hupd. by left.
  - rewrite length_app. cbn. lia.
Qed.

Lemma bfs_step_spec p b :
  bfs_inv [p] b → marked (b_visited b) p →
  ∃ b', bfs_step self p.1 p.2 b = Ok b' ∧ bfs_inv [] b' ∧
    Z.of_nat (length (b_queue b')) - b_count b'
      = Z.of_nat (length (b_queue b)) - b_count b.
Proof.
  intros Hinv Hp. destruct p as [r c].
  pose proof (marked_in_grid _ _ _ (bi_wf _ _ Hinv) Hp) as Hin.
  destruct Hin as [Hr Hc]. cbn in Hr, Hc. destruct Hwalls as [Hhw Hvw].
  unfold bfs_step. cbn [fst snd].
  edestruct (bfs_probe_spec (r, c) (0 <? r) (mget (horizontal_walls self) r c) (r - 1) c b)
    as (b1 & -> & Hinv1 & Hmono1 & Hup & Hm1); [done..| |].
  { intros Hg. split; [split; cbn; lia|]. eexists. split; [apply (mget_ok _ _ _ Hhw); lia|].
    intros Hw. split_and!; [split; cbn; lia..|]. by left. }
  cbn.
  edestruct (bfs_probe_spec (r, c) (r <? grid_size self - 1)
               (mget (horizontal_walls self) (r + 1) c) (r + 1) c b1)
    as (b2 & -> & Hinv2 & Hmono2 & Hdown & Hm2); [auto..| |].
  { intros Hg. split; [split; cbn; lia|]. eexists. split; [apply (mget_ok _ _ _ Hhw); lia|].
    intros Hw. split_and!; [split; cbn; lia..|]. right; by left. }
  cbn.
  edestruct (bfs_probe_spec (r, c) (0 <? c) (mget (vertical_walls self) r c) r (c - 1) b2)
    as (b3 & -> & Hinv3 & Hmono3 & Hleft & Hm3); [auto..| |].
  { intros Hg. split; [split; cbn; lia|]. eexists. split; [apply (mget_ok _ _ _ Hvw); lia|].
    intros Hw. split_and!; [split; cbn; lia..|]. right; right; by left. }
  cbn.
  edestruct (bfs_probe_spec (r, c) (c <? grid_size self - 1)
               (mget (vertical_walls self) r (c + 1)) r (c + 1) b3)
    as (b4 & -> & Hinv4 & Hmono4 & Hright & Hm4); [auto..| |].
  { intros Hg. split; [split; cbn; lia|]. eexists. split; [apply (mget_ok _ _ _ Hvw); lia|].
    intros Hw. split_and!; [split; cbn; lia..|]. by do 3 right. }
  exists b4. split; [done|]. split; [|lia].
  assert (∀ q, passage self (r, c) q → marked (b_visited b4) q) as Hclosed.
  { intros q (_ & Hq & Hcase). cbn in Hcase. destruct Hq as [Hqr Hqc].
    destruct Hcase as [[-> Hw]|[[-> Hw]|[[-> Hw]|[-> Hw]]]]; cbn in Hqr, Hqc.
    - apply Hmono4, Hmono3, Hmono2, Hup; [lia|].
      rewrite (mget_ok _ _ _ Hhw) by lia. by rewrite Hw.
    - apply Hmono4, Hmono3, Hdown; [lia|].
      rewrite (mget_ok _ _ _ Hhw) by lia. by rewrite Hw.
    - apply Hmono4, Hleft; [lia|].
      rewrite (mget_ok _ _ _ Hvw) by lia. by rewrite Hw.
    - apply Hright; [lia|].
      rewrite (mget_ok _ _ _ Hvw) by lia. by rewrite Hw. }
  destruct Hinv4 as [Hwf Ho Hs Hqu Hcl Hcnt]. constructor; auto.
  intros x Hx. destruct (Hcl x Hx) as [?|[->%list_elem_of_singleton|?]]; auto.
Qed.

Lemma bfs_count_le cur b : bfs_inv cur b → b_count b ≤ grid_size self * grid_size self.
Proof.
  intros Hinv. rewrite (bi_count _ _ Hinv), <- length_all_cells by lia.
  apply inj_le, length_filter.
Qed.

(** The loop terminates within the fuel and ends with an empty queue. *)
Lemma bfs_loop_spec fuel b :
  bfs_inv [] b →
  Z.of_nat (length (b_queue b)) + grid_size self * grid_size self - b_count b ≤ Z.of_nat fuel →
  ∃ b', bfs_loop fuel self b = Ok b' ∧ bfs_inv [] b' ∧ b_queue b' = [].
Proof.
  revert b. induction fuel as [|fuel IH]; intros b Hinv Hfuel.
  - pose proof (bfs_count_le _ _ Hinv). destruct b as [v [|p q] k]; cbn in *; [|lia].
    eexists. split; [done|]. by split.
  - destruct b as [v [|[r c] q] k]; cbn [bfs_loop b_queue b_visited b_count] in *.
    { eexists. split; [done|]. by split. }
    destruct Hinv as [Hwf Ho Hs Hqu Hcl Hcnt]; cbn in *.
    edestruct (bfs_step_spec (r, c) {| b_visited := v; b_queue := q; b_count := k |})
      as (b1 & Hstep & Hinv1 & Hm1).
    { constructor; cbn; auto.
      - intros x Hx. apply Hqu. by right.
      - intros x Hx. destruct (Hcl x Hx) as [[->|?]%elem_of_cons|[?%elem_of_nil|?]].
        + right; left. by apply list_elem_of_singleton.
        + by left.
        + done.
        + by right; right. }
    { cbn. apply Hqu. by left. }
    cbn in Hstep, Hm1. rewrite Hstep. cbn.
    apply IH; [done|]. cbn in Hfuel. lia.
Qed.

Lemma bfs_complete b :
  bfs_inv [] b → b_queue b = [] →
  ∀ p, reachable self (0, 0) p → marked (b_visited b) p.
Proof.
  intros Hinv Hempty. apply rtc_ind_r; [by apply (bi_origin _ _ Hinv)|].
  intros y z Hy Hyz IH.
  destruct (bi_closed _ _ Hinv y IH) as [Hin|[Hin|Hclosed]].
  - rewrite Hempty in Hin. by apply elem_of_nil in Hin.
  - by apply elem_of_nil in Hin.
  - by apply Hclosed.
Qed.

Lemma filter_unmarked_nil rows cols (l : list cell_id) :
  filter (marked (mk_matrix rows cols false)) l = [].
Proof.
  induction l as [|p l IH]; [done|]. rewrite filter_cons, IH.
  destruct (decide _) as [Hm|]; [|done].
  unfold marked, cell, mk_matrix in Hm.
  destruct ((0 <=? p.1) && (0 <=? p.2)); [|done].
  destruct (replicate _ _ !! _) as [row|] eqn:Hrow; [|done].
  apply lookup_replicate in Hrow as [-> _].
  destruct (replicate _ _ !! _) as [b|] eqn:Hb; [|done].
  apply lookup_replicate in Hb as [-> _]. done.
Qed.

(** With at least [n * n] units of fuel the check returns, and its answer
    compares the number of cells reachable from [(0, 0)] with [n * n]. *)
Lemma is_all_connected_fuel_spec fuel :
  grid_size self * grid_size self ≤ Z.of_nat fuel →
  ∃ l, NoDup l ∧ (∀ p, p ∈ l ↔ reachable self (0, 0) p) ∧
    is_all_connected_fuel fuel self = Ok (zlen l =? grid_size self * grid_size self).
Proof.
  intros Hfuel. unfold is_all_connected_fuel.
  pose proof (wf_mk_matrix (grid_size self) (grid_size self) false) as Hwf0.
  specialize (Hwf0 ltac:(lia) ltac:(lia)).
  assert (in_grid (grid_size self) (0, 0)) as Ho by (split; cbn; lia).
  rewrite (mset_ok _ _ _ Hwf0) by lia. cbn.
  set (v0 := mupd _ 0 0 true).
  assert (∀ p, marked v0 p ↔ p = (0, 0)) as Hv0.
  { intros p. unfold v0. rewrite (marked_mupd _ _ 0 0 p Hwf0 Ho).
    split; [|by left]. intros [?|Hm]; [done|].
    assert (p ∈ filter (marked (mk_matrix (grid_size self) (grid_size self) false)) [p]) as Hin.
    { apply list_elem_of_filter. split; [done|]. by apply list_elem_of_singleton. }
    rewrite filter_unmarked_nil in Hin. by apply elem_of_nil in Hin. }
  edestruct (bfs_loop_spec fuel {| b_visited := v0; b_queue := [(0, 0)]; b_count := 1 |})
    as (b & -> & Hinv & Hempty).
  { constructor; cbn.
    - by apply wf_mupd.
    - by apply Hv0.
    - intros p ->%Hv0. apply rtc_refl.
    - intros p ->%list_elem_of_singleton. by apply Hv0.
    - intros p ->%Hv0. left. by apply list_elem_of_singleton.
    - unfold v0.
      rewrite (count_marked_mupd _ _ 0 0 Hwf0 Ho), filter_unmarked_nil; [done|].
      intros Hm.
      assert ((0, 0) ∈ filter (marked (mk_matrix (grid_size self) (grid_size self) false)) [(0, 0)])
        as Hin.
      { apply list_elem_of_filter. split; [done|]. by apply list_elem_of_singleton. }
      rewrite filter_unmarked_nil in Hin. by apply elem_of_nil in Hin. }
  { cbn. lia. }
  cbn. exists (filter (marked (b_visited b)) (all_cells (grid_size self))).
  split_and!.
  - apply NoDup_filter, NoDup_all_cells.
  - intros p. rewrite list_elem_of_filter, elem_of_all_cells. split.
    + intros [Hm _]. by apply (bi_sound _ _ Hinv).
    + intros Hr. pose proof (bfs_complete _ Hinv Hempty p Hr) as Hm.
      split; [done|]. eapply marked_in_grid; [apply (bi_wf _ _ Hinv)|done].
  - by rewrite (bi_count _ _ Hinv).
Qed.

End bfs.

(** ** The depth-first carver *)

Definition step (p d : cell_id) : cell_id := (p.1 + d.1, p.2 + d.2).

(** The generator after [remove_wall] between [p] and [step p d]. *)
Definition open_wall (self : MazeGenerator) (p d : cell_id) : MazeGenerator :=
  if d.1 =? 1 then
    set_horizontal_walls self (mupd (horizontal_walls self) (p.1 + 1) p.2 false)
  else if d.1 =? -1 then
    set_horizontal_walls self (mupd (horizontal_walls self) p.1 p.2 false)
  else if d.2 =? 1 then
    set_vertical_walls self (mupd (vertical_walls self) p.1 (p.2 + 1) false)
  else if d.2 =? -1 then
    set_vertical_walls self (mupd (vertical_walls self) p.1 p.2 false)
  else self.

Definition opened (s : carve_state) (p d : cell_id) : carve_state :=
  {| c_self := open_wall (c_self s) p d; c_visited := c_visited s;
     c_rng := c_rng s; c_calls := c_calls s |}.

(** The state at the head of the loop of a call on [p]. *)
Definition enter (p : cell_id) (s : carve_state) (g : rng) : carve_state :=
  {| c_self := c_self s; c_visited := mupd (c_visited s) p.1 p.2 true;
     c_rng := g; c_calls := p :: c_calls s |}.

(** The configuration fields, which no method assigns. *)
Definition same_config (a b : MazeGenerator) : Prop :=
  grid_size a = grid_size b ∧ cell_size a = cell_size b ∧ min_walls a = min_walls b ∧
  wall_height a = wall_height b ∧ wall_thickness a = wall_thickness b.

(** Invariant I1: the entries on the outer boundary are [True]. *)
Definition boundary_ok (self : MazeGenerator) : Prop :=
  ∀ k, 0 ≤ k < grid_size self →
    cell (horizontal_walls self) 0 k = true ∧
    cell (horizontal_walls self) (grid_size self) k = true ∧
    cell (vertical_walls self) k 0 = true ∧
    cell (vertical_walls self) k (grid_size self) = true.

Definition wf_carve (n : Z) (s : carve_state) : Prop :=
  grid_size (c_self s) = n ∧ wf_walls (c_self s) ∧ wf_matrix n n (c_visited s).

(** The instrumentation agrees with [visited]. *)
Definition calls_inv (s : carve_state) : Prop :=
  NoDup (c_calls s) ∧ ∀ x, x ∈ c_calls s ↔ marked (c_visited s) x.

(** The run of the loop of a call on [p] over the remaining directions
    [dirs], from state [s] to state [s']: a direction is skipped, or the
    wall is removed and the loop of the recursive call runs first. *)
Inductive carve_loop (n : Z) : cell_id → list cell_id → carve_state → carve_state → Prop :=
  | carve_done p s : carve_loop n p [] s s
  | carve_skip p d dirs s s' :
      ¬ (in_grid n (step p d) ∧ ¬ marked (c_visited s) (step p d)) →
      carve_loop n p dirs s s' →
      carve_loop n p (d :: dirs) s s'
  | carve_go p d dirs dirs' g' s s1 s' :
      in_grid n (step p d) → ¬ marked (c_visited s) (step p d) →
      d ∈ directions →
      shuffle directions (c_rng s) = (dirs', g') →
      carve_loop n (step p d) dirs' (enter (step p d) (opened s p d) g') s1 →
      carve_loop n p dirs s1 s' →
      carve_loop n p (d :: dirs) s s'.

Ltac dir_cases H :=
  unfold directions in H;
  repeat (apply elem_of_cons in H as [->|H]); [..|by apply elem_of_nil in H].

Ltac dir_in := unfold directions; repeat constructor.

Lemma same_config_refl a : same_config a a.
Proof. by repeat split. Qed.

Lemma same_config_trans a b c : same_config a b → same_config b c → same_config a c.
Proof. unfold same_config. intros (?&?&?&?&?) (?&?&?&?&?). split_and!; congruence. Qed.

Lemma open_wall_config self p d : same_config self (open_wall self p d).
Proof. unfold open_wall. repeat case_match; by repeat split. Qed.

Lemma open_wall_wf self p d : wf_walls self → wf_walls (open_wall self p d).
Proof.
  intros [Hh Hv]. unfold open_wall, wf_walls.
  repeat case_match; cbn; split; auto using wf_mupd.
Qed.

Lemma open_wall_boundary self p d :
  wf_walls self → in_grid (grid_size self) p → in_grid (grid_size self) (step p d) →
  d ∈ directions → boundary_ok self → boundary_ok (open_wall self p d).
Proof.
  intros [Hh Hv] [Hr Hc] [Hr' Hc'] Hd Hb k Hk. destruct p as [r c]. cbn in *.
  destruct (Hb k) as (H1 & H2 & H3 & H4).
  { dir_cases Hd; exact Hk. }
  dir_cases Hd; cbn in *; split_and!; try done;
    rewrite cell_mupd_ne; try done; try lia; intros [= ]; lia.
Qed.

Lemma remove_wall_ok self p d :
  wf_walls self → in_grid (grid_size self) p → in_grid (grid_size self) (step p d) →
  d ∈ directions →
  remove_wall self p.1 p.2 d.1 d.2 = Ok (open_wall self p d).
Proof.
  intros [Hh Hv] [Hr Hc] [Hr' Hc'] Hd. destruct p as [r c]. cbn in *.
  unfold remove_wall, open_wall.
  dir_cases Hd; cbn in *.
  - rewrite (mset_ok _ _ _ Hv) by lia. done.
  - rewrite (mset_ok _ _ _ Hh) by lia. done.
  - rewrite (mset_ok _ _ _ Hv) by lia. done.
  - rewrite (mset_ok _ _ _ Hh) by lia. done.
Qed.

Section carve.
Context (n : Z).
Hypothesis Hn : 1 ≤ n.

Lemma wf_opened s p d : wf_carve n s → wf_carve n (opened s p d).
Proof.
  intros (Hg & Hw & Hv). split_and!; cbn; [|by apply open_wall_wf|done].
  by rewrite <- (proj1 (open_wall_config (c_self s) p d)).
Qed.

Lemma wf_enter s p g : wf_carve n s → wf_carve n (enter p s g).
Proof. intros (Hg & Hw & Hv). split_and!; cbn; auto using wf_mupd. Qed.

Lemma marked_enter s q g x :
  wf_carve n s → in_grid n q →
  marked (c_visited (enter q s g)) x ↔ x = q ∨ marked (c_visited s) x.
Proof.
  intros (_ & _ & Hv) Hq. destruct q as [r c]. cbn.
  apply (marked_mupd _ _ _ _ _ Hv Hq).
Qed.

Lemma calls_inv_enter s p g :
  wf_carve n s → in_grid n p → ¬ marked (c_visited s) p →
  calls_inv s → calls_inv (enter p s g).
Proof.
  intros (_ & _ & Hv) Hp Hnm [Hnd Hiff]. destruct p as [r c]. split; cbn.
  - apply NoDup_cons. split; [|done]. by rewrite Hiff.
  - intros x. rewrite elem_of_cons, (marked_mupd _ _ _ _ _ Hv Hp), Hiff. done.
Qed.

(** What every run of the loop preserves. *)
Lemma carve_loop_basic p dirs s s' :
  carve_loop n p dirs s s' → wf_carve n s → in_grid n p →
  wf_carve n s' ∧
  same_config (c_self s) (c_self s') ∧
  (∀ x, marked (c_visited s) x → marked (c_visited s') x) ∧
  (calls_inv s → calls_inv s') ∧
  (boundary_ok (c_self s) → boundary_ok (c_self s')) ∧
  (length (c_calls s) ≤ length (c_calls s'))%nat.
Proof.
  induction 1 as [p s|p d dirs s s' Hskip _ IH
                 |p d dirs dirs' g' s s1 s' Hq Hnm Hd Hsh _ IH1 _ IH2];
    intros Hwf Hp.
  - split_and!; auto using same_config_refl.
  - by apply IH.
  - pose proof (wf_opened s p d Hwf) as Hwfo.
    pose proof (wf_enter _ (step p d) g' Hwfo) as Hwfe.
    destruct (IH1 Hwfe Hq) as (Hwf1 & Hcfg1 & Hmono1 & Hcalls1 & Hbd1 & Hlen1).
    destruct (IH2 Hwf1 Hp) as (Hwf2 & Hcfg2 & Hmono2 & Hcalls2 & Hbd2 & Hlen2).
    destruct Hwf as (Hg & Hw & Hv).
    split_and!.
    + done.
    + eapply same_config_trans; [|exact Hcfg2].
      eapply same_config_trans; [|exact Hcfg1]. cbn. apply open_wall_config.
    + intros x Hx. apply Hmono2, Hmono1.
      apply marked_enter; [done..|]. by right.
    + intros Hci. apply Hcalls2, Hcalls1.
      apply calls_inv_enter; [done..|]. exact Hci.
    + intros Hb. apply Hbd2, Hbd1. cbn.
      apply open_wall_boundary; rewrite ?Hg; done.
    + cbn in Hlen1. lia.
Qed.

Lemma calls_lt s q :
  wf_carve n s → calls_inv s → in_grid n q → ¬ marked (c_visited s) q →
  Z.of_nat (length (c_calls s)) < n * n.
Proof.
  intros (_ & _ & Hv) [Hnd Hiff] Hq Hnm.
  rewrite <- length_all_cells by lia.
  assert (length (q :: c_calls s) ≤ length (all_cells n))%nat; [|cbn in *; lia].
  apply submseteq_length, NoDup_submseteq.
  - apply NoDup_cons. split; [|done]. by rewrite Hiff.
  - intros x [->|Hx]%elem_of_cons; apply elem_of_all_cells; [done|].
    eapply marked_in_grid; [exact Hv|]. by apply Hiff.
Qed.

Lemma unvisited_in_bounds_ok (v : matrix) q :
  wf_matrix n n v →
  unvisited_in_bounds n v q.1 q.2
  = Ok (bool_decide (in_grid n q ∧ ¬ marked v q)).
Proof.
  intros Hv. unfold unvisited_in_bounds.
  destruct ((0 <=? q.1) && (q.1 <? n) && (0 <=? q.2) && (q.2 <? n)) eqn:Hb.
  - rewrite (mget_ok _ _ _ Hv) by lia. cbn. f_equal. symmetry.
    destruct (decide (marked v q)) as [Hm|Hm].
    + rewrite Hm. apply bool_decide_eq_false. tauto.
    + unfold marked in Hm. apply not_true_is_false in Hm as Hm'. rewrite Hm'.
      apply bool_decide_eq_true. split; [unfold in_grid; lia|done].
  - f_equal. symmetry. apply bool_decide_eq_false. unfold in_grid. lia.
Qed.

(** The loop body in terms of the states of the relation. *)
Lemma carve_dir_eq recurse p d s :
  wf_carve n s → in_grid n p → d ∈ directions →
  carve_dir recurse p.1 p.2 d s
  = if bool_decide (in_grid n (step p d) ∧ ¬ marked (c_visited s) (step p d))
    then recurse (step p d).1 (step p d).2 (opened s p d)
    else Ok s.
Proof.
  intros (Hg & Hw & Hv) Hp Hd.
  pose proof (unvisited_in_bounds_ok (c_visited s) (step p d) Hv) as Hgo.
  pose proof (remove_wall_ok (c_self s) p d Hw) as Hrm. rewrite Hg in Hrm.
  unfold carve_dir. destruct d as [dr dc]. cbn [step fst snd] in *.
  rewrite Hg, Hgo. cbn. case_bool_decide as Hcase; [|done].
  rewrite Hrm by tauto. done.
Qed.

(** A recursion that returns from the call on every fresh cell lets the
    loop of a call run to its end. *)
Lemma carve_loop_adequate depth
  (Hrec : ∀ q s0, wf_carve n s0 → calls_inv s0 → in_grid n q →
     ¬ marked (c_visited s0) q →
     n * n - Z.of_nat (length (c_calls s0)) ≤ Z.of_nat depth →
     ∃ s' dirs g', shuffle directions (c_rng s0) = (dirs, g') ∧
       dfs_carve depth q.1 q.2 s0 = Ok s' ∧ carve_loop n q dirs (enter q s0 g') s') :
  ∀ dirs p s, wf_carve n s → calls_inv s → in_grid n p →
    (∀ d, d ∈ dirs → d ∈ directions) →
    n * n - Z.of_nat (length (c_calls s)) ≤ Z.of_nat depth →
    ∃ s', for_each (carve_dir (dfs_carve depth) p.1 p.2) dirs s = Ok s' ∧
          carve_loop n p dirs s s'.
Proof.
  induction dirs as [|d dirs IH]; intros p s Hwf Hci Hp Hdirs Hdepth.
  { exists s. split; [done|constructor]. }
  assert (d ∈ directions) as Hd by (apply Hdirs; left).
  assert (∀ d', d' ∈ dirs → d' ∈ directions) as Hdirs' by (intros; apply Hdirs; by right).
  cbn [for_each]. rewrite carve_dir_eq by done.
  case_bool_decide as Hcase.
  - destruct Hcase as [Hq Hnm].
    destruct (Hrec (step p d) (opened s p d)) as (s1 & dirs' & g' & Hsh & Hrun & Hloop);
      [by apply wf_opened|done..|].
    rewrite Hrun. cbn.
    destruct (carve_loop_basic _ _ _ _ Hloop) as (Hwf1 & _ & _ & Hci1 & _ & Hlen1);
      [by apply wf_enter, wf_opened|done|].
    destruct (IH p s1) as (s' & Hfor & Hloop'); auto.
    { apply Hci1. apply calls_inv_enter; [by apply wf_opened|done..]. }
    { cbn in Hlen1. lia. }
    exists s'. split; [done|].
    eapply carve_go; eauto.
  - cbn. destruct (IH p s) as (s' & Hfor & Hloop'); auto.
    exists s'. split; [done|]. by apply carve_skip.
Qed.

(** Each call marks a fresh cell, so the calls nest at most
    [grid_size * grid_size] deep: the call on a fresh cell returns when
    there is room for as many nested calls as there are cells still
    unvisited. *)
Lemma dfs_carve_adequate depth :
  ∀ q s0, wf_carve n s0 → calls_inv s0 → in_grid n q →
    ¬ marked (c_visited s0) q →
    n * n - Z.of_nat (length (c_calls s0)) ≤ Z.of_nat depth →
    ∃ s' dirs g', shuffle directions (c_rng s0) = (dirs, g') ∧
      dfs_carve depth q.1 q.2 s0 = Ok s' ∧ carve_loop n q dirs (enter q s0 g') s'.
Proof.
  induction depth as [|depth IH]; intros q s0 Hwf Hci Hq Hnm Hdepth.
  { pose proof (calls_lt s0 q Hwf Hci Hq Hnm). lia. }
  cbn [dfs_carve]. destruct Hwf as (Hg & Hw & Hv).
  rewrite (mset_ok _ _ _ Hv) by apply Hq. cbn.
  destruct (shuffle directions (c_rng s0)) as [dirs g'] eqn:Hsh.
  destruct (carve_loop_adequate depth IH dirs q (enter q s0 g')) as (s' & Hfor & Hloop).
  - apply wf_enter. by split_and!.
  - apply calls_inv_enter; [by split_and!|done..].
  - done.
  - intros d Hd. change dirs with (dirs, g').1 in Hd. rewrite <- Hsh in Hd.
    by rewrite shuffle_Permutation in Hd.
  - cbn. lia.
  - exists s', dirs, g'. split_and!; try done.
    destruct q as [r c]. exact Hfor.
Qed.

(** With whatever room, the loop of a call runs to its end unless a
    nested call hits the recursion limit: no other exception is raised. *)
Lemma carve_loop_cases depth
  (Hrec : ∀ q s0, wf_carve n s0 → in_grid n q → ¬ marked (c_visited s0) q →
     dfs_carve depth q.1 q.2 s0 = Raise RecursionError ∨
     ∃ s' dirs g', shuffle directions (c_rng s0) = (dirs, g') ∧
       dfs_carve depth q.1 q.2 s0 = Ok s' ∧ carve_loop n q dirs (enter q s0 g') s') :
  ∀ dirs p s, wf_carve n s → in_grid n p →
    (∀ d, d ∈ dirs → d ∈ directions) →
    for_each (carve_dir (dfs_carve depth) p.1 p.2) dirs s = Raise RecursionError ∨
    ∃ s', for_each (carve_dir (dfs_carve depth) p.1 p.2) dirs s = Ok s' ∧
          carve_loop n p dirs s s'.
Proof.
  induction dirs as [|d dirs IH]; intros p s Hwf Hp Hdirs.
  { right. exists s. split; [done|constructor]. }
  assert (d ∈ directions) as Hd by (apply Hdirs; left).
  assert (∀ d', d' ∈ dirs → d' ∈ directions) as Hdirs' by (intros; apply Hdirs; by right).
  cbn [for_each]. rewrite carve_dir_eq by done.
  case_bool_decide as Hcase.
  - destruct Hcase as [Hq Hnm].
    destruct (Hrec (step p d) (opened s p d))
      as [Hraise|(s1 & dirs' & g' & Hsh & Hrun & Hloop)]; [by apply wf_opened|done..| |].
    { left. by rewrite Hraise. }
    rewrite Hrun. cbn.
    destruct (carve_loop_basic _ _ _ _ Hloop) as (Hwf1 & _);
      [by apply wf_enter, wf_opened|done|].
    destruct (IH p s1) as [Hraise|(s' & Hfor & Hloop')]; auto.
    right. exists s'. split; [done|]. eapply carve_go; eauto.
  - cbn. destruct (IH p s) as [Hraise|(s' & Hfor & Hloop')]; auto.
    right. exists s'. split; [done|]. by apply carve_skip.
Qed.

Lemma dfs_carve_cases depth :
  ∀ q s0, wf_carve n s0 → in_grid n q → ¬ marked (c_visited s0) q →
    dfs_carve depth q.1 q.2 s0 = Raise RecursionError ∨
    ∃ s' dirs g', shuffle directions (c_rng s0) = (dirs, g') ∧
      dfs_carve depth q.1 q.2 s0 = Ok s' ∧ carve_loop n q dirs (enter q s0 g') s'.
Proof.
  induction depth as [|depth IH]; intros q s0 Hwf Hq Hnm; [by left|].
  cbn [dfs_carve]. pose proof Hwf as (Hg & Hw & Hv).
  rewrite (mset_ok _ _ _ Hv) by apply Hq. cbn.
  destruct (shuffle directions (c_rng s0)) as [dirs g'] eqn:Hsh.
  destruct (carve_loop_cases depth IH dirs q (enter q s0 g'))
    as [Hraise|(s' & Hfor & Hloop)].
  - by apply wf_enter.
  - done.
  - intros d Hd. change dirs with (dirs, g').1 in Hd. rewrite <- Hsh in Hd.
    by rewrite shuffle_Permutation in Hd.
  - left. destruct q as [r c]. exact Hraise.
  - right. exists s', dirs, g'. split_and!; try done.
    destruct q as [r c]. exact Hfor.
Qed.

End carve.

(** *** More room changes nothing *)

Lemma for_each_mono {A S} (f g : A → S → result S) l s s' :
  (∀ a s s', f a s = Ok s' → g a s = Ok s') →
  for_each f l s = Ok s' → for_each g l s = Ok s'.
Proof.
  intros Hfg. revert s. induction l as [|a l IH]; intros s; cbn; [done|].
  destruct (f a s) as [s1| |] eqn:Hf; cbn; [|done..].
  rewrite (Hfg _ _ _ Hf). cbn. apply IH.
Qed.

Lemma carve_dir_mono rec1 rec2 row col d s s' :
  (∀ r c s s', rec1 r c s = Ok s' → rec2 r c s = Ok s') →
  carve_dir rec1 row col d s = Ok s' → carve_dir rec2 row col d s = Ok s'.
Proof.
  intros Hrec. unfold carve_dir. destruct d as [dr dc].
  destruct (unvisited_in_bounds _ _ _ _) as [[]| |]; cbn; try done.
  destruct (remove_wall _ _ _ _ _) as [self| |]; cbn; try done.
  apply Hrec.
Qed.

(** A call that returns with room for [depth] nested calls returns the
    same state with any more room: the recursion limit decides whether
    the carver returns, never what it returns. *)
Lemma dfs_carve_depth_mono depth depth' row col s s' :
  (depth ≤ depth')%nat →
  dfs_carve depth row col s = Ok s' → dfs_carve depth' row col s = Ok s'.
Proof.
  revert depth' row col s s'. induction depth as [|depth IH]; intros depth' row col s s' Hle; [done|].
  destruct depth' as [|depth']; [lia|]. cbn [dfs_carve].
  destruct (mset _ _ _ _) as [v| |]; cbn; try done.
  destruct (shuffle directions (c_rng s)) as [dirs g].
  apply for_each_mono. intros d s1 s2. apply carve_dir_mono.
  intros r c s3 s4. apply IH. lia.
Qed.

(** *** Every cell is visited *)

(** A cell is closed when its neighbours in the grid are all marked. *)
Definition closed (n : Z) (v : matrix) (x : cell_id) : Prop :=
  ∀ d, d ∈ directions → in_grid n (step x d) → marked v (step x d).

Section carve_complete.
Context (n : Z).
Hypothesis Hn : 1 ≤ n.

Lemma carve_loop_closed p dirs s s' :
  carve_loop n p dirs s s' → wf_carve n s → in_grid n p →
  (∀ x, marked (c_visited s') x → marked (c_visited s) x ∨ closed n (c_visited s') x) ∧
  (∀ d, d ∈ dirs → in_grid n (step p d) → marked (c_visited s') (step p d)).
Proof.
  induction 1 as [p s|p d dirs s s' Hskip Hloop IH
                 |p d dirs dirs' g' s s1 s' Hq Hnm Hd Hsh Hloop1 IH1 Hloop2 IH2];
    intros Hwf Hp.
  - split; [auto|]. by intros d ?%elem_of_nil.
  - destruct (IH Hwf Hp) as [Hcl Hdirs]. split; [done|].
    intros d0 [->|Hd0]%elem_of_cons Hin; [|by apply Hdirs].
    destruct (carve_loop_basic n _ _ _ _ Hloop Hwf Hp) as (_ & _ & Hmono & _).
    apply Hmono. destruct (decide (marked (c_visited s) (step p d))); tauto.
  - pose proof (wf_enter n _ (step p d) g' (wf_opened n s p d Hwf)) as Hwfe.
    destruct (carve_loop_basic n _ _ _ _ Hloop1 Hwfe Hq) as (Hwf1 & _ & Hmono1 & _).
    destruct (carve_loop_basic n _ _ _ _ Hloop2 Hwf1 Hp) as (_ & _ & Hmono2 & _).
    destruct (IH1 Hwfe Hq) as [Hcl1 Hdirs1]. destruct (IH2 Hwf1 Hp) as [Hcl2 Hdirs2].
    assert (∀ x, closed n (c_visited s1) x → closed n (c_visited s') x) as Hclmono.
    { intros x Hx d0 Hd0 Hin. apply Hmono2. by apply Hx. }
    assert (closed n (c_visited s1) (step p d)) as Hclq.
    { intros d0 Hd0 Hin. apply Hdirs1; [|done].
      change dirs' with (dirs', g').1. by rewrite <- Hsh, shuffle_Permutation. }
    split.
    + intros x Hx. destruct (Hcl2 x Hx) as [Hx1|?]; [|by right].
      destruct (Hcl1 x Hx1) as [Hxe|?]; [|right; by apply Hclmono].
      apply (marked_enter n) in Hxe as [->|?]; [|by left|by apply wf_opened|done].
      right. by apply Hclmono.
    + intros d0 [->|Hd0]%elem_of_cons Hin; [|by apply Hdirs2].
      apply Hmono2, Hmono1. apply (marked_enter n); [by apply wf_opened|done|by left].
Qed.

(** From a marked cell of a closed set one walks to every cell in a
    straight line. *)
Lemma closed_line v d (k : nat) x :
  wf_matrix n n v → (∀ x, marked v x → closed n v x) → d ∈ directions →
  marked v x →
  in_grid n (x.1 + Z.of_nat k * d.1, x.2 + Z.of_nat k * d.2) →
  marked v (x.1 + Z.of_nat k * d.1, x.2 + Z.of_nat k * d.2).
Proof.
  intros Hv Hcl Hd Hx. pose proof (marked_in_grid _ _ _ Hv Hx) as [Hr Hc].
  induction k as [|k IH]; intros Hin.
  - replace (x.1 + Z.of_nat 0 * d.1, x.2 + Z.of_nat 0 * d.2) with x; [done|].
    destruct x; cbn; f_equal; lia.
  - assert (marked v (x.1 + Z.of_nat k * d.1, x.2 + Z.of_nat k * d.2)) as Hk.
    { apply IH. destruct Hin as [Hr' Hc']. cbn in Hr', Hc'.
      dir_cases Hd; split; cbn in *; lia. }
    specialize (Hcl _ Hk d Hd). unfold step in Hcl. cbn [fst snd] in Hcl.
    replace (x.1 + Z.of_nat (S k) * d.1, x.2 + Z.of_nat (S k) * d.2)
      with (x.1 + Z.of_nat k * d.1 + d.1, x.2 + Z.of_nat k * d.2 + d.2) in *
      by (f_equal; lia).
    by apply Hcl.
Qed.

Lemma closed_line_Z v d k x :
  wf_matrix n n v → (∀ x, marked v x → closed n v x) → d ∈ directions →
  marked v x → 0 ≤ k →
  in_grid n (x.1 + k * d.1, x.2 + k * d.2) →
  marked v (x.1 + k * d.1, x.2 + k * d.2).
Proof.
  intros Hv Hcl Hd Hx Hk. rewrite <- (Z2Nat.id k) by done. by apply closed_line.
Qed.

Lemma closed_all v p :
  wf_matrix n n v → (∀ x, marked v x → closed n v x) → marked v p →
  ∀ y, in_grid n y → marked v y.
Proof.
  intros Hv Hcl Hp y Hy. pose proof (marked_in_grid _ _ _ Hv Hp) as Hpin.
  assert (∀ d, d ∈ directions → ∀ x k z, marked v x → 0 ≤ k → in_grid n z →
            z = (x.1 + k * d.1, x.2 + k * d.2) → marked v z) as Hline.
  { intros d Hd x k z Hx Hk Hz ->. by apply closed_line_Z. }
  destruct p as [r c], y as [r' c'], Hpin as [Hr Hc], Hy as [Hr' Hc']. cbn in *.
  assert (marked v (r', c)) as Hmid.
  { destruct (decide (r ≤ r')).
    - apply (Hline (1, 0) ltac:(dir_in) (r, c) (r' - r));
        [done|lia|split; cbn; lia|cbn; f_equal; lia].
    - apply (Hline (-1, 0) ltac:(dir_in) (r, c) (r - r'));
        [done|lia|split; cbn; lia|cbn; f_equal; lia]. }
  destruct (decide (c ≤ c')).
  - apply (Hline (0, 1) ltac:(dir_in) (r', c) (c' - c));
      [done|lia|split; cbn; lia|cbn; f_equal; lia].
  - apply (Hline (0, -1) ltac:(dir_in) (r', c) (c - c'));
      [done|lia|split; cbn; lia|cbn; f_equal; lia].
Qed.

End carve_complete.

(** *** The walls removed by the carver *)

(** The interior positions of the two matrices, in the order of the
    loops of [_count_inner_walls] and [_add_additional_walls]. *)
Definition h_interior (n : Z) : list cell_id := positions (range 1 n) (range 0 n).
Definition v_interior (n : Z) : list cell_id := positions (range 0 n) (range 1 n).

(** The number of interior entries that are [False]. *)
Definition open_count (self : MazeGenerator) : nat :=
  (length (filter (is_open (horizontal_walls self)) (h_interior (grid_size self)))
   + length (filter (is_open (vertical_walls self)) (v_interior (grid_size self))))%nat.

Lemma cell_mupd_false rows cols (m : matrix) r c i j :
  wf_matrix rows cols m → 0 ≤ r < rows → 0 ≤ c < cols →
  cell (mupd m r c false) i j = false ↔ (i = r ∧ j = c) ∨ cell m i j = false.
Proof.
  intros Hwf Hr Hc. destruct (decide ((i, j) = (r, c))) as [[= -> ->]|Hne].
  - rewrite (cell_mupd_eq _ _ _ Hwf) by done. split; auto.
  - rewrite cell_mupd_ne by (done || lia). split; [by right|].
    intros [[-> ->]|?]; done.
Qed.

Lemma count_open_mupd rows cols (m : matrix) r c (l : list cell_id) :
  wf_matrix rows cols m → 0 ≤ r < rows → 0 ≤ c < cols →
  NoDup l → (r, c) ∈ l → cell m r c = true →
  length (filter (is_open (mupd m r c false)) l) = S (length (filter (is_open m) l)).
Proof.
  intros Hwf Hr Hc Hnd Hin Htrue. apply (length_filter_flip _ _ _ (r, c)); try done.
  - unfold is_open. cbn. congruence.
  - unfold is_open. cbn. by apply (cell_mupd_eq _ _ _ Hwf).
  - intros [i j] Hne. unfold is_open. cbn.
    rewrite (cell_mupd_false _ _ _ _ _ _ _ Hwf Hr Hc). split; [by right|].
    intros [[-> ->]|?]; done.
Qed.

Lemma filter_none {A} (P : A → Prop) `{∀ x, Decision (P x)} (l : list A) :
  (∀ x, x ∈ l → ¬ P x) → filter P l = [].
Proof.
  induction l as [|a l IH]; intros Hno; [done|].
  rewrite filter_cons_False by (apply Hno; left).
  apply IH. intros x Hx. apply Hno. by right.
Qed.

Section open_wall_facts.
Context (self : MazeGenerator) (p d : cell_id).
Hypothesis Hw : wf_walls self.
Hypothesis Hp : in_grid (grid_size self) p.
Hypothesis Hq : in_grid (grid_size self) (step p d).
Hypothesis Hd : d ∈ directions.

Lemma passage_open_wall_new : passage (open_wall self p d) p (step p d).
Proof.
  destruct Hw as [Hh Hv], p as [r c], Hp as [Hr Hc], Hq as [Hr' Hc'].
  unfold step in *. cbn in *.
  unfold passage. pose proof Hd as Hd'.
  dir_cases Hd'; cbn in *; (split; [done|]); (split; [done|]).
  - do 3 right. split; [f_equal; lia|]. apply (cell_mupd_eq _ _ _ Hv); lia.
  - right; left. split; [f_equal; lia|]. apply (cell_mupd_eq _ _ _ Hh); lia.
  - right; right; left. split; [f_equal; lia|].
    replace (c + -1) with (c - 1) by lia. apply (cell_mupd_eq _ _ _ Hv); lia.
  - left. split; [f_equal; lia|]. apply (cell_mupd_eq _ _ _ Hh); lia.
Qed.

Lemma passage_open_wall_mono a b : passage self a b → passage (open_wall self p d) a b.
Proof.
  destruct Hw as [Hh Hv], p as [r c], Hp as [Hr Hc], Hq as [Hr' Hc'].
  unfold step in *. cbn in *.
  unfold passage. pose proof Hd as Hd'.
  intros (Ha & Hb & Hcase).
  dir_cases Hd'; cbn in *; (split; [done|]); (split; [done|]);
    destruct Hcase as [[-> Hc1]|[[-> Hc1]|[[-> Hc1]|[-> Hc1]]]];
    first [ by left; split; [done|]; first [done | apply (cell_mupd_false _ _ _ _ _ _ _ Hh); [lia..|by right] ]
          | by right; left; split; [done|]; first [done | apply (cell_mupd_false _ _ _ _ _ _ _ Hh); [lia..|by right] ]
          | by right; right; left; split; [done|]; first [done | apply (cell_mupd_false _ _ _ _ _ _ _ Hv); [lia..|by right] ]
          | by do 3 right; split; [done|]; first [done | apply (cell_mupd_false _ _ _ _ _ _ _ Hv); [lia..|by right] ] ].
Qed.

Lemma passage_open_wall_inv a b :
  passage (open_wall self p d) a b →
  passage self a b ∨ (a = p ∧ b = step p d) ∨ (a = step p d ∧ b = p).
Proof.
  destruct Hw as [Hh Hv], p as [r c], a as [ar ac], Hp as [Hr Hc], Hq as [Hr' Hc'].
  unfold step in *. cbn in *.
  unfold passage. pose proof Hd as Hd'.
  intros (Ha & Hb & Hcase).
  dir_cases Hd'; cbn in *;
    destruct Hcase as [[-> Hc1]|[[-> Hc1]|[[-> Hc1]|[-> Hc1]]]];
    try (left; split_and!; [done..|]; tauto);
    first [ apply (cell_mupd_false _ _ _ _ _ _ _ Hh) in Hc1 as [[? ?]|Hc1]; [| |lia..]
          | apply (cell_mupd_false _ _ _ _ _ _ _ Hv) in Hc1 as [[? ?]|Hc1]; [| |lia..] ];
    try (left; split_and!; [done..|]; tauto);
    right; first [ left; split; f_equal; lia | right; split; f_equal; lia ].
Qed.

Lemma reachable_open_wall a b : reachable self a b → reachable (open_wall self p d) a b.
Proof. apply rtc_subrel. intros x y. apply passage_open_wall_mono. Qed.

(** A wall that still stands is removed: one more entry is open. *)
Lemma open_count_open_wall :
  ¬ passage self p (step p d) →
  open_count (open_wall self p d) = S (open_count self).
Proof.
  destruct Hw as [Hh Hv], p as [r c], Hp as [Hr Hc], Hq as [Hr' Hc'].
  unfold step in *. cbn in *.
  intros Hnp. unfold passage in Hnp. cbn in Hnp. pose proof Hd as Hd'.
  unfold open_count.
  dir_cases Hd'; cbn in *.
  - rewrite (count_open_mupd _ _ _ _ _ _ Hv); [lia|lia|lia|apply NoDup_positions; apply NoDup_range| |].
    + apply elem_of_positions. rewrite !elem_of_range. cbn. lia.
    + apply not_false_is_true. intros Hf. apply Hnp. split_and!; [done..|].
      do 3 right. split; [f_equal; lia|done].
  - rewrite (count_open_mupd _ _ _ _ _ _ Hh); [lia|lia|lia|apply NoDup_positions; apply NoDup_range| |].
    + apply elem_of_positions. rewrite !elem_of_range. cbn. lia.
    + apply not_false_is_true. intros Hf. apply Hnp. split_and!; [done..|].
      right; left. split; [f_equal; lia|done].
  - rewrite (count_open_mupd _ _ _ _ _ _ Hv); [lia|lia|lia|apply NoDup_positions; apply NoDup_range| |].
    + apply elem_of_positions. rewrite !elem_of_range. cbn. lia.
    + apply not_false_is_true. intros Hf. apply Hnp. split_and!; [done..|].
      right; right; left. split; [f_equal; lia|done].
  - rewrite (count_open_mupd _ _ _ _ _ _ Hh); [lia|lia|lia|apply NoDup_positions; apply NoDup_range| |].
    + apply elem_of_positions. rewrite !elem_of_range. cbn. lia.
    + apply not_false_is_true. intros Hf. apply Hnp. split_and!; [done..|].
      left. split; [f_equal; lia|done].
Qed.

End open_wall_facts.

(** What the walls and the marks have to do with each other during a
    carve that started at [root]: a passage joins marked cells only,
    every marked cell is reachable from [root], and the open interior
    entries are one fewer than the calls made. *)
Definition walls_inv (root : cell_id) (s : carve_state) : Prop :=
  (∀ a b, passage (c_self s) a b → marked (c_visited s) a ∧ marked (c_visited s) b) ∧
  (∀ x, marked (c_visited s) x → reachable (c_self s) root x) ∧
  S (open_count (c_self s)) = length (c_calls s).

Section carve_walls.
Context (n : Z) (root : cell_id).
Hypothesis Hn : 1 ≤ n.

Lemma walls_inv_go s p d g :
  wf_carve n s → in_grid n p → in_grid n (step p d) → d ∈ directions →
  marked (c_visited s) p → ¬ marked (c_visited s) (step p d) →
  walls_inv root s → walls_inv root (enter (step p d) (opened s p d) g).
Proof.
  intros Hwf Hp Hq Hd Hmp Hnm (Hpass & Hreach & Hcount).
  pose proof (wf_opened n s p d Hwf) as Hwfo.
  destruct Hwf as (Hg & Hw & Hv). rewrite <- Hg in Hp, Hq.
  assert (∀ x, marked (c_visited (enter (step p d) (opened s p d) g)) x
               ↔ x = step p d ∨ marked (c_visited s) x) as Hme.
  { intros x. apply (marked_enter n (opened s p d) (step p d) g x); [done|by rewrite <- Hg]. }
  split_and!.
  - intros a b Hab. cbn [c_self enter opened] in Hab.
    apply passage_open_wall_inv in Hab as [Hab|[[-> ->]|[-> ->]]]; try done.
    + destruct (Hpass a b Hab). split; apply Hme; by right.
    + split; apply Hme; [by right|by left].
    + split; apply Hme; [by left|by right].
  - intros x [->|Hx]%Hme; cbn [c_self enter opened].
    + eapply rtc_r; [apply reachable_open_wall, Hreach; done|].
      by apply passage_open_wall_new.
    + apply reachable_open_wall; auto.
  - cbn [c_self c_calls enter opened length]. f_equal. rewrite <- Hcount.
    apply open_count_open_wall; try done.
    intros Hab. by destruct (Hpass _ _ Hab).
Qed.

Lemma carve_loop_walls p dirs s s' :
  carve_loop n p dirs s s' → wf_carve n s → in_grid n p → marked (c_visited s) p →
  walls_inv root s → walls_inv root s'.
Proof.
  induction 1 as [p s|p d dirs s s' Hskip Hloop IH
                 |p d dirs dirs' g' s s1 s' Hq Hnm Hd Hsh Hloop1 IH1 Hloop2 IH2];
    intros Hwf Hp Hmp Hinv.
  - done.
  - by apply IH.
  - pose proof (wf_enter n _ (step p d) g' (wf_opened n s p d Hwf)) as Hwfe.
    destruct (carve_loop_basic n _ _ _ _ Hloop1 Hwfe Hq) as (Hwf1 & _ & Hmono1 & _).
    assert (∀ x, marked (c_visited (enter (step p d) (opened s p d) g')) x
                 ↔ x = step p d ∨ marked (c_visited s) x) as Hme.
    { intros x. apply (marked_enter n (opened s p d) (step p d) g' x); [by apply wf_opened|done]. }
    apply IH2; [done..| |].
    + apply Hmono1, Hme. by right.
    + apply IH1; [done..| |].
      * apply Hme. by left.
      * by apply walls_inv_go.
Qed.

End carve_walls.

(** *** The carver on the fully walled grid *)

Lemma init_wf n cs mw : 0 ≤ n → wf_walls (init n cs mw).
Proof. intros Hn. split; cbn; apply wf_mk_matrix; lia. Qed.

Lemma init_boundary n cs mw : boundary_ok (init n cs mw).
Proof.
  intros k Hk. cbn in *. split_and!; apply cell_mk_matrix; lia.
Qed.

Lemma init_no_passage n cs mw a b : ¬ passage (init n cs mw) a b.
Proof.
  intros ([Ha1 Ha2] & [Hb1 Hb2] & Hcase). cbn in *.
  destruct Hcase as [[-> Hc]|[[-> Hc]|[[-> Hc]|[-> Hc]]]]; cbn in *;
    rewrite cell_mk_matrix in Hc by lia; done.
Qed.

Lemma init_open_count n cs mw : open_count (init n cs mw) = 0%nat.
Proof.
  unfold open_count. cbn. rewrite !filter_none; [done|..].
  - intros [r c] [Hr Hc]%elem_of_positions. rewrite !elem_of_range in *. cbn in *.
    unfold is_open. cbn. rewrite cell_mk_matrix by lia. done.
  - intros [r c] [Hr Hc]%elem_of_positions. rewrite !elem_of_range in *. cbn in *.
    unfold is_open. cbn. rewrite cell_mk_matrix by lia. done.
Qed.

Lemma unmarked_mk_matrix rows cols p : ¬ marked (mk_matrix rows cols false) p.
Proof.
  intros Hm.
  assert (p ∈ filter (marked (mk_matrix rows cols false)) [p]) as Hin.
  { apply list_elem_of_filter. split; [done|]. by apply list_elem_of_singleton. }
  rewrite filter_unmarked_nil in Hin. by apply elem_of_nil in Hin.
Qed.

Lemma randint_ok n g :
  1 ≤ n → ∃ k g', randint 0 (n - 1) g = Ok (k, g') ∧ 0 ≤ k < n.
Proof.
  intros Hn. unfold randint. replace (0 <=? n - 1) with true by lia.
  replace (n - 1 - 0 + 1) with n by lia. unfold randbelow. cbn.
  eexists _, _. split; [done|]. apply Z.mod_pos_bound. lia.
Qed.

Ltac monad_simpl := cbn [mbind result_mbind result_bind mret result_mret].

Lemma bool_decide_ext_Z a b c d : (a < b ↔ c < d) → (a <? b) = (c <? d).
Proof. intros H. destruct (a <? b) eqn:?, (c <? d) eqn:?; lia. Qed.

(** The state in which the first call of [_dfs_carve] is made. *)
Definition start_state (self : MazeGenerator) (g : rng) : carve_state :=
  {| c_self := self; c_visited := mk_matrix (grid_size self) (grid_size self) false;
     c_rng := g; c_calls := [] |}.

Lemma start_state_wf self g :
  1 ≤ grid_size self → wf_walls self → wf_carve (grid_size self) (start_state self g).
Proof. intros Hn Hw. split_and!; [done..|apply wf_mk_matrix; lia]. Qed.

Lemma start_state_calls self g : calls_inv (start_state self g).
Proof.
  split; [constructor|]. intros x. split; [by intros ?%elem_of_nil|].
  intros Hm. by apply unmarked_mk_matrix in Hm.
Qed.

(** The run of the carver on a well-shaped generator of size [n >= 1]:
    the loop of the first call runs to its end, or the recursion limit is
    hit, which takes a room of less than [n * n] calls. *)
Lemma carver_run depth self g :
  1 ≤ grid_size self → wf_walls self →
  (Z.of_nat depth < grid_size self * grid_size self ∧
   generate_connected_maze_dfs depth self g = Raise RecursionError) ∨
  ∃ p g2 dirs g' s,
    in_grid (grid_size self) p ∧ shuffle directions g2 = (dirs, g') ∧
    generate_connected_maze_dfs depth self g = Ok s ∧
    carve_loop (grid_size self) p dirs (enter p (start_state self g2) g') s.
Proof.
  intros Hn Hw. unfold generate_connected_maze_dfs. set (n := grid_size self) in *.
  destruct (randint_ok n g Hn) as (r & g1 & -> & Hr). monad_simpl.
  destruct (randint_ok n g1 Hn) as (c & g2 & -> & Hc). monad_simpl.
  fold n. change {| c_self := self; c_visited := mk_matrix n n false;
                    c_rng := g2; c_calls := [] |} with (start_state self g2).
  pose proof (start_state_wf self g2 Hn Hw) as Hwf0. fold n in Hwf0.
  assert (in_grid n (r, c)) as Hstart by done.
  destruct (dfs_carve_cases n depth (r, c) (start_state self g2))
    as [Hraise|(s & dirs & g' & Hsh & Hrun & Hloop)]; [done..|apply unmarked_mk_matrix| |].
  - left. split; [|done]. destruct (decide (n * n ≤ Z.of_nat depth)) as [Hle|?]; [|lia].
    destruct (dfs_carve_adequate n Hn depth (r, c) (start_state self g2))
      as (s & _ & _ & _ & Hrun & _);
      [done|apply start_state_calls|done|apply unmarked_mk_matrix|cbn; lia|].
    cbn [fst snd] in Hraise, Hrun. congruence.
  - right. exists (r, c), g2, dirs, g', s. by split_and!.
Qed.

(** The outcome of [_generate_connected_maze_dfs] on a fresh generator. *)
Record carved (n : Z) (self0 : MazeGenerator) (s : carve_state) : Prop := {
  cv_wf : wf_carve n s;
  cv_config : same_config self0 (c_self s);
  cv_boundary : boundary_ok (c_self s);
  cv_all : ∀ x, in_grid n x → marked (c_visited s) x;
  cv_calls : c_calls s ≡ₚ all_cells n;
  cv_open : Z.of_nat (open_count (c_self s)) = n * n - 1;
  cv_connected : connected (c_self s);
}.

(** [hits_limit depth n m]: the run [m] ends in [RecursionError], with
    room for fewer than [n * n] nested calls. *)
Definition hits_limit {A} (depth : nat) (n : Z) (m : result A) : Prop :=
  Z.of_nat depth < n * n ∧ m = Raise RecursionError.

Lemma carve_spec depth n cs mw g :
  1 ≤ n →
  hits_limit depth n (generate_connected_maze_dfs depth (init n cs mw) g) ∨
  ∃ s, generate_connected_maze_dfs depth (init n cs mw) g = Ok s ∧ carved n (init n cs mw) s.
Proof.
  intros Hn.
  destruct (carver_run depth (init n cs mw) g)
    as [Hlim|(p & g2 & dirs & g' & s & Hstart & Hsh & Hrun & Hloop)];
    [done|apply init_wf; lia|by left|right].
  cbn [grid_size init] in Hstart, Hloop.
  exists s. split; [done|].
  set (s0 := start_state (init n cs mw) g2) in *.
  assert (wf_carve n s0) as Hwf0 by (apply (start_state_wf (init n cs mw)); [done|apply init_wf; lia]).
  pose proof (wf_enter n s0 p g' Hwf0) as Hwfe.
  assert (∀ x, marked (c_visited (enter p s0 g')) x ↔ x = p) as Hme.
  { intros x. rewrite (marked_enter n) by done. split; [|by left].
    intros [?|Hm]; [done|]. by apply unmarked_mk_matrix in Hm. }
  destruct (carve_loop_basic n _ _ _ _ Hloop Hwfe Hstart)
    as (Hwf & Hcfg & Hmono & Hcalls & Hbd & _).
  destruct (carve_loop_closed n _ _ _ _ Hloop Hwfe Hstart) as [Hcl Hdirs].
  destruct (carve_loop_walls n p _ _ _ _ Hloop Hwfe Hstart) as (Hpass & Hreach & Hcount).
  { by apply Hme. }
  { split_and!.
    - intros a b Hab. by apply init_no_passage in Hab.
    - intros x ->%Hme. apply rtc_refl.
    - cbn. by rewrite init_open_count. }
  assert (∀ x, in_grid n x → marked (c_visited s) x) as Hall.
  { apply (closed_all n _ p); [apply Hwf| |apply Hmono; by apply Hme].
    intros x Hx. destruct (Hcl x Hx) as [->%Hme|?]; [|done].
    intros d Hd Hin. apply Hdirs; [|done].
    change dirs with (dirs, g').1. by rewrite <- Hsh, shuffle_Permutation. }
  destruct Hcalls as [Hnd Hiff].
  { apply (calls_inv_enter n); [done..|apply unmarked_mk_matrix|apply start_state_calls]. }
  assert (c_calls s ≡ₚ all_cells n) as Hperm.
  { apply NoDup_Permutation; [done|apply NoDup_all_cells|].
    intros x. rewrite Hiff, elem_of_all_cells. split; [|by apply Hall].
    apply marked_in_grid, Hwf. }
  constructor; try done.
  - apply Hbd, init_boundary.
  - rewrite <- (length_all_cells n) by lia. rewrite <- Hperm, <- Hcount. lia.
  - destruct Hwf as (Hg & _ & _). intros a b Ha Hb. rewrite Hg in Ha, Hb.
    transitivity p; [apply reachable_sym|]; apply Hreach; by apply Hall.
Qed.

(** ** The connectivity check decides connectivity *)

Lemma reachable_in_grid self a b :
  in_grid (grid_size self) a → reachable self a b → in_grid (grid_size self) b.
Proof.
  intros Ha Hab. induction Hab as [|a b c Hab _ IH]; [done|].
  apply IH. by destruct Hab as (_ & ? & _).
Qed.

Lemma is_all_connected_decides self :
  1 ≤ grid_size self → wf_walls self →
  ∃ b, is_all_connected self = Ok b ∧ (b = true ↔ connected self).
Proof.
  intros Hn Hw. unfold is_all_connected.
  destruct (is_all_connected_fuel_spec self Hn Hw
              (Z.to_nat (grid_size self * grid_size self)))
    as (l & Hnd & Hl & ->); [lia|].
  eexists. split; [done|].
  assert (in_grid (grid_size self) (0, 0)) as Ho by (split; cbn; lia).
  assert (∀ p, p ∈ l → p ∈ all_cells (grid_size self)) as Hsub.
  { intros p Hp%Hl. apply elem_of_all_cells. by eapply reachable_in_grid. }
  rewrite Z.eqb_eq. split.
  - intros Hlen a b Ha Hb.
    assert (l ≡ₚ all_cells (grid_size self)) as Hperm.
    { apply submseteq_length_Permutation; [by apply NoDup_submseteq|].
      pose proof (length_all_cells (grid_size self)). unfold zlen in Hlen. lia. }
    transitivity (0, 0); [apply reachable_sym|]; apply Hl; rewrite Hperm;
      by apply elem_of_all_cells.
  - intros Hconn.
    assert (l ≡ₚ all_cells (grid_size self)) as Hperm.
    { apply NoDup_Permutation; [done|apply NoDup_all_cells|].
      intros p. split; [apply Hsub|].
      intros Hp%elem_of_all_cells. apply Hl. by apply Hconn. }
    unfold zlen. rewrite Hperm. apply length_all_cells. lia.
Qed.

(** ** Counting, enumerating and projecting the walls *)

(** The number of interior entries that are [True]. *)
Definition wall_count (self : MazeGenerator) : nat :=
  (length (filter (is_wall (horizontal_walls self)) (h_interior (grid_size self)))
   + length (filter (is_wall (vertical_walls self)) (v_interior (grid_size self))))%nat.

Definition h_all (n : Z) : list cell_id := positions (range 0 (n + 1)) (range 0 n).
Definition v_all (n : Z) : list cell_id := positions (range 0 n) (range 0 (n + 1)).

Lemma Forall_range a b : Forall (λ k, a ≤ k < b) (range a b).
Proof. apply Forall_forall. intros k. by rewrite elem_of_range. Qed.

Lemma Forall_range_weaken a b lo hi :
  lo ≤ a → b ≤ hi → Forall (λ k, lo ≤ k < hi) (range a b).
Proof.
  intros Ha Hb. eapply Forall_impl; [apply Forall_range|]. intros k ?. cbn in *. lia.
Qed.

Lemma count_inner_walls_ok self :
  wf_walls self → count_inner_walls self = Ok (Z.of_nat (wall_count self)).
Proof.
  intros [Hh Hv]. unfold count_inner_walls.
  rewrite (scan_ok _ _ _ _ _ _ _ Hh) by (apply Forall_range_weaken; lia).
  monad_simpl.
  rewrite (scan_ok _ _ _ _ _ _ _ Hv) by (apply Forall_range_weaken; lia).
  f_equal. rewrite !foldl_tally. unfold wall_count, h_interior, v_interior.
  by rewrite Nat2Z.inj_add, Z.add_0_l.
Qed.

Definition path_h (p : cell_id) : path := (PathH, p.1, p.2).
Definition path_v (p : cell_id) : path := (PathV, p.1, p.2).

Definition open_paths (self : MazeGenerator) : list path :=
  (path_h <$> filter (is_open (horizontal_walls self)) (h_interior (grid_size self)))
  ++ (path_v <$> filter (is_open (vertical_walls self)) (v_interior (grid_size self))).

Lemma removable_paths_ok self :
  wf_walls self → removable_paths self = Ok (open_paths self).
Proof.
  intros [Hh Hv]. unfold removable_paths.
  rewrite (scan_ok _ _ _ _ _ _ _ Hh) by (apply Forall_range_weaken; lia).
  monad_simpl.
  rewrite (scan_ok _ _ _ _ _ _ _ Hv) by (apply Forall_range_weaken; lia).
  f_equal.
  rewrite (foldl_emit_open _ (λ r c, (PathH, r, c))).
  rewrite (foldl_emit_open _ (λ r c, (PathV, r, c))).
  unfold open_paths. cbn [app]. done.
Qed.

Definition projection (self : MazeGenerator) : list wall :=
  ((λ p, horizontal_wall_at self p.1 p.2)
     <$> filter (is_wall (horizontal_walls self)) (h_all (grid_size self)))
  ++ ((λ p, vertical_wall_at self p.1 p.2)
     <$> filter (is_wall (vertical_walls self)) (v_all (grid_size self))).

Lemma convert_to_3d_walls_ok self :
  0 ≤ grid_size self → wf_walls self → convert_to_3d_walls self = Ok (projection self).
Proof.
  intros Hn [Hh Hv]. unfold convert_to_3d_walls.
  rewrite (scan_ok _ _ _ _ _ _ _ Hh) by (apply Forall_range_weaken; lia).
  monad_simpl.
  rewrite (scan_ok _ _ _ _ _ _ _ Hv) by (apply Forall_range_weaken; lia).
  f_equal.
  rewrite (foldl_emit_wall _ (horizontal_wall_at self)).
  rewrite (foldl_emit_wall _ (vertical_wall_at self)).
  unfold projection. cbn [app]. done.
Qed.

(** ** The densifier *)

Definition wall_at (self : MazeGenerator) (p : path) : bool :=
  match p with
  | (PathH, r, c) => cell (horizontal_walls self) r c
  | (PathV, r, c) => cell (vertical_walls self) r c
  end.

(** The candidate positions: everything but the boundary. *)
Definition interior (n : Z) (p : path) : Prop :=
  match p with
  | (PathH, r, c) => 1 ≤ r < n ∧ 0 ≤ c < n
  | (PathV, r, c) => 0 ≤ r < n ∧ 1 ≤ c < n
  end.

(** The generator after [set_wall]. *)
Definition put (self : MazeGenerator) (p : path) (v : bool) : MazeGenerator :=
  match p with
  | (PathH, r, c) => set_horizontal_walls self (mupd (horizontal_walls self) r c v)
  | (PathV, r, c) => set_vertical_walls self (mupd (vertical_walls self) r c v)
  end.

Lemma count_wall_mupd rows cols (m : matrix) r c (l : list cell_id) :
  wf_matrix rows cols m → 0 ≤ r < rows → 0 ≤ c < cols →
  NoDup l → (r, c) ∈ l → cell m r c = false →
  length (filter (is_wall (mupd m r c true)) l) = S (length (filter (is_wall m) l)).
Proof.
  intros Hwf Hr Hc Hnd Hin Hfalse. apply (length_filter_flip _ _ _ (r, c)); try done.
  - unfold is_wall. cbn. congruence.
  - unfold is_wall. cbn. by apply (cell_mupd_eq _ _ _ Hwf).
  - intros [i j] Hne. unfold is_wall. cbn. by rewrite cell_mupd_ne by (done || lia).
Qed.

Section put_facts.
Context (self : MazeGenerator) (p : path).
Hypothesis Hw : wf_walls self.
Hypothesis Hp : interior (grid_size self) p.

Lemma set_wall_ok v : set_wall self p v = Ok (put self p v).
Proof.
  destruct Hw as [Hh Hv], p as [[[] r] c]; cbn in *.
  - by rewrite (mset_ok _ _ _ Hh) by lia.
  - by rewrite (mset_ok _ _ _ Hv) by lia.
Qed.

Lemma put_wf v : wf_walls (put self p v).
Proof.
  destruct Hw as [Hh Hv], p as [[[] r] c]; split; cbn; auto using wf_mupd.
Qed.

Lemma put_config v : same_config self (put self p v).
Proof. destruct p as [[[] r] c]; by repeat split. Qed.

Lemma put_boundary v : boundary_ok self → boundary_ok (put self p v).
Proof.
  intros Hb k Hk. destruct (Hb k) as (H1 & H2 & H3 & H4).
  { by destruct p as [[[] r] c]. }
  destruct p as [[[] r] c]; cbn in *; split_and!; try done;
    rewrite cell_mupd_ne; try done; try lia; intros [= ]; lia.
Qed.

Lemma wall_at_put_eq v : wall_at (put self p v) p = v.
Proof.
  destruct Hw as [Hh Hv], p as [[[] r] c]; cbn in *.
  - apply (cell_mupd_eq _ _ _ Hh); lia.
  - apply (cell_mupd_eq _ _ _ Hv); lia.
Qed.

Lemma wall_at_put_ne v p' : p' ≠ p → wall_at (put self p v) p' = wall_at self p'.
Proof.
  intros Hne. destruct p as [[[] r] c], p' as [[[] r'] c']; cbn in *; try done;
    apply cell_mupd_ne; try lia; intros [= -> ->]; done.
Qed.

(** Taking the wall down again restores the generator. *)
Lemma put_restore : wall_at self p = false → put (put self p true) p false = self.
Proof.
  intros Hf. destruct Hw as [Hh Hv], self as [n cs mw wh wt hw vw], p as [[[] r] c];
    cbn in *; unfold set_horizontal_walls, set_vertical_walls; cbn; f_equal.
  - rewrite mupd_mupd, <- Hf. apply (mupd_same _ _ _ Hh); lia.
  - rewrite mupd_mupd, <- Hf. apply (mupd_same _ _ _ Hv); lia.
Qed.

Lemma wall_count_put : wall_at self p = false →
  wall_count (put self p true) = S (wall_count self).
Proof.
  intros Hf. destruct Hw as [Hh Hv]. unfold wall_count.
  destruct p as [[[] r] c]; cbn in *.
  - rewrite (count_wall_mupd _ _ _ _ _ _ Hh); [lia|lia|lia|apply NoDup_positions; apply NoDup_range| |done].
    apply elem_of_positions. rewrite !elem_of_range. cbn. lia.
  - rewrite (count_wall_mupd _ _ _ _ _ _ Hv); [lia|lia|lia|apply NoDup_positions; apply NoDup_range| |done].
    apply elem_of_positions. rewrite !elem_of_range. cbn. lia.
Qed.

End put_facts.

Lemma elem_of_open_paths self p :
  p ∈ open_paths self ↔ interior (grid_size self) p ∧ wall_at self p = false.
Proof.
  unfold open_paths. rewrite elem_of_app, !list_elem_of_fmap.
  setoid_rewrite list_elem_of_filter. unfold h_interior, v_interior.
  setoid_rewrite elem_of_positions. setoid_rewrite elem_of_range.
  unfold is_open, path_h, path_v. split.
  - intros [([r c] & -> & Ho & Hr & Hc)|([r c] & -> & Ho & Hr & Hc)]; cbn in *; done.
  - destruct p as [[[] r] c]; cbn; intros [[Hr Hc] Ho].
    + left. exists (r, c). done.
    + right. exists (r, c). done.
Qed.

Lemma NoDup_open_paths self : NoDup (open_paths self).
Proof.
  unfold open_paths. apply NoDup_app. split_and!.
  - apply NoDup_fmap_2; [by intros [] [] [= -> ->]|].
    apply NoDup_filter, NoDup_positions; apply NoDup_range.
  - intros x ([] & -> & _)%list_elem_of_fmap ([] & [=] & _)%list_elem_of_fmap.
  - apply NoDup_fmap_2; [by intros [] [] [= -> ->]|].
    apply NoDup_filter, NoDup_positions; apply NoDup_range.
Qed.

(** One candidate is atomic: the wall stays and the grid is connected, or
    the generator is what it was. *)
Lemma try_candidate_spec self p added :
  1 ≤ grid_size self → wf_walls self → interior (grid_size self) p →
  wall_at self p = false →
  ∃ self' added', try_candidate p (self, added) = Ok (self', added') ∧
    ((is_all_connected (put self p true) = Ok true ∧ self' = put self p true
      ∧ added' = added + 1 ∧ connected self')
     ∨ (is_all_connected (put self p true) = Ok false ∧ self' = self ∧ added' = added)).
Proof.
  intros Hn Hw Hp Hf. unfold try_candidate.
  rewrite set_wall_ok by done. monad_simpl.
  pose proof (put_wf self p Hw Hp true) as Hw'.
  pose proof (put_config self p Hp true) as (Hg & _).
  destruct (is_all_connected_decides (put self p true)) as (b & Hb & Hiff);
    [by rewrite <- Hg|done|].
  rewrite Hb. monad_simpl. destruct b.
  - eexists _, _. split; [done|]. left. split_and!; try done. by apply Hiff.
  - rewrite set_wall_ok by (by rewrite <- ?Hg). monad_simpl.
    rewrite put_restore by done.
    eexists _, _. split; [done|]. by right.
Qed.

(** The candidates still to be tried are distinct interior positions
    whose entries are [False]. *)
Definition candidates_ok (self : MazeGenerator) (paths : list path) : Prop :=
  NoDup paths ∧ ∀ p, p ∈ paths → interior (grid_size self) p ∧ wall_at self p = false.

(** What the loop over the candidates has done between two of its states. *)
Record densified (self : MazeGenerator) (added : Z)
    (self' : MazeGenerator) (added' : Z) : Prop := {
  dn_wf : wf_walls self';
  dn_config : same_config self self';
  dn_boundary : boundary_ok self → boundary_ok self';
  dn_connected : connected self → connected self';
  dn_added : added ≤ added';
  dn_count : Z.of_nat (wall_count self') = Z.of_nat (wall_count self) + (added' - added);
}.

Lemma densified_refl self added : wf_walls self → densified self added self added.
Proof. intros Hw. constructor; auto using same_config_refl; lia. Qed.

Lemma densified_trans self0 a0 self1 a1 self2 a2 :
  densified self0 a0 self1 a1 → densified self1 a1 self2 a2 → densified self0 a0 self2 a2.
Proof.
  intros [] []. constructor; auto; [by eapply same_config_trans|lia..].
Qed.

Lemma candidates_ok_put self p rest :
  wf_walls self → candidates_ok self (p :: rest) → candidates_ok (put self p true) rest.
Proof.
  intros Hw [[Hnotin Hnd]%NoDup_cons Hall]. split; [done|].
  destruct (Hall p) as [Hp _]; [left|].
  pose proof (put_config self p Hp true) as (Hg & _).
  intros p' Hp'. destruct (Hall p') as [Hint Hf]; [by right|].
  rewrite <- Hg. split; [done|].
  rewrite wall_at_put_ne; [done..|]. intros ->. done.
Qed.

Lemma candidates_ok_tail self p rest : candidates_ok self (p :: rest) → candidates_ok self rest.
Proof.
  intros [[Hnotin Hnd]%NoDup_cons Hall]. split; [done|].
  intros p' Hp'. apply Hall. by right.
Qed.

Lemma densify_loop_spec num paths post :
  ∀ self added, 1 ≤ grid_size self → wf_walls self →
    candidates_ok self (paths ++ post) →
    ∃ self' added', densify_loop num paths (self, added) = Ok (self', added') ∧
      densified self added self' added' ∧ added' ≤ Z.max added num ∧
      candidates_ok self' post.
Proof.
  induction paths as [|p rest IH]; intros self added Hn Hw Hcand.
  { exists self, added. split_and!; [done|by apply densified_refl|lia|done]. }
  cbn [densify_loop snd]. destruct (num <=? added) eqn:Hbreak.
  { exists self, added. split_and!; [done|by apply densified_refl|lia|].
    destruct Hcand as [Hnd Hall]. split.
    - by apply NoDup_app in Hnd as (_ & _ & ?).
    - intros p' Hp'. apply Hall. apply elem_of_app. by right. }
  cbn [app] in Hcand. destruct (proj2 Hcand p) as [Hp Hf]; [left|].
  destruct (try_candidate_spec self p added Hn Hw Hp Hf)
    as (self1 & added1 & -> & [(Hc & -> & -> & Hconn)|(Hc & -> & ->)]); monad_simpl.
  - pose proof (put_config self p Hp true) as Hcfg.
    destruct (IH (put self p true) (added + 1)) as (self' & added' & Hrun & Hd & Hle & Hpost).
    { by rewrite <- (proj1 Hcfg). }
    { by apply put_wf. }
    { by apply candidates_ok_put. }
    exists self', added'. split_and!; [done| |lia|done].
    eapply densified_trans; [|exact Hd]. constructor.
    + by apply put_wf.
    + done.
    + by apply put_boundary.
    + done.
    + lia.
    + rewrite wall_count_put by done. lia.
  - destruct (IH self added) as (self' & added' & Hrun & Hd & Hle & Hpost);
      [done..|by eapply candidates_ok_tail|].
    exists self', added'. by split_and!.
Qed.

Lemma candidates_ok_Permutation self l k : l ≡ₚ k → candidates_ok self l → candidates_ok self k.
Proof.
  intros Hperm [Hnd Hall]. split; [by rewrite <- Hperm|].
  intros p Hp. apply Hall. by rewrite Hperm.
Qed.

Lemma candidates_ok_shuffle self g :
  candidates_ok self (shuffle (open_paths self) g).1.
Proof.
  eapply candidates_ok_Permutation; [symmetry; apply shuffle_Permutation|].
  split; [apply NoDup_open_paths|]. intros p. apply elem_of_open_paths.
Qed.

Lemma add_additional_walls_spec self num g :
  1 ≤ grid_size self → wf_walls self →
  ∃ d, add_additional_walls self num g = Ok d ∧
    densified self 0 (d_self d) (d_added d) ∧ d_added d ≤ Z.max 0 num ∧
    d_warning d = (d_added d <? num).
Proof.
  intros Hn Hw. unfold add_additional_walls.
  rewrite removable_paths_ok by done. monad_simpl.
  pose proof (candidates_ok_shuffle self g) as Hcand.
  destruct (shuffle (open_paths self) g) as [paths g'] eqn:Hsh. cbn [fst] in Hcand.
  destruct (densify_loop_spec num paths [] self 0 Hn Hw) as (self' & added & -> & Hd & Hle & _).
  { by rewrite app_nil_r. }
  monad_simpl. eexists. split; [done|]. by split_and!.
Qed.

(** ** The whole pipeline *)

Record generated (n mw : Z) (s : carve_state) (o : outcome) : Prop := {
  gn_wf : wf_walls (generator o);
  gn_config : same_config (c_self s) (generator o);
  gn_boundary : boundary_ok (generator o);
  gn_connected : connected (generator o);
  gn_walls : walls o = projection (generator o);
  gn_count_lower : (wall_count (c_self s) ≤ wall_count (generator o))%nat;
  gn_count_upper :
    Z.of_nat (wall_count (generator o)) ≤ Z.max (Z.of_nat (wall_count (c_self s))) mw;
  gn_added :
    added_walls o =
      if Z.of_nat (wall_count (c_self s)) <? mw
      then Some (Z.of_nat (wall_count (generator o)) - Z.of_nat (wall_count (c_self s)))
      else None;
  gn_warning : warning o = (Z.of_nat (wall_count (generator o)) <? mw);
  gn_same : added_walls o = None → generator o = c_self s;
}.

(** A carver that hits the recursion limit ends [generate_maze] and
    [main]: the exception is not caught. *)
Lemma generate_maze_hits_limit depth n self g :
  hits_limit depth n (generate_connected_maze_dfs depth self g) →
  hits_limit depth n (generate_maze depth self g).
Proof. intros [Hlt Hr]. split; [done|]. unfold generate_maze. by rewrite Hr. Qed.

Lemma generate_maze_spec depth n cs mw g :
  1 ≤ n →
  (hits_limit depth n (generate_connected_maze_dfs depth (init n cs mw) g) ∧
   hits_limit depth n (generate_maze depth (init n cs mw) g)) ∨
  ∃ s o, generate_connected_maze_dfs depth (init n cs mw) g = Ok s ∧
    carved n (init n cs mw) s ∧
    generate_maze depth (init n cs mw) g = Ok o ∧ generated n mw s o.
Proof.
  intros Hn. destruct (carve_spec depth n cs mw g Hn) as [Hlim|(s & Hcarve & Hs)].
  { left. split; [done|]. by apply generate_maze_hits_limit. }
  right. exists s. unfold generate_maze. rewrite Hcarve. monad_simpl.
  pose proof Hs as [(Hg & Hw & Hv) Hcfg Hbd Hall Hcalls Hopen Hconn].
  rewrite count_inner_walls_ok by done. monad_simpl.
  assert (min_walls (c_self s) = mw) as Hmw by (by destruct Hcfg as (_ & _ & <- & _)).
  rewrite Hmw.
  destruct (Z.of_nat (wall_count (c_self s)) <? mw) eqn:Hlt.
  - destruct (add_additional_walls_spec (c_self s) (mw - Z.of_nat (wall_count (c_self s)))
                (c_rng s)) as (d & -> & Hd & Hle & Hwarn); [lia|done|].
    monad_simpl. destruct Hd as [Hw' Hcfg' Hbd' Hconn' Hadd Hcount].
    rewrite convert_to_3d_walls_ok; [|by rewrite <- (proj1 Hcfg'); lia|done].
    monad_simpl. eexists. split_and!; [done..|].
    constructor; cbn; auto; try lia.
    + rewrite Hlt. f_equal. lia.
    + rewrite Hwarn. apply bool_decide_ext_Z. lia.
    + done.
  - rewrite convert_to_3d_walls_ok; [|lia|done].
    monad_simpl. eexists. split_and!; [done..|].
    constructor; cbn; auto using same_config_refl; try lia.
    by rewrite Hlt.
Qed.

(** ** Wall counts *)

Lemma length_filter_wall_open (m : matrix) (l : list cell_id) :
  (length (filter (is_wall m) l) + length (filter (is_open m) l))%nat = length l.
Proof.
  induction l as [|p l IH]; [done|]. rewrite !filter_cons.
  destruct (decide (is_wall m p)) as [Hw|Hw], (decide (is_open m p)) as [Ho|Ho];
    unfold is_wall, is_open in *; cbn [length].
  - congruence.
  - lia.
  - lia.
  - by destruct (cell m p.1 p.2).
Qed.

(** Of the [2 n (n - 1)] interior entries, those that are not open are walls. *)
Lemma wall_open_total self :
  1 ≤ grid_size self →
  Z.of_nat (wall_count self) + Z.of_nat (open_count self)
  = 2 * grid_size self * (grid_size self - 1).
Proof.
  intros Hn. unfold wall_count, open_count.
  pose proof (length_filter_wall_open (horizontal_walls self) (h_interior (grid_size self))) as Hh.
  pose proof (length_filter_wall_open (vertical_walls self) (v_interior (grid_size self))) as Hv.
  unfold h_interior, v_interior in *. rewrite length_positions, !length_range in Hh, Hv.
  nia.
Qed.

Lemma filter_all {A} (P : A → Prop) `{∀ x, Decision (P x)} (l : list A) :
  (∀ x, x ∈ l → P x) → filter P l = l.
Proof.
  induction l as [|a l IH]; intros Hall; [done|].
  rewrite filter_cons_True by (apply Hall; left).
  f_equal. apply IH. intros x Hx. apply Hall. by right.
Qed.

(** The first and the last column of every row hold walls: two more per row. *)
Lemma length_filter_positions_cols (P : cell_id → Prop) `{∀ x, Decision (P x)}
    (rows mid : list Z) (first last : Z) :
  (∀ r, r ∈ rows → P (r, first) ∧ P (r, last)) →
  length (filter P (positions rows (first :: mid ++ [last])))
  = (length (filter P (positions rows mid)) + 2 * length rows)%nat.
Proof.
  induction rows as [|r rows IH]; intros Hb; [done|].
  cbn [positions]. rewrite !filter_app, !length_app, IH by (intros; apply Hb; by right).
  destruct (Hb r) as [Hf Hl]; [left|].
  cbn [fmap list_fmap]. rewrite filter_cons_True by done.
  cbn [length]. rewrite fmap_app, filter_app, length_app. cbn [fmap list_fmap].
  rewrite (filter_cons_True _ _ _ Hl). cbn [length filter list_filter]. lia.
Qed.

(** With the boundary in place the projection has [4 n] descriptors more
    than there are interior walls. *)
Lemma length_projection self :
  1 ≤ grid_size self → boundary_ok self →
  Z.of_nat (length (projection self)) = 4 * grid_size self + Z.of_nat (wall_count self).
Proof.
  intros Hn Hb. unfold projection, wall_count.
  rewrite length_app, !length_fmap.
  set (n := grid_size self) in *.
  assert (length (filter (is_wall (horizontal_walls self)) (h_all n))
          = (length (filter (is_wall (horizontal_walls self)) (h_interior n))
             + 2 * Z.to_nat n)%nat) as ->.
  { unfold h_all, h_interior.
    rewrite (range_app 0 1 (n + 1)), (range_app 1 n (n + 1)) by lia.
    rewrite !positions_app, !filter_app, !length_app.
    rewrite (range_singleton 0 : range 0 1 = [0]), range_singleton. cbn [positions].
    rewrite !app_nil_r.
    rewrite (filter_all _ (pair 0 <$> range 0 n)), (filter_all _ (pair n <$> range 0 n)),
      !length_fmap, !length_range; [lia|..].
    - intros p (c & -> & Hc%elem_of_range)%list_elem_of_fmap. by apply Hb.
    - intros p (c & -> & Hc%elem_of_range)%list_elem_of_fmap. by apply Hb. }
  assert (length (filter (is_wall (vertical_walls self)) (v_all n))
          = (length (filter (is_wall (vertical_walls self)) (v_interior n))
             + 2 * Z.to_nat n)%nat) as ->.
  { unfold v_all, v_interior.
    rewrite (range_app 0 1 (n + 1)), (range_app 1 n (n + 1)) by lia.
    rewrite (range_singleton 0 : range 0 1 = [0]), range_singleton. cbn [app].
    rewrite length_filter_positions_cols, length_range; [lia|].
    intros r Hr%elem_of_range. split; by apply Hb. }
  lia.
Qed.

(** ** Row-major order *)

Definition lex_lt (p q : cell_id) : Prop := p.1 < q.1 ∨ (p.1 = q.1 ∧ p.2 < q.2).

(** A list of positions in strictly increasing (row, column) order. *)
Definition row_major (l : list cell_id) : Prop := StronglySorted lex_lt l.

Lemma StronglySorted_seqZ (k : nat) a : StronglySorted Z.lt (seqZ a (Z.of_nat k)).
Proof.
  revert a. induction k as [|k IH]; intros a.
  - rewrite seqZ_nil by lia. constructor.
  - rewrite seqZ_cons by lia. replace (Z.pred (Z.of_nat (S k))) with (Z.of_nat k) by lia.
    constructor; [apply IH|].
    apply Forall_forall. intros x Hx%elem_of_seqZ. lia.
Qed.

Lemma StronglySorted_range a b : StronglySorted Z.lt (range a b).
Proof.
  unfold range. destruct (decide (0 ≤ b - a)).
  - rewrite <- (Z2Nat.id (b - a)) by done. apply StronglySorted_seqZ.
  - rewrite seqZ_nil by lia. constructor.
Qed.

Lemma row_major_positions rows cols :
  StronglySorted Z.lt rows → StronglySorted Z.lt cols → row_major (positions rows cols).
Proof.
  intros Hrows Hcols. unfold row_major.
  induction Hrows as [|r rows Hrows IH Hr]; cbn [positions]; [constructor|].
  apply StronglySorted_app. split_and!.
  - intros p q (c & -> & _)%list_elem_of_fmap [Hq _]%elem_of_positions.
    left. cbn. rewrite Forall_forall in Hr. by apply Hr.
  - apply (StronglySorted_fmap _ Z.lt); [|done]. intros x y Hxy. right. by cbn.
  - done.
Qed.

Lemma row_major_filter (P : cell_id → Prop) `{∀ x, Decision (P x)} l :
  row_major l → row_major (filter P l).
Proof.
  unfold row_major. induction 1 as [|p l Hl IH Hp]; [constructor|].
  rewrite filter_cons. destruct (decide (P p)); [|done].
  constructor; [done|]. apply Forall_forall. intros q [_ Hq]%list_elem_of_filter.
  rewrite Forall_forall in Hp. by apply Hp.
Qed.

(** ** States between two candidates of the densifier *)

Lemma densify_prefix self num paths g pre p post st :
  1 ≤ grid_size self → wf_walls self →
  removable_paths self = Ok paths → (shuffle paths g).1 = pre ++ p :: post →
  densify_loop num pre (self, 0) = Ok st →
  densified self 0 st.1 st.2 ∧ interior (grid_size st.1) p ∧ wall_at st.1 p = false.
Proof.
  intros Hn Hw Hpaths Hsplit Hrun.
  rewrite removable_paths_ok in Hpaths by done. injection Hpaths as <-.
  pose proof (candidates_ok_shuffle self g) as Hcand. rewrite Hsplit in Hcand.
  destruct (densify_loop_spec num pre (p :: post) self 0 Hn Hw Hcand)
    as (self' & added' & Hrun' & Hd & _ & Hpost).
  rewrite Hrun in Hrun'. injection Hrun' as ->. cbn [fst snd].
  split; [done|]. apply Hpost. left.
Qed.

(** ** What the connectivity check reads *)

Definition same_walls (a b : MazeGenerator) : Prop :=
  grid_size a = grid_size b ∧
  horizontal_walls a = horizontal_walls b ∧
  vertical_walls a = vertical_walls b.

Lemma bfs_step_same_walls a b r c st : same_walls a b → bfs_step a r c st = bfs_step b r c st.
Proof. intros (Hg & Hh & Hv). unfold bfs_step. by rewrite Hg, Hh, Hv. Qed.

Lemma bfs_loop_same_walls a b fuel st : same_walls a b → bfs_loop fuel a st = bfs_loop fuel b st.
Proof.
  intros Hs. revert st. induction fuel as [|fuel IH]; intros st.
  - done.
  - cbn [bfs_loop]. destruct (b_queue st) as [|[r c] q]; [done|].
    rewrite (bfs_step_same_walls a b) by done.
    destruct (bfs_step b r c _) as [st'| |]; cbn; [apply IH|done..].
Qed.

Lemma is_all_connected_same_walls a b :
  same_walls a b → is_all_connected a = is_all_connected b.
Proof.
  intros Hs. pose proof Hs as (Hg & _). unfold is_all_connected, is_all_connected_fuel.
  rewrite Hg. destruct (mset _ 0 0 true) as [v| |]; cbn; [|done..].
  by rewrite (bfs_loop_same_walls a b).
Qed.

(** ** Connectivity across the densifier *)

(** After any number of candidates, and after the next one, the grid is
    connected: in particular after every accepted addition. *)
Definition connected_after_every_candidate (self : MazeGenerator) : Prop :=
  ∀ num g paths pre p post st,
    removable_paths self = Ok paths →
    (shuffle paths g).1 = pre ++ p :: post →
    densify_loop num pre (self, 0) = Ok st →
    connected st.1 ∧ ∃ st', try_candidate p st = Ok st' ∧ connected st'.1.

Lemma densifier_keeps_connected self :
  1 ≤ grid_size self → wf_walls self → connected self →
  connected_after_every_candidate self.
Proof.
  intros Hn Hw Hconn num g paths pre p post [self1 added1] Hpaths Hsplit Hrun.
  destruct (densify_prefix self num paths g pre p post _ Hn Hw Hpaths Hsplit Hrun)
    as ([Hw1 Hcfg1 _ Hconn1 _ _] & Hp & Hf).
  cbn [fst snd] in *. specialize (Hconn1 Hconn). split; [done|].
  destruct (try_candidate_spec self1 p added1) as (self2 & added2 & -> & Hcase);
    [by rewrite <- (proj1 Hcfg1)|done..|].
  eexists. split; [done|]. cbn.
  by destruct Hcase as [(_ & _ & _ & ?)|(_ & -> & _)].
Qed.

Lemma filter_ext_in {A} (P Q : A → Prop) `{∀ x, Decision (P x)} `{∀ x, Decision (Q x)}
    (l : list A) :
  (∀ x, x ∈ l → (P x ↔ Q x)) → filter P l = filter Q l.
Proof.
  induction l as [|a l IH]; intros Hext; [done|].
  rewrite !filter_cons.
  assert (P a ↔ Q a) as Ha by (apply Hext; left).
  rewrite IH by (intros x Hx; apply Hext; by right).
  destruct (decide (P a)), (decide (Q a)); tauto.
Qed.

(** ** Sample inputs *)

(** A random source that replays a list and then yields zeros. *)
Definition rng_of_list (l : list nat) : rng :=
  {| tape := λ i, nth i l 0%nat; cursor := 0 |}.

(** A [2 x 2] grid with its four interior walls removed. *)
Definition open_grid2 : MazeGenerator :=
  {| grid_size := 2; cell_size := 1%float; min_walls := 3;
     wall_height := 0.5%float; wall_thickness := 0x1.999999999999ap-5%float;
     horizontal_walls := [[true; true]; [false; false]; [true; true]];
     vertical_walls := [[true; false; true]; [true; false; true]] |}.

Lemma open_grid2_wf : wf_walls open_grid2.
Proof. split; (split; [reflexivity|repeat constructor]). Qed.

(** * The properties of the specification *)

(** C1. Invariant I2 holds from the end of carving on. For every grid
    size [n >= 1], cell size, wall target, random source and recursion
    room: unless the carver hits the recursion limit, which takes a room
    of less than [n * n] nested calls and ends the run with
    [RecursionError], the carver returns and leaves, on the [n x n] grid
    with its well-shaped matrices, every cell reachable from every other
    cell through open interior walls; whatever the densifier is then asked
    to add and however its candidates are shuffled, the grid is connected
    before and after each candidate it processes, hence after every
    accepted addition; and the generator whose walls are projected is the
    [n x n] grid, well-shaped and connected. *)
Theorem connectivity_invariant depth n cs mw g :
  1 ≤ n →
  (hits_limit depth n (generate_connected_maze_dfs depth (init n cs mw) g) ∧
   hits_limit depth n (generate_maze depth (init n cs mw) g)) ∨
  ∃ s o,
    generate_connected_maze_dfs depth (init n cs mw) g = Ok s ∧
    grid_size (c_self s) = n ∧ wf_walls (c_self s) ∧
    connected (c_self s) ∧
    connected_after_every_candidate (c_self s) ∧
    generate_maze depth (init n cs mw) g = Ok o ∧
    grid_size (generator o) = n ∧ wf_walls (generator o) ∧
    connected (generator o) ∧
    convert_to_3d_walls (generator o) = Ok (walls o).
Proof.
  intros Hn.
  destruct (generate_maze_spec depth n cs mw g Hn)
    as [Hlim|(s & o & Hcarve & Hs & Hgen & Ho)]; [by left|right].
  exists s, o. destruct Hs as [(Hg & Hw & _) _ _ _ _ _ Hconn].
  assert (grid_size (generator o) = n) as Hgo.
  { by rewrite <- (proj1 (gn_config _ _ _ _ Ho)). }
  split_and!; try done.
  - apply densifier_keeps_connected; [lia|done..].
  - apply (gn_wf _ _ _ _ Ho).
  - apply (gn_connected _ _ _ _ Ho).
  - rewrite (gn_walls _ _ _ _ Ho). apply convert_to_3d_walls_ok; [lia|apply (gn_wf _ _ _ _ Ho)].
Qed.

Lemma connectivity_invariant_witness :
  1 ≤ 3 ∧
  ∃ s o,
    generate_connected_maze_dfs 9 (init 3 1 4) (rng_of_list [5; 1; 2; 0; 3]%nat) = Ok s ∧
    grid_size (c_self s) = 3 ∧ wf_walls (c_self s) ∧
    connected (c_self s) ∧
    connected_after_every_candidate (c_self s) ∧
    generate_maze 9 (init 3 1 4) (rng_of_list [5; 1; 2; 0; 3]%nat) = Ok o ∧
    grid_size (generator o) = 3 ∧ wf_walls (generator o) ∧
    connected (generator o) ∧
    convert_to_3d_walls (generator o) = Ok (walls o).
Proof.
  split; [lia|].
  destruct (connectivity_invariant 9 3 1 4 (rng_of_list [5; 1; 2; 0; 3]%nat))
    as [[[Hlt _] _]|Hrun]; [lia|cbn in Hlt; lia|exact Hrun].
Defined.

(** C2. On the fully walled grid of every size [n >= 1], for every
    random source and recursion room: unless the carver hits the recursion
    limit, which takes a room of less than [n * n] nested calls and ends
    it with [RecursionError], the carver returns; the interior entries
    that are then [False] (the list that [_add_additional_walls]
    enumerates) are exactly [n * n - 1], so [(n - 1) * (n - 1)] interior
    walls remain; the cells on which [_dfs_carve] was entered are, without
    repetition, all the cells of the grid, and every cell is marked
    visited; and the connectivity check answers [True]. *)
Theorem carver_spanning_tree depth n cs mw g :
  1 ≤ n →
  hits_limit depth n (generate_connected_maze_dfs depth (init n cs mw) g) ∨
  ∃ s paths,
    generate_connected_maze_dfs depth (init n cs mw) g = Ok s ∧
    grid_size (c_self s) = n ∧ wf_walls (c_self s) ∧
    removable_paths (c_self s) = Ok paths ∧
    zlen paths = n * n - 1 ∧
    count_inner_walls (c_self s) = Ok ((n - 1) * (n - 1)) ∧
    NoDup (c_calls s) ∧
    (∀ x, x ∈ c_calls s ↔ in_grid n x) ∧
    (∀ x, in_grid n x → mget (c_visited s) x.1 x.2 = Ok true) ∧
    is_all_connected (c_self s) = Ok true.
Proof.
  intros Hn.
  destruct (carve_spec depth n cs mw g Hn) as [Hlim|(s & Hcarve & Hs)]; [by left|right].
  destruct Hs as [(Hg & Hw & Hv) _ _ Hall Hcalls Hopen Hconn].
  exists s, (open_paths (c_self s)). split_and!.
  - done.
  - done.
  - done.
  - by apply removable_paths_ok.
  - rewrite <- Hopen. unfold zlen, open_paths, open_count.
    by rewrite length_app, !length_fmap.
  - rewrite count_inner_walls_ok by done. f_equal.
    pose proof (wall_open_total (c_self s)) as Htot. rewrite Hg in Htot. lia.
  - rewrite Hcalls. apply NoDup_all_cells.
  - intros x. rewrite Hcalls. apply elem_of_all_cells.
  - intros x Hx. rewrite (mget_ok _ _ _ Hv) by apply Hx. f_equal. by apply Hall.
  - destruct (is_all_connected_decides (c_self s)) as (b & -> & Hb); [lia|done|].
    f_equal. by apply Hb.
Qed.

Lemma carver_spanning_tree_witness :
  1 ≤ 4 ∧
  ∃ s paths,
    generate_connected_maze_dfs 16 (init 4 1 0) (rng_of_list [7; 2; 9; 4; 1; 1; 3]%nat) = Ok s ∧
    grid_size (c_self s) = 4 ∧ wf_walls (c_self s) ∧
    removable_paths (c_self s) = Ok paths ∧
    zlen paths = 4 * 4 - 1 ∧
    count_inner_walls (c_self s) = Ok ((4 - 1) * (4 - 1)) ∧
    NoDup (c_calls s) ∧
    (∀ x, x ∈ c_calls s ↔ in_grid 4 x) ∧
    (∀ x, in_grid 4 x → mget (c_visited s) x.1 x.2 = Ok true) ∧
    is_all_connected (c_self s) = Ok true.
Proof.
  split; [lia|].
  destruct (carver_spanning_tree 16 4 1 0 (rng_of_list [7; 2; 9; 4; 1; 1; 3]%nat))
    as [[Hlt _]|Hrun]; [lia|cbn in Hlt; lia|exact Hrun].
Defined.

(** The distinct cells reachable from cell [(0, 0)] across absent walls,
    listed without repetition. *)
Definition reachable_cells (self : MazeGenerator) (l : list cell_id) : Prop :=
  NoDup l ∧ ∀ p, p ∈ l ↔ reachable self (0, 0) p.

(** C3. On every grid of size [n >= 1] whose wall matrices have the
    shapes [(n+1) x n] and [n x (n+1)], the connectivity check returns
    (it raises nothing and needs no more than its [n * n] iterations),
    and its answer is [True] exactly when the number of distinct cells
    reachable from [(0, 0)] is [n * n]. The check has no result but this
    boolean: it assigns to no attribute of the generator, and its answer
    depends only on the grid size and the two wall matrices, so asking
    again on the same state gives the same answer. *)
Theorem connectivity_check_spec self :
  1 ≤ grid_size self → wf_walls self →
  (∃ l, reachable_cells self l) ∧
  (∀ l, reachable_cells self l →
     is_all_connected self = Ok (zlen l =? grid_size self * grid_size self)) ∧
  (∀ fuel, grid_size self * grid_size self ≤ Z.of_nat fuel →
     is_all_connected_fuel fuel self = is_all_connected self) ∧
  (∀ self', same_walls self' self → is_all_connected self' = is_all_connected self).
Proof.
  intros Hn Hw.
  assert (∀ fuel, grid_size self * grid_size self ≤ Z.of_nat fuel →
            ∀ l, reachable_cells self l →
              is_all_connected_fuel fuel self
              = Ok (zlen l =? grid_size self * grid_size self)) as Hfuel.
  { intros fuel Hf l [Hnd Hl].
    destruct (is_all_connected_fuel_spec self Hn Hw fuel Hf) as (l0 & Hnd0 & Hl0 & ->).
    do 2 f_equal. unfold zlen. f_equal. apply Permutation_length.
    apply NoDup_Permutation; [done..|]. intros p. by rewrite Hl, Hl0. }
  split_and!.
  - destruct (is_all_connected_fuel_spec self Hn Hw
                (Z.to_nat (grid_size self * grid_size self))) as (l & Hnd & Hl & _); [lia|].
    by exists l.
  - intros l Hl. apply Hfuel; [lia|done].
  - intros fuel Hf.
    destruct (is_all_connected_fuel_spec self Hn Hw fuel Hf) as (l & Hnd & Hl & _).
    rewrite (Hfuel fuel Hf l) by done. symmetry. apply Hfuel; [lia|done].
  - intros self'. apply is_all_connected_same_walls.
Qed.

Lemma connectivity_check_spec_witness :
  1 ≤ grid_size open_grid2 ∧ wf_walls open_grid2 ∧
  (∃ l, reachable_cells open_grid2 l) ∧
  (∀ l, reachable_cells open_grid2 l →
     is_all_connected open_grid2 = Ok (zlen l =? grid_size open_grid2 * grid_size open_grid2)) ∧
  (∀ fuel, grid_size open_grid2 * grid_size open_grid2 ≤ Z.of_nat fuel →
     is_all_connected_fuel fuel open_grid2 = is_all_connected open_grid2) ∧
  (∀ self', same_walls self' open_grid2 → is_all_connected self' = is_all_connected open_grid2).
Proof.
  split; [cbn; lia|]. split; [apply open_grid2_wf|].
  apply (connectivity_check_spec open_grid2); [cbn; lia|apply open_grid2_wf].
Defined.

(** C4. Invariant I1. For every grid size [n >= 1] the boundary entries
    (rows [0] and [n] of the horizontal matrix, columns [0] and [n] of the
    vertical one) are [True] in the constructed generator and, unless the
    carver hits the recursion limit (which takes a room of less than
    [n * n] nested calls and ends the run with [RecursionError]), in the
    [n x n] generator after carving and in the one whose walls are
    projected. No single write touches them: the wall removal of the
    carver, under the bounds test that guards it, and the wall assignment
    of the densifier, on an interior candidate, both keep the boundary;
    the projection returns a list and assigns nothing. *)
Theorem boundary_immutable depth n cs mw g :
  1 ≤ n →
  boundary_ok (init n cs mw) ∧
  ((hits_limit depth n (generate_connected_maze_dfs depth (init n cs mw) g) ∧
    hits_limit depth n (generate_maze depth (init n cs mw) g)) ∨
   (∃ s o,
     generate_connected_maze_dfs depth (init n cs mw) g = Ok s ∧
     grid_size (c_self s) = n ∧ wf_walls (c_self s) ∧ boundary_ok (c_self s) ∧
     generate_maze depth (init n cs mw) g = Ok o ∧
     grid_size (generator o) = n ∧ wf_walls (generator o) ∧ boundary_ok (generator o))) ∧
  (∀ self p d self',
     wf_walls self → boundary_ok self →
     in_grid (grid_size self) p → in_grid (grid_size self) (step p d) → d ∈ directions →
     remove_wall self p.1 p.2 d.1 d.2 = Ok self' → boundary_ok self') ∧
  (∀ self p v self',
     wf_walls self → boundary_ok self → interior (grid_size self) p →
     set_wall self p v = Ok self' → boundary_ok self').
Proof.
  intros Hn. split_and!.
  - apply init_boundary.
  - destruct (generate_maze_spec depth n cs mw g Hn)
      as [Hlim|(s & o & Hcarve & Hs & Hgen & Ho)]; [by left|right].
    destruct (cv_wf _ _ _ Hs) as (Hg & Hw & _).
    exists s, o. split_and!; [done..|apply (cv_boundary _ _ _ Hs)|done| | |].
    + by rewrite <- (proj1 (gn_config _ _ _ _ Ho)).
    + apply (gn_wf _ _ _ _ Ho).
    + apply (gn_boundary _ _ _ _ Ho).
  - intros self p d self' Hw Hb Hp Hq Hd Hrm.
    rewrite remove_wall_ok in Hrm by done. injection Hrm as <-.
    by apply open_wall_boundary.
  - intros self p v self' Hw Hb Hp Hset.
    rewrite set_wall_ok in Hset by done. injection Hset as <-.
    by apply put_boundary.
Qed.

Lemma boundary_immutable_witness :
  1 ≤ 3 ∧
  boundary_ok (init 3 1 6) ∧
  (∃ s o,
     generate_connected_maze_dfs 9 (init 3 1 6) (rng_of_list [2; 8; 1; 1; 0; 5]%nat) = Ok s ∧
     grid_size (c_self s) = 3 ∧ wf_walls (c_self s) ∧ boundary_ok (c_self s) ∧
     generate_maze 9 (init 3 1 6) (rng_of_list [2; 8; 1; 1; 0; 5]%nat) = Ok o ∧
     grid_size (generator o) = 3 ∧ wf_walls (generator o) ∧ boundary_ok (generator o)) ∧
  (∀ self p d self',
     wf_walls self → boundary_ok self →
     in_grid (grid_size self) p → in_grid (grid_size self) (step p d) → d ∈ directions →
     remove_wall self p.1 p.2 d.1 d.2 = Ok self' → boundary_ok self') ∧
  (∀ self p v self',
     wf_walls self → boundary_ok self → interior (grid_size self) p →
     set_wall self p v = Ok self' → boundary_ok self').
Proof.
  split; [lia|].
  destruct (boundary_immutable 9 3 1 6 (rng_of_list [2; 8; 1; 1; 0; 5]%nat))
    as (Hinit & [[[Hlt _] _]|Hrun] & Hrm & Hset); [lia|cbn in Hlt; lia|].
  exact (conj Hinit (conj Hrun (conj Hrm Hset))).
Defined.

(** C5. Each candidate of the densifier is atomic. Let the candidates be
    the shuffled list of removable paths of a generator of size [n >= 1]
    with well-shaped matrices, and let [st] be the state of the loop when
    it reaches the candidate [p]. Processing [p] returns, and afterwards
    either the entry of [p] is [True], the grid is fully connected (the
    check answers [True]) and the count of added walls is one higher, or
    the entry of [p] is [False], the generator is exactly what it was
    before [p] was tried and the count is unchanged. *)
Theorem candidate_atomic self num g paths pre p post st :
  1 ≤ grid_size self → wf_walls self →
  removable_paths self = Ok paths →
  (shuffle paths g).1 = pre ++ p :: post →
  densify_loop num pre (self, 0) = Ok st →
  ∃ st', try_candidate p st = Ok st' ∧
    ((wall_at st'.1 p = true ∧ is_all_connected st'.1 = Ok true ∧ connected st'.1
      ∧ st'.2 = st.2 + 1)
     ∨ (wall_at st'.1 p = false ∧ st'.1 = st.1 ∧ st'.2 = st.2)).
Proof.
  intros Hn Hw Hpaths Hsplit Hrun. destruct st as [self1 added1].
  destruct (densify_prefix self num paths g pre p post _ Hn Hw Hpaths Hsplit Hrun)
    as ([Hw1 Hcfg1 _ _ _ _] & Hp & Hf).
  cbn [fst snd] in *.
  destruct (try_candidate_spec self1 p added1) as (self2 & added2 & -> & Hcase);
    [by rewrite <- (proj1 Hcfg1)|done..|].
  eexists. split; [done|]. cbn [fst snd].
  destruct Hcase as [(Hc & -> & -> & Hconn)|(_ & -> & ->)].
  - left. split_and!; try done. by apply wall_at_put_eq.
  - by right.
Qed.

Lemma candidate_atomic_witness :
  1 ≤ grid_size open_grid2 ∧ wf_walls open_grid2 ∧
  removable_paths open_grid2
    = Ok [(PathH, 1, 0); (PathH, 1, 1); (PathV, 0, 1); (PathV, 1, 1)] ∧
  (shuffle [(PathH, 1, 0); (PathH, 1, 1); (PathV, 0, 1); (PathV, 1, 1)]
     (rng_of_list [2; 0; 1]%nat)).1
    = [(PathV, 1, 1)] ++ (PathH, 1, 1) :: [(PathH, 1, 0); (PathV, 0, 1)] ∧
  densify_loop 3 [(PathV, 1, 1)] (open_grid2, 0) = Ok (put open_grid2 (PathV, 1, 1) true, 1) ∧
  ∃ st', try_candidate (PathH, 1, 1) (put open_grid2 (PathV, 1, 1) true, 1) = Ok st' ∧
    ((wall_at st'.1 (PathH, 1, 1) = true ∧ is_all_connected st'.1 = Ok true ∧ connected st'.1
      ∧ st'.2 = (put open_grid2 (PathV, 1, 1) true, 1).2 + 1)
     ∨ (wall_at st'.1 (PathH, 1, 1) = false
        ∧ st'.1 = (put open_grid2 (PathV, 1, 1) true, 1).1
        ∧ st'.2 = (put open_grid2 (PathV, 1, 1) true, 1).2)).
Proof.
  split; [cbn; lia|]. split; [apply open_grid2_wf|].
  split; [reflexivity|]. split; [reflexivity|]. split; [reflexivity|].
  apply (candidate_atomic open_grid2 3 (rng_of_list [2; 0; 1]%nat)
           [(PathH, 1, 0); (PathH, 1, 1); (PathV, 0, 1); (PathV, 1, 1)]
           [(PathV, 1, 1)] (PathH, 1, 1) [(PathH, 1, 0); (PathV, 0, 1)]);
    [cbn; lia|apply open_grid2_wf|reflexivity..].
Defined.

(** C6, as stated, fails: the final interior wall count is not bounded by
    [min_walls]. On the [2 x 2] grid with [min_walls = 0] one interior wall
    is left after carving; the densifier is not called and no warning is
    printed, yet the final count [1] exceeds [min_walls]. (The recursion
    room of 900 calls is within the interpreter's default limit.) *)
Lemma densification_upper_bound_fails :
  ∃ o, generate_maze 900 (init 2 1 0) (rng_of_list []) = Ok o ∧
    added_walls o = None ∧ warning o = false ∧
    count_inner_walls (generator o) = Ok 1 ∧
    ¬ (1 ≤ min_walls (generator o)).
Proof.
  eexists. split; [vm_compute; reflexivity|]. cbn. split_and!; try reflexivity. lia.
Qed.

(** C6, amended. For every grid size [n >= 1], every [min_walls], every
    random source and recursion room: unless the carver hits the recursion
    limit (which takes a room of less than [n * n] nested calls and ends
    the run with [RecursionError]), the interior wall count of the
    [n x n] generator after the whole pipeline is at least the count right
    after carving and at most the larger of that count and [min_walls] (so
    at most [min_walls] whenever the carved maze does not already exceed
    it); the warning is printed exactly when the final count is below
    [min_walls]; the densifier keeps the grid connected across every
    candidate, and the final grid is connected. *)
Theorem densification_bounds depth n cs mw g :
  1 ≤ n →
  (hits_limit depth n (generate_connected_maze_dfs depth (init n cs mw) g) ∧
   hits_limit depth n (generate_maze depth (init n cs mw) g)) ∨
  ∃ s o k0 k,
    generate_connected_maze_dfs depth (init n cs mw) g = Ok s ∧
    grid_size (c_self s) = n ∧ wf_walls (c_self s) ∧
    count_inner_walls (c_self s) = Ok k0 ∧
    generate_maze depth (init n cs mw) g = Ok o ∧
    grid_size (generator o) = n ∧ wf_walls (generator o) ∧
    count_inner_walls (generator o) = Ok k ∧
    k0 ≤ k ∧ k ≤ Z.max k0 mw ∧
    (warning o = true ↔ k < mw) ∧
    connected_after_every_candidate (c_self s) ∧
    connected (generator o).
Proof.
  intros Hn.
  destruct (generate_maze_spec depth n cs mw g Hn)
    as [Hlim|(s & o & Hcarve & Hs & Hgen & Ho)]; [by left|right].
  exists s, o, (Z.of_nat (wall_count (c_self s))), (Z.of_nat (wall_count (generator o))).
  destruct Hs as [(Hg & Hw & _) _ _ _ _ _ Hconn].
  destruct Ho as [Hw' Hcfg' _ Hconn' _ Hlo Hup _ Hwarn _].
  split_and!; try done.
  - by apply count_inner_walls_ok.
  - by rewrite <- (proj1 Hcfg').
  - by apply count_inner_walls_ok.
  - lia.
  - rewrite Hwarn. apply Z.ltb_lt.
  - apply densifier_keeps_connected; [lia|done..].
Qed.

Lemma densification_bounds_witness :
  1 ≤ 3 ∧
  ∃ s o k0 k,
    generate_connected_maze_dfs 9 (init 3 1 7) (rng_of_list [4; 4; 1; 0; 2]%nat) = Ok s ∧
    grid_size (c_self s) = 3 ∧ wf_walls (c_self s) ∧
    count_inner_walls (c_self s) = Ok k0 ∧
    generate_maze 9 (init 3 1 7) (rng_of_list [4; 4; 1; 0; 2]%nat) = Ok o ∧
    grid_size (generator o) = 3 ∧ wf_walls (generator o) ∧
    count_inner_walls (generator o) = Ok k ∧
    k0 ≤ k ∧ k ≤ Z.max k0 7 ∧
    (warning o = true ↔ k < 7) ∧
    connected_after_every_candidate (c_self s) ∧
    connected (generator o).
Proof.
  split; [lia|].
  destruct (densification_bounds 9 3 1 7 (rng_of_list [4; 4; 1; 0; 2]%nat))
    as [[[Hlt _] _]|Hrun]; [lia|cbn in Hlt; lia|exact Hrun].
Defined.

(** C7, as stated, fails: nothing validates [min_walls] or [cell_size].
    With [min_walls = -1] the run carves the [2 x 2] grid and returns its
    nine wall descriptors, and so it does with [cell_size = -1.0] and with
    [cell_size = 0.0]. (The recursion room of 900 calls is within the
    interpreter's default limit.) *)
Lemma invalid_configuration_accepted :
  (∃ o, main 900 2 1 (-1) (rng_of_list []) = Ok o ∧ length (walls o) = 9%nat ∧
     horizontal_walls (generator o) = [[true; true]; [false; false]; [true; true]]) ∧
  (∃ o, main 900 2 (-1) 0 (rng_of_list []) = Ok o ∧ length (walls o) = 9%nat) ∧
  (∃ o, main 900 2 0 0 (rng_of_list []) = Ok o ∧ length (walls o) = 9%nat).
Proof.
  split_and!; (eexists; split; [vm_compute; reflexivity|]; cbn; split_and?; reflexivity).
Qed.

(** C7, amended. A non-positive [grid_size] makes the run fail, whatever
    the recursion room: drawing the start row raises [ValueError] before
    [_dfs_carve] is entered, so no wall is carved, no candidate is tried
    and nothing is projected. ([min_walls] and [cell_size] are not
    validated.) *)
Theorem nonpositive_grid_size_rejected depth size cs mw g :
  size ≤ 0 →
  randint 0 (grid_size (init size cs mw) - 1) g = Raise ValueError ∧
  generate_connected_maze_dfs depth (init size cs mw) g = Raise ValueError ∧
  main depth size cs mw g = Raise ValueError.
Proof.
  intros Hsize.
  assert (randint 0 (size - 1) g = Raise ValueError) as Hr.
  { unfold randint. by replace (0 <=? size - 1) with false by lia. }
  assert (generate_connected_maze_dfs depth (init size cs mw) g = Raise ValueError) as Hc.
  { unfold generate_connected_maze_dfs. cbn [grid_size init]. by rewrite Hr. }
  split_and!; [done..|]. unfold main, generate_maze. by rewrite Hc.
Qed.

Lemma nonpositive_grid_size_rejected_witness :
  0 ≤ 0 ∧
  randint 0 (grid_size (init 0 1 5) - 1) (rng_of_list [3; 1]%nat) = Raise ValueError ∧
  generate_connected_maze_dfs 900 (init 0 1 5) (rng_of_list [3; 1]%nat) = Raise ValueError ∧
  main 900 0 1 5 (rng_of_list [3; 1]%nat) = Raise ValueError.
Proof.
  split; [lia|].
  apply (nonpositive_grid_size_rejected 900 0 1 5 (rng_of_list [3; 1]%nat)). lia.
Defined.

(** C8, as stated, fails: for [grid_size = 5] and [min_walls = 0] the
    output has 36 descriptors, not 44. (The recursion room of 900 calls is
    within the interpreter's default limit.) *)
Lemma five_by_five_not_44 :
  ∃ o, generate_maze 900 (init 5 1 0) (rng_of_list [3; 1; 4; 1; 5; 9; 2; 6]%nat) = Ok o ∧
    added_walls o = None ∧ length (walls o) = 36%nat ∧ length (walls o) ≠ 44%nat.
Proof.
  eexists. split; [vm_compute; reflexivity|]. cbn. split_and!; try reflexivity. lia.
Qed.

(** C8, amended. For [grid_size = 5] and [min_walls = 0], whatever the
    cell size and the random source, and with room for the 25 nested
    calls that the 25 cells can take (any interpreter that runs the
    program has it), the run returns, the densifier is not called (no
    warning either) and the output has exactly 36 descriptors: the 20
    boundary walls and the 16 interior walls that remain once the carver
    has removed [5 * 5 - 1 = 24] of the 40. *)
Theorem five_by_five_output depth cs g :
  (25 ≤ depth)%nat →
  ∃ o, generate_maze depth (init 5 cs 0) g = Ok o ∧
    added_walls o = None ∧ warning o = false ∧
    count_inner_walls (generator o) = Ok 16 ∧
    length (walls o) = 36%nat.
Proof.
  intros Hdepth.
  destruct (generate_maze_spec depth 5 cs 0 g)
    as [[[Hlt _] _]|(s & o & Hcarve & Hs & Hgen & Ho)]; [lia|lia|].
  exists o. destruct Hs as [(Hg & Hw & _) _ Hbd _ _ Hopen _].
  pose proof (wall_open_total (c_self s)) as Htot. rewrite Hg in Htot.
  assert (wall_count (c_self s) = 16%nat) as Hcount by lia.
  destruct Ho as [Hw' _ _ _ Hwalls _ _ Hadd Hwarn Hsame].
  rewrite Hcount in Hadd. cbn in Hadd. specialize (Hsame Hadd).
  rewrite Hsame in *. split_and!; try done.
  - rewrite Hwarn, Hcount. done.
  - rewrite count_inner_walls_ok by done. by rewrite Hcount.
  - pose proof (length_projection (c_self s)) as Hlen. rewrite Hg, Hcount in Hlen.
    specialize (Hlen ltac:(lia) Hbd). rewrite Hwalls. lia.
Qed.

Lemma five_by_five_output_witness :
  (25 ≤ 25)%nat ∧
  ∃ o, generate_maze 25 (init 5 2 0) (rng_of_list [6; 2; 8; 3; 1]%nat) = Ok o ∧
    added_walls o = None ∧ warning o = false ∧
    count_inner_walls (generator o) = Ok 16 ∧
    length (walls o) = 36%nat.
Proof.
  split; [lia|]. apply (five_by_five_output 25 2 (rng_of_list [6; 2; 8; 3; 1]%nat)). lia.
Defined.

(** The descriptors in the words of the specification: centre
    [(-half_extent + (col + 0.5) * cell_size, -half_extent + row * cell_size)]
    and footprint [(cell_size, thickness)] for a horizontal wall, centre
    [(-half_extent + col * cell_size, -half_extent + (row + 0.5) * cell_size)]
    and footprint [(thickness, cell_size)] for a vertical one, with
    [half_extent = (grid_size * cell_size) / 2], yaw [0], the shared height
    and the vertical centre at half the height. *)
Definition horizontal_descriptor (self : MazeGenerator) (row col : Z) : wall :=
  let half_extent := (Z2f (grid_size self) * cell_size self / 2)%float in
  {| w_x := (- half_extent + (Z2f col + 0.5) * cell_size self)%float;
     w_y := (- half_extent + Z2f row * cell_size self)%float;
     w_z := (wall_height self / 2)%float;
     w_length := cell_size self;
     w_width := wall_thickness self;
     w_height := wall_height self;
     w_yaw := 0 |}.

Definition vertical_descriptor (self : MazeGenerator) (row col : Z) : wall :=
  let half_extent := (Z2f (grid_size self) * cell_size self / 2)%float in
  {| w_x := (- half_extent + Z2f col * cell_size self)%float;
     w_y := (- half_extent + (Z2f row + 0.5) * cell_size self)%float;
     w_z := (wall_height self / 2)%float;
     w_length := wall_thickness self;
     w_width := cell_size self;
     w_height := wall_height self;
     w_yaw := 0 |}.

(** [_create_wall] computes [0 + wall_height / 2.0]; with the height [0.5]
    that the constructor sets this is [wall_height / 2] exactly. *)
Lemma horizontal_wall_at_descriptor self row col :
  wall_height self = 0.5%float →
  horizontal_wall_at self row col = horizontal_descriptor self row col.
Proof.
  intros Hh. unfold horizontal_wall_at, horizontal_descriptor, create_wall, half_size.
  rewrite Hh. reflexivity.
Qed.

Lemma vertical_wall_at_descriptor self row col :
  wall_height self = 0.5%float →
  vertical_wall_at self row col = vertical_descriptor self row col.
Proof.
  intros Hh. unfold vertical_wall_at, vertical_descriptor, create_wall, half_size.
  rewrite Hh. reflexivity.
Qed.

Lemma elem_of_h_all n p : p ∈ h_all n ↔ 0 ≤ p.1 ≤ n ∧ 0 ≤ p.2 < n.
Proof. unfold h_all. rewrite elem_of_positions, !elem_of_range. lia. Qed.

Lemma elem_of_v_all n p : p ∈ v_all n ↔ 0 ≤ p.1 < n ∧ 0 ≤ p.2 ≤ n.
Proof. unfold v_all. rewrite elem_of_positions, !elem_of_range. lia. Qed.

(** C9. The projection is a function of the generator alone (it takes no
    random source and returns only the list). On a generator of size
    [n >= 0] with well-shaped matrices and the wall height [0.5] of the
    constructor it returns a list in which every [True] horizontal entry
    and every [True] vertical entry has its descriptor as the
    specification words it, which holds nothing else, and in which every
    descriptor has yaw [0], the shared height and [z = height / 2]. *)
Theorem projection_geometry self :
  0 ≤ grid_size self → wf_walls self → wall_height self = 0.5%float →
  ∃ ws, convert_to_3d_walls self = Ok ws ∧
    (∀ row col, 0 ≤ row ≤ grid_size self → 0 ≤ col < grid_size self →
       mget (horizontal_walls self) row col = Ok true →
       horizontal_descriptor self row col ∈ ws) ∧
    (∀ row col, 0 ≤ row < grid_size self → 0 ≤ col ≤ grid_size self →
       mget (vertical_walls self) row col = Ok true →
       vertical_descriptor self row col ∈ ws) ∧
    (∀ w, w ∈ ws →
       (∃ row col, mget (horizontal_walls self) row col = Ok true ∧
          w = horizontal_descriptor self row col) ∨
       (∃ row col, mget (vertical_walls self) row col = Ok true ∧
          w = vertical_descriptor self row col)) ∧
    (∀ w, w ∈ ws →
       w_yaw w = 0 ∧ w_height w = wall_height self ∧
       w_z w = (wall_height self / 2)%float).
Proof.
  intros Hn [Hh Hv] Hheight. exists (projection self).
  split; [by apply convert_to_3d_walls_ok|].
  assert (∀ w, w ∈ projection self ↔
            (∃ p, p ∈ h_all (grid_size self) ∧ is_wall (horizontal_walls self) p ∧
               w = horizontal_descriptor self p.1 p.2) ∨
            (∃ p, p ∈ v_all (grid_size self) ∧ is_wall (vertical_walls self) p ∧
               w = vertical_descriptor self p.1 p.2)) as Hmem.
  { intros w. unfold projection. rewrite elem_of_app, !list_elem_of_fmap.
    setoid_rewrite list_elem_of_filter.
    setoid_rewrite (horizontal_wall_at_descriptor self _ _ Hheight).
    setoid_rewrite (vertical_wall_at_descriptor self _ _ Hheight).
    split; (intros [(q & Hq1 & Hq2 & Hq3)|(q & Hq1 & Hq2 & Hq3)];
            [left|right]; exists q; by split_and!). }
  split_and!.
  - intros row col Hrow Hcol Hget. apply Hmem. left. exists (row, col).
    rewrite (mget_ok _ _ _ Hh) in Hget by (cbn; lia). injection Hget as Hget.
    split_and!; [by apply elem_of_h_all|done..].
  - intros row col Hrow Hcol Hget. apply Hmem. right. exists (row, col).
    rewrite (mget_ok _ _ _ Hv) in Hget by (cbn; lia). injection Hget as Hget.
    split_and!; [by apply elem_of_v_all|done..].
  - intros w [([r c] & Hin%elem_of_h_all & Hw & ->)|([r c] & Hin%elem_of_v_all & Hw & ->)]%Hmem;
      cbn in Hin; [left|right]; exists r, c; (split; [|done]).
    + rewrite (mget_ok _ _ _ Hh) by lia. by f_equal.
    + rewrite (mget_ok _ _ _ Hv) by lia. by f_equal.
  - by intros w [(p & _ & _ & ->)|(p & _ & _ & ->)]%Hmem.
Qed.

Lemma projection_geometry_witness :
  0 ≤ grid_size open_grid2 ∧ wf_walls open_grid2 ∧ wall_height open_grid2 = 0.5%float ∧
  ∃ ws, convert_to_3d_walls open_grid2 = Ok ws ∧
    (∀ row col, 0 ≤ row ≤ grid_size open_grid2 → 0 ≤ col < grid_size open_grid2 →
       mget (horizontal_walls open_grid2) row col = Ok true →
       horizontal_descriptor open_grid2 row col ∈ ws) ∧
    (∀ row col, 0 ≤ row < grid_size open_grid2 → 0 ≤ col ≤ grid_size open_grid2 →
       mget (vertical_walls open_grid2) row col = Ok true →
       vertical_descriptor open_grid2 row col ∈ ws) ∧
    (∀ w, w ∈ ws →
       (∃ row col, mget (horizontal_walls open_grid2) row col = Ok true ∧
          w = horizontal_descriptor open_grid2 row col) ∨
       (∃ row col, mget (vertical_walls open_grid2) row col = Ok true ∧
          w = vertical_descriptor open_grid2 row col)) ∧
    (∀ w, w ∈ ws →
       w_yaw w = 0 ∧ w_height w = wall_height open_grid2 ∧
       w_z w = (wall_height open_grid2 / 2)%float).
Proof.
  split; [cbn; lia|]. split; [apply open_grid2_wf|]. split; [reflexivity|].
  apply (projection_geometry open_grid2); [cbn; lia|apply open_grid2_wf|reflexivity].
Defined.

Lemma horizontal_wall_at_config a b row col :
  same_config a b → horizontal_wall_at a row col = horizontal_wall_at b row col.
Proof.
  intros (Hg & Hc & _ & Hh & Ht).
  unfold horizontal_wall_at, create_wall, half_size. by rewrite Hg, Hc, Hh, Ht.
Qed.

Lemma vertical_wall_at_config a b row col :
  same_config a b → vertical_wall_at a row col = vertical_wall_at b row col.
Proof.
  intros (Hg & Hc & _ & Hh & Ht).
  unfold vertical_wall_at, create_wall, half_size. by rewrite Hg, Hc, Hh, Ht.
Qed.

(** With the boundary in place, the interior entries determine the
    projection. *)
Lemma projection_interior a b :
  same_config a b → boundary_ok a → boundary_ok b →
  (∀ p, interior (grid_size a) p → wall_at b p = wall_at a p) →
  projection b = projection a.
Proof.
  intros Hcfg Ha Hb Hint. pose proof Hcfg as (Hg & _).
  unfold projection. rewrite <- Hg. f_equal.
  - rewrite (filter_ext_in (is_wall (horizontal_walls b)) (is_wall (horizontal_walls a))).
    + apply list_fmap_ext. intros _ p _. symmetry. by apply horizontal_wall_at_config.
    + intros [r c] [Hr Hc]%elem_of_h_all. cbn in Hr, Hc. unfold is_wall. cbn.
      destruct (decide (r = 0)) as [->|?].
      { destruct (Ha c Hc) as (-> & _). by destruct (Hb c) as (-> & _); [rewrite <- Hg|]. }
      destruct (decide (r = grid_size a)) as [->|?].
      { destruct (Ha c Hc) as (_ & -> & _). rewrite Hg at 1.
        by destruct (Hb c) as (_ & -> & _); [rewrite <- Hg|]. }
      specialize (Hint (PathH, r, c)). cbn in Hint. rewrite Hint; [done|lia].
  - rewrite (filter_ext_in (is_wall (vertical_walls b)) (is_wall (vertical_walls a))).
    + apply list_fmap_ext. intros _ p _. symmetry. by apply vertical_wall_at_config.
    + intros [r c] [Hr Hc]%elem_of_v_all. cbn in Hr, Hc. unfold is_wall. cbn.
      destruct (decide (c = 0)) as [->|?].
      { destruct (Ha r Hr) as (_ & _ & -> & _).
        by destruct (Hb r) as (_ & _ & -> & _); [rewrite <- Hg|]. }
      destruct (decide (c = grid_size a)) as [->|?].
      { destruct (Ha r Hr) as (_ & _ & _ & ->). rewrite Hg at 1.
        by destruct (Hb r) as (_ & _ & _ & ->); [rewrite <- Hg|]. }
      specialize (Hint (PathV, r, c)). cbn in Hint. rewrite Hint; [done|lia].
Qed.

(** C10. The order of the output. On a generator of size [n >= 0] with
    well-shaped matrices the projection returns the descriptors of the
    horizontal entries that are [True], taken in strictly increasing
    (row, column) order over rows [0..n] and columns [0..n-1], followed by
    those of the vertical entries that are [True], in strictly increasing
    (row, column) order over rows [0..n-1] and columns [0..n]. No random
    source enters: two generators with the same configuration and intact
    boundaries that agree on the interior entries yield the same list, so
    for a given interior wall set every boundary wall sits at a fixed
    place of the sequence. *)
Theorem projection_order self :
  0 ≤ grid_size self → wf_walls self →
  ∃ ph pv,
    convert_to_3d_walls self
      = Ok (((λ p, horizontal_wall_at self p.1 p.2) <$> ph)
            ++ ((λ p, vertical_wall_at self p.1 p.2) <$> pv)) ∧
    row_major ph ∧
    (∀ row col, (row, col) ∈ ph ↔
       0 ≤ row ≤ grid_size self ∧ 0 ≤ col < grid_size self ∧
       mget (horizontal_walls self) row col = Ok true) ∧
    row_major pv ∧
    (∀ row col, (row, col) ∈ pv ↔
       0 ≤ row < grid_size self ∧ 0 ≤ col ≤ grid_size self ∧
       mget (vertical_walls self) row col = Ok true) ∧
    (∀ self', same_config self self' → wf_walls self' →
       boundary_ok self → boundary_ok self' →
       (∀ p, interior (grid_size self) p → wall_at self' p = wall_at self p) →
       convert_to_3d_walls self' = convert_to_3d_walls self).
Proof.
  intros Hn [Hh Hv].
  exists (filter (is_wall (horizontal_walls self)) (h_all (grid_size self))),
         (filter (is_wall (vertical_walls self)) (v_all (grid_size self))).
  split_and!.
  - by apply convert_to_3d_walls_ok.
  - apply row_major_filter, row_major_positions; apply StronglySorted_range.
  - intros row col. rewrite list_elem_of_filter, elem_of_h_all. unfold is_wall. cbn. split.
    + intros (Hw & Hr & Hc). split; [done|]. split; [done|].
      rewrite (mget_ok _ _ _ Hh) by lia. by f_equal.
    + intros (Hr & Hc & Hget). rewrite (mget_ok _ _ _ Hh) in Hget by lia.
      injection Hget as Hget. done.
  - apply row_major_filter, row_major_positions; apply StronglySorted_range.
  - intros row col. rewrite list_elem_of_filter, elem_of_v_all. unfold is_wall. cbn. split.
    + intros (Hw & Hr & Hc). split; [done|]. split; [done|].
      rewrite (mget_ok _ _ _ Hv) by lia. by f_equal.
    + intros (Hr & Hc & Hget). rewrite (mget_ok _ _ _ Hv) in Hget by lia.
      injection Hget as Hget. done.
  - intros self' Hcfg Hw' Hb Hb' Hint.
    rewrite !convert_to_3d_walls_ok; [|done|by split|by rewrite <- (proj1 Hcfg)|done].
    f_equal. by apply projection_interior.
Qed.

Lemma projection_order_witness :
  0 ≤ grid_size open_grid2 ∧ wf_walls open_grid2 ∧
  ∃ ph pv,
    convert_to_3d_walls open_grid2
      = Ok (((λ p, horizontal_wall_at open_grid2 p.1 p.2) <$> ph)
            ++ ((λ p, vertical_wall_at open_grid2 p.1 p.2) <$> pv)) ∧
    row_major ph ∧
    (∀ row col, (row, col) ∈ ph ↔
       0 ≤ row ≤ grid_size open_grid2 ∧ 0 ≤ col < grid_size open_grid2 ∧
       mget (horizontal_walls open_grid2) row col = Ok true) ∧
    row_major pv ∧
    (∀ row col, (row, col) ∈ pv ↔
       0 ≤ row < grid_size open_grid2 ∧ 0 ≤ col ≤ grid_size open_grid2 ∧
       mget (vertical_walls open_grid2) row col = Ok true) ∧
    (∀ self', same_config open_grid2 self' → wf_walls self' →
       boundary_ok open_grid2 → boundary_ok self' →
       (∀ p, interior (grid_size open_grid2) p → wall_at self' p = wall_at open_grid2 p) →
       convert_to_3d_walls self' = convert_to_3d_walls open_grid2).
Proof.
  split; [cbn; lia|]. split; [apply open_grid2_wf|].
  apply (projection_order open_grid2); [cbn; lia|apply open_grid2_wf].
Defined.

(** * Further properties of the code *)

(** ** Putting a wall up removes one passage *)

(** The two cells that an interior wall entry separates. *)
Definition ends (w : path) : cell_id * cell_id :=
  match w with
  | (PathH, r, c) => ((r - 1, c), (r, c))
  | (PathV, r, c) => ((r, c - 1), (r, c))
  end.

Definition crosses (w : path) (x y : cell_id) : Prop :=
  (x, y) = ends w ∨ (y, x) = ends w.

(** Every passage of [a] is a passage of [b]. *)
Definition sub_passages (a b : MazeGenerator) : Prop :=
  ∀ x y, passage a x y → passage b x y.

Lemma cell_mupd_true rows cols (m : matrix) r c i j :
  wf_matrix rows cols m → 0 ≤ r < rows → 0 ≤ c < cols →
  cell (mupd m r c true) i j = false ↔ ¬ (i = r ∧ j = c) ∧ cell m i j = false.
Proof.
  intros Hwf Hr Hc. destruct (decide ((i, j) = (r, c))) as [[= -> ->]|Hne].
  - rewrite (cell_mupd_eq _ _ _ Hwf) by done. split; [done|]. intros [Hn _]. by destruct Hn.
  - rewrite cell_mupd_ne by (done || lia). split; [|by intros [_ ?]].
    intros Hf. split; [|done]. intros [-> ->]. done.
Qed.

Lemma passage_put_true self w x y :
  wf_walls self → interior (grid_size self) w →
  passage (put self w true) x y ↔ passage self x y ∧ ¬ crosses w x y.
Proof.
  intros [Hh Hv] Hw. unfold passage, crosses, in_grid.
  destruct w as [[[] r] c], x as [xr xc], y as [yr yc]; cbn in *.
  - rewrite !(cell_mupd_true _ _ _ _ _ _ _ Hh) by lia.
    rewrite !pair_equal_spec. intuition lia.
  - rewrite !(cell_mupd_true _ _ _ _ _ _ _ Hv) by lia.
    rewrite !pair_equal_spec. intuition lia.
Qed.

Lemma put_true_sub self w :
  wf_walls self → interior (grid_size self) w → sub_passages (put self w true) self.
Proof. intros Hw Hi x y Hxy. by apply passage_put_true in Hxy as [? _]. Qed.

Lemma put_true_mono a b w :
  wf_walls a → wf_walls b → grid_size a = grid_size b → interior (grid_size a) w →
  sub_passages a b → sub_passages (put a w true) (put b w true).
Proof.
  intros Ha Hb Hg Hi Hsub x y Hxy.
  apply passage_put_true in Hxy as [Hxy Hnc]; [|done..].
  apply passage_put_true; [done|by rewrite <- Hg|]. split; [by apply Hsub|done].
Qed.

Lemma connected_sub a b :
  grid_size a = grid_size b → sub_passages a b → connected a → connected b.
Proof.
  intros Hg Hsub Hconn x y Hx Hy. rewrite <- Hg in Hx, Hy.
  eapply rtc_subrel; [|by apply Hconn]. exact Hsub.
Qed.

(** ** The search tree of the connectivity check *)

Section bfs_tree.
Context (self : MazeGenerator).
Hypothesis Hn : 1 ≤ grid_size self.
Hypothesis Hwalls : wf_walls self.

(** Every cell but the first is marked across an open interior wall of
    its own: the walls so used are distinct, and one fewer than the cells
    counted. *)
Definition tree_inv (b : bfs_state) : Prop :=
  ∃ tree : list path,
    NoDup tree ∧
    (∀ w, w ∈ tree →
       interior (grid_size self) w ∧ wall_at self w = false ∧
       marked (b_visited b) (ends w).1 ∧ marked (b_visited b) (ends w).2) ∧
    Z.of_nat (length tree) + 1 = b_count b.

Lemma bfs_probe_tree p guard wall nr nc w b b' :
  wf_matrix (grid_size self) (grid_size self) (b_visited b) →
  marked (b_visited b) p → tree_inv b →
  (guard = true →
     in_grid (grid_size self) (nr, nc) ∧ wall = Ok (wall_at self w) ∧
     interior (grid_size self) w ∧ crosses w p (nr, nc)) →
  bfs_probe guard wall nr nc b = Ok b' → tree_inv b'.
Proof.
  intros Hwf Hp Htree Hguard. unfold bfs_probe.
  destruct guard; [|by intros [= <-]].
  destruct Hguard as (Hq & -> & Hint & Hcross); [done|]. monad_simpl.
  destruct (wall_at self w) eqn:Hwall; cbn [negb]; [by intros [= <-]|].
  rewrite (mget_ok _ _ _ Hwf) by apply Hq. monad_simpl.
  destruct (cell (b_visited b) nr nc) eqn:Hseen; cbn [negb]; [by intros [= <-]|].
  rewrite (mset_ok _ _ _ Hwf) by apply Hq. monad_simpl. intros [= <-].
  assert (¬ marked (b_visited b) (nr, nc)) as Hnm by (unfold marked; cbn; congruence).
  assert (∀ x, marked (mupd (b_visited b) nr nc true) x
               ↔ x = (nr, nc) ∨ marked (b_visited b) x) as Hupd.
  { intros x. apply (marked_mupd _ _ nr nc x Hwf Hq). }
  destruct Htree as (tree & Hnd & Hall & Hlen).
  exists (w :: tree). cbn [b_visited b_count length]. split_and!.
  - apply NoDup_cons. split; [|done]. intros Hin.
    destruct (Hall w Hin) as (_ & _ & H1 & H2).
    destruct Hcross as [Hc|Hc]; rewrite <- Hc in H1, H2; cbn in H1, H2; done.
  - intros w' [->|Hin]%elem_of_cons.
    + split_and!; [done..| |];
        destruct Hcross as [Hc|Hc]; rewrite <- Hc; cbn; apply Hupd; auto.
    + destruct (Hall w' Hin) as (? & ? & ? & ?). split_and!; [done..| |]; apply Hupd; auto.
  - lia.
Qed.

Lemma bfs_step_tree p b b' :
  bfs_inv self [p] b → marked (b_visited b) p → tree_inv b →
  bfs_step self p.1 p.2 b = Ok b' → tree_inv b'.
Proof.
  intros Hinv Hp Htree. destruct p as [r c].
  pose proof (marked_in_grid _ _ _ (bi_wf _ _ _ Hinv) Hp) as [Hr Hc]. cbn in Hr, Hc.
  destruct Hwalls as [Hhw Hvw]. unfold bfs_step. cbn [fst snd].
  edestruct (bfs_probe_spec self (r, c) (0 <? r) (mget (horizontal_walls self) r c)
               (r - 1) c b) as (b1 & Hb1 & Hinv1 & Hmono1 & _); [done..| |].
  { intros Hg. split; [split; cbn; lia|]. eexists. split; [apply (mget_ok _ _ _ Hhw); lia|].
    intros Hw. split_and!; [split; cbn; lia..|]. by left. }
  rewrite Hb1. monad_simpl.
  assert (tree_inv b1) as Htree1.
  { eapply (bfs_probe_tree (r, c) _ _ _ _ (PathH, r, c)); [apply Hinv|done..| |exact Hb1].
    intros Hg. split_and!; [split; cbn; lia|apply (mget_ok _ _ _ Hhw); lia|cbn; lia|by right]. }
  edestruct (bfs_probe_spec self (r, c) (r <? grid_size self - 1)
               (mget (horizontal_walls self) (r + 1) c) (r + 1) c b1)
    as (b2 & Hb2 & Hinv2 & Hmono2 & _); [auto..| |].
  { intros Hg. split; [split; cbn; lia|]. eexists. split; [apply (mget_ok _ _ _ Hhw); lia|].
    intros Hw. split_and!; [split; cbn; lia..|]. right; by left. }
  rewrite Hb2. monad_simpl.
  assert (tree_inv b2) as Htree2.
  { eapply (bfs_probe_tree (r, c) _ _ _ _ (PathH, r + 1, c));
      [apply Hinv1|auto..| |exact Hb2].
    intros Hg. split_and!; [split; cbn; lia|apply (mget_ok _ _ _ Hhw); lia|cbn; lia|].
    left. cbn. do 2 f_equal. lia. }
  edestruct (bfs_probe_spec self (r, c) (0 <? c) (mget (vertical_walls self) r c)
               r (c - 1) b2) as (b3 & Hb3 & Hinv3 & Hmono3 & _); [auto..| |].
  { intros Hg. split; [split; cbn; lia|]. eexists. split; [apply (mget_ok _ _ _ Hvw); lia|].
    intros Hw. split_and!; [split; cbn; lia..|]. right; right; by left. }
  rewrite Hb3. monad_simpl.
  assert (tree_inv b3) as Htree3.
  { eapply (bfs_probe_tree (r, c) _ _ _ _ (PathV, r, c)); [apply Hinv2|auto..| |exact Hb3].
    intros Hg. split_and!; [split; cbn; lia|apply (mget_ok _ _ _ Hvw); lia|cbn; lia|by right]. }
  intros Hb4.
  eapply (bfs_probe_tree (r, c) _ _ _ _ (PathV, r, c + 1)); [apply Hinv3|auto..| |exact Hb4].
  intros Hg. split_and!; [split; cbn; lia|apply (mget_ok _ _ _ Hvw); lia|cbn; lia|].
  left. cbn. do 2 f_equal. lia.
Qed.

Lemma bfs_loop_tree fuel b b' :
  bfs_inv self [] b → tree_inv b → bfs_loop fuel self b = Ok b' → tree_inv b'.
Proof.
  revert b. induction fuel as [|fuel IH]; intros b Hinv Htree.
  - destruct b as [v [|[r c] q] k]; cbn; [by intros [= <-]|done].
  - destruct b as [v [|[r c] q] k]; cbn [bfs_loop b_queue b_visited b_count];
      [by intros [= <-]|].
    destruct Hinv as [Hwf Ho Hs Hqu Hcl Hcnt]; cbn in *.
    assert (bfs_inv self [(r, c)] {| b_visited := v; b_queue := q; b_count := k |}) as Hinv0.
    { constructor; cbn; auto.
      - intros x Hx. apply Hqu. by right.
      - intros x Hx. destruct (Hcl x Hx) as [[->|?]%elem_of_cons|[?%elem_of_nil|?]].
        + right; left. by apply list_elem_of_singleton.
        + by left.
        + done.
        + by right; right. }
    assert (marked v (r, c)) as Hp by (apply Hqu; left).
    destruct (bfs_step_spec self Hwalls (r, c) _ Hinv0 Hp) as (b1 & Hstep & Hinv1 & _).
    cbn in Hstep. rewrite Hstep. monad_simpl.
    apply IH; [done|]. by eapply (bfs_step_tree (r, c)).
Qed.

(** A grid on which the check answers [True] has at least [n * n - 1]
    open interior entries. *)
Lemma connected_open_count :
  is_all_connected self = Ok true →
  grid_size self * grid_size self - 1 ≤ Z.of_nat (open_count self).
Proof.
  unfold is_all_connected, is_all_connected_fuel.
  pose proof (wf_mk_matrix (grid_size self) (grid_size self) false) as Hwf0.
  specialize (Hwf0 ltac:(lia) ltac:(lia)).
  assert (in_grid (grid_size self) (0, 0)) as Ho by (split; cbn; lia).
  rewrite (mset_ok _ _ _ Hwf0) by lia. monad_simpl.
  set (v0 := mupd _ 0 0 true).
  assert (∀ p, marked v0 p ↔ p = (0, 0)) as Hv0.
  { intros p. unfold v0. rewrite (marked_mupd _ _ 0 0 p Hwf0 Ho).
    split; [|by left]. intros [?|Hm]; [done|]. by apply unmarked_mk_matrix in Hm. }
  set (b0 := {| b_visited := v0; b_queue := [(0, 0)]; b_count := 1 |}).
  assert (bfs_inv self [] b0) as Hinv0.
  { constructor; cbn.
    - by apply wf_mupd.
    - by apply Hv0.
    - intros p ->%Hv0. apply rtc_refl.
    - intros p ->%list_elem_of_singleton. by apply Hv0.
    - intros p ->%Hv0. left. by apply list_elem_of_singleton.
    - unfold v0.
      rewrite (count_marked_mupd _ _ 0 0 Hwf0 Ho), filter_unmarked_nil; [done|].
      apply unmarked_mk_matrix. }
  assert (tree_inv b0) as Htree0.
  { exists []. split_and!; [constructor|by intros w ?%elem_of_nil|done]. }
  destruct (bfs_loop _ self b0) as [b| |] eqn:Hloop; cbn; [|done..].
  intros [= Hcount%Z.eqb_eq].
  destruct (bfs_loop_tree _ _ _ Hinv0 Htree0 Hloop) as (tree & Hnd & Hall & Hlen).
  assert (length tree ≤ length (open_paths self))%nat as Hle.
  { apply submseteq_length, NoDup_submseteq; [done|].
    intros w Hw. apply elem_of_open_paths. by destruct (Hall w Hw) as (? & ? & _). }
  unfold open_paths in Hle. rewrite length_app, !length_fmap in Hle.
  unfold open_count. lia.
Qed.

End bfs_tree.

(** X1. A generator of size [n >= 1] with well-shaped matrices on which the
    connectivity check answers [True] has at most [(n - 1) * (n - 1)]
    interior walls: reaching all [n * n] cells takes [n * n - 1] open
    interior entries, out of [2 n (n - 1)]. *)
Theorem connected_wall_bound self :
  1 ≤ grid_size self → wf_walls self →
  is_all_connected self = Ok true →
  ∃ k, count_inner_walls self = Ok k ∧
       k ≤ (grid_size self - 1) * (grid_size self - 1).
Proof.
  intros Hn Hw Hconn. exists (Z.of_nat (wall_count self)).
  split; [by apply count_inner_walls_ok|].
  pose proof (connected_open_count self Hn Hw Hconn).
  pose proof (wall_open_total self Hn). lia.
Qed.

Lemma connected_wall_bound_witness :
  1 ≤ grid_size open_grid2 ∧ wf_walls open_grid2 ∧
  is_all_connected open_grid2 = Ok true ∧
  ∃ k, count_inner_walls open_grid2 = Ok k ∧
       k ≤ (grid_size open_grid2 - 1) * (grid_size open_grid2 - 1).
Proof.
  split; [cbn; lia|]. split; [apply open_grid2_wf|]. split; [reflexivity|].
  apply (connected_wall_bound open_grid2); [cbn; lia|apply open_grid2_wf|reflexivity].
Defined.

(** ** Passages that cannot be walled up *)

Lemma open_count_put self p :
  1 ≤ grid_size self → wf_walls self → interior (grid_size self) p →
  wall_at self p = false →
  S (open_count (put self p true)) = open_count self.
Proof.
  intros Hn Hw Hp Hf.
  pose proof (wall_count_put self p Hw Hp Hf) as Hcount.
  pose proof (wall_open_total self Hn) as Htot.
  pose proof (wall_open_total (put self p true)) as Htot'.
  rewrite <- (proj1 (put_config self p Hp true)) in Htot'. lia.
Qed.

(** With exactly [n * n - 1] open interior entries none can be closed. *)
Lemma bridge self p :
  1 ≤ grid_size self → wf_walls self →
  Z.of_nat (open_count self) = grid_size self * grid_size self - 1 →
  interior (grid_size self) p → wall_at self p = false →
  is_all_connected (put self p true) = Ok false.
Proof.
  intros Hn Hw Hopen Hp Hf.
  pose proof (put_config self p Hp true) as (Hg & _).
  pose proof (put_wf self p Hw Hp true) as Hw'.
  destruct (is_all_connected_decides (put self p true)) as ([] & Hb & _);
    [by rewrite <- Hg|done| |done].
  pose proof (connected_open_count (put self p true)) as Hbound.
  rewrite <- Hg in Hbound. specialize (Hbound Hn Hw' Hb).
  pose proof (open_count_put self p Hn Hw Hp Hf). lia.
Qed.

(** When every candidate fails the check the loop leaves the generator
    and the count as they are. *)
Lemma densify_loop_all_rejected num paths self added :
  1 ≤ grid_size self → wf_walls self → candidates_ok self paths →
  (∀ p, p ∈ paths → is_all_connected (put self p true) = Ok false) →
  densify_loop num paths (self, added) = Ok (self, added).
Proof.
  intros Hn Hw. induction paths as [|p rest IH]; intros Hcand Hrej; [done|].
  cbn [densify_loop snd]. destruct (num <=? added); [done|].
  destruct (proj2 Hcand p) as [Hp Hf]; [left|].
  destruct (try_candidate_spec self p added Hn Hw Hp Hf)
    as (self1 & added1 & -> & [(Hc & _)|(_ & -> & ->)]); monad_simpl.
  - rewrite Hrej in Hc by left. done.
  - apply IH; [by eapply candidates_ok_tail|]. intros q Hq. apply Hrej. by right.
Qed.

(** X2. The carved maze is minimally connected. On the fully walled grid
    of every size [n >= 1], for every random source and recursion room:
    unless the carver hits the recursion limit (which takes a room of
    less than [n * n] nested calls and ends it with [RecursionError]), the
    carved [n x n] grid passes the connectivity check, the paths that
    [_add_additional_walls] would enumerate on it are [n * n - 1], and
    each of them is a bridge: putting its wall up succeeds and makes the
    connectivity check answer [False]. *)
Theorem carved_passages_are_bridges depth n cs mw g :
  1 ≤ n →
  hits_limit depth n (generate_connected_maze_dfs depth (init n cs mw) g) ∨
  ∃ s paths,
    generate_connected_maze_dfs depth (init n cs mw) g = Ok s ∧
    grid_size (c_self s) = n ∧ wf_walls (c_self s) ∧
    is_all_connected (c_self s) = Ok true ∧
    removable_paths (c_self s) = Ok paths ∧
    zlen paths = n * n - 1 ∧
    ∀ p, p ∈ paths →
      ∃ self', set_wall (c_self s) p true = Ok self' ∧ is_all_connected self' = Ok false.
Proof.
  intros Hn.
  destruct (carve_spec depth n cs mw g Hn) as [Hlim|(s & Hcarve & Hs)]; [by left|right].
  destruct Hs as [(Hg & Hw & _) _ _ _ _ Hopen Hconn].
  exists s, (open_paths (c_self s)). split_and!; [done..| |by apply removable_paths_ok| |].
  - destruct (is_all_connected_decides (c_self s)) as (b & -> & Hb); [lia|done|].
    f_equal. by apply Hb.
  - rewrite <- Hopen. unfold zlen, open_paths, open_count.
    by rewrite length_app, !length_fmap.
  - intros p [Hp Hf]%elem_of_open_paths. exists (put (c_self s) p true).
    split; [by apply set_wall_ok|]. apply bridge; [lia|done|by rewrite Hg|done..].
Qed.

Lemma carved_passages_are_bridges_witness :
  1 ≤ 3 ∧
  ∃ s paths,
    generate_connected_maze_dfs 9 (init 3 1 9) (rng_of_list [6; 0; 2; 2; 1]%nat) = Ok s ∧
    grid_size (c_self s) = 3 ∧ wf_walls (c_self s) ∧
    is_all_connected (c_self s) = Ok true ∧
    removable_paths (c_self s) = Ok paths ∧
    zlen paths = 3 * 3 - 1 ∧
    ∀ p, p ∈ paths →
      ∃ self', set_wall (c_self s) p true = Ok self' ∧ is_all_connected self' = Ok false.
Proof.
  split; [lia|].
  destruct (carved_passages_are_bridges 9 3 1 9 (rng_of_list [6; 0; 2; 2; 1]%nat))
    as [[Hlt _]|Hrun]; [lia|cbn in Hlt; lia|exact Hrun].
Defined.

(** On the carved maze the densifier, if it is called, accepts nothing. *)
Lemma generate_maze_keeps_carved depth n cs mw g :
  1 ≤ n →
  (hits_limit depth n (generate_connected_maze_dfs depth (init n cs mw) g) ∧
   hits_limit depth n (generate_maze depth (init n cs mw) g)) ∨
  ∃ s o,
    generate_connected_maze_dfs depth (init n cs mw) g = Ok s ∧
    carved n (init n cs mw) s ∧
    Z.of_nat (wall_count (c_self s)) = (n - 1) * (n - 1) ∧
    generate_maze depth (init n cs mw) g = Ok o ∧
    generator o = c_self s ∧ walls o = projection (c_self s) ∧
    added_walls o = (if (n - 1) * (n - 1) <? mw then Some 0 else None) ∧
    warning o = ((n - 1) * (n - 1) <? mw).
Proof.
  intros Hn. destruct (carve_spec depth n cs mw g Hn) as [Hlim|(s & Hcarve & Hs)].
  { left. split; [done|]. by apply generate_maze_hits_limit. }
  right. pose proof Hs as [(Hg & Hw & Hv) Hcfg Hbd _ _ Hopen _].
  pose proof (wall_open_total (c_self s)) as Htot. rewrite Hg in Htot.
  assert (Z.of_nat (wall_count (c_self s)) = (n - 1) * (n - 1)) as Hcount by lia.
  assert (min_walls (c_self s) = mw) as Hmw by (by destruct Hcfg as (_ & _ & <- & _)).
  exists s. unfold generate_maze. rewrite Hcarve. monad_simpl.
  rewrite count_inner_walls_ok, Hcount, Hmw by done. monad_simpl.
  destruct ((n - 1) * (n - 1) <? mw) eqn:Hlt.
  - unfold add_additional_walls. rewrite removable_paths_ok by done. monad_simpl.
    pose proof (candidates_ok_shuffle (c_self s) (c_rng s)) as Hcand.
    destruct (shuffle (open_paths (c_self s)) (c_rng s)) as [paths g'].
    cbn [fst] in Hcand.
    rewrite densify_loop_all_rejected; [|lia|done..|].
    + monad_simpl. cbn [d_self d_added d_warning].
      rewrite convert_to_3d_walls_ok; [|lia|done]. monad_simpl.
      eexists. split; [done|]. split; [done|]. split; [done|]. split; [done|].
      cbn. split_and!; try done. lia.
    + intros p Hp. destruct (proj2 Hcand p Hp) as [Hi Hf].
      apply bridge; [lia|done|by rewrite Hg|done..].
  - rewrite convert_to_3d_walls_ok; [|lia|done]. monad_simpl.
    eexists. split; [done|]. split; [done|]. split; [done|]. split; [done|].
    cbn. by split_and!.
Qed.

(** X3. What [generate_maze] returns on a fresh generator of size
    [n >= 1], whatever the random source and the recursion room: unless
    the carver hits the recursion limit (which takes a room of less than
    [n * n] nested calls and ends the run with [RecursionError]), the
    densifier, when it is called, adds nothing and leaves the carved
    [n x n] generator as it is; the generator keeps exactly
    [(n - 1) * (n - 1)] interior walls and the list has
    [4 n + (n - 1) * (n - 1)] descriptors; the densifier is called, and
    prints its warning, exactly when [min_walls] exceeds
    [(n - 1) * (n - 1)]. *)
Theorem generate_maze_output depth n cs mw g :
  1 ≤ n →
  (hits_limit depth n (generate_connected_maze_dfs depth (init n cs mw) g) ∧
   hits_limit depth n (generate_maze depth (init n cs mw) g)) ∨
  ∃ s o,
    generate_connected_maze_dfs depth (init n cs mw) g = Ok s ∧
    generate_maze depth (init n cs mw) g = Ok o ∧
    generator o = c_self s ∧
    grid_size (generator o) = n ∧ wf_walls (generator o) ∧
    count_inner_walls (generator o) = Ok ((n - 1) * (n - 1)) ∧
    zlen (walls o) = 4 * n + (n - 1) * (n - 1) ∧
    added_walls o = (if (n - 1) * (n - 1) <? mw then Some 0 else None) ∧
    warning o = ((n - 1) * (n - 1) <? mw).
Proof.
  intros Hn.
  destruct (generate_maze_keeps_carved depth n cs mw g Hn)
    as [Hlim|(s & o & Hcarve & Hs & Hcount & Ho & Hgo & Hwo & Hadd & Hwarn)];
    [by left|right].
  destruct Hs as [(Hg & Hw & Hv) _ Hbd _ _ _ _].
  pose proof (length_projection (c_self s)) as Hlen. rewrite Hg, Hcount in Hlen.
  specialize (Hlen Hn Hbd).
  exists s, o. rewrite Hgo, Hwo. split_and!; try done.
  rewrite count_inner_walls_ok by done. by rewrite Hcount.
Qed.

Lemma generate_maze_output_witness :
  1 ≤ 4 ∧
  ∃ s o,
    generate_connected_maze_dfs 16 (init 4 1 12) (rng_of_list [1; 3; 0; 2]%nat) = Ok s ∧
    generate_maze 16 (init 4 1 12) (rng_of_list [1; 3; 0; 2]%nat) = Ok o ∧
    generator o = c_self s ∧
    grid_size (generator o) = 4 ∧ wf_walls (generator o) ∧
    count_inner_walls (generator o) = Ok ((4 - 1) * (4 - 1)) ∧
    zlen (walls o) = 4 * 4 + (4 - 1) * (4 - 1) ∧
    added_walls o = (if (4 - 1) * (4 - 1) <? 12 then Some 0 else None) ∧
    warning o = ((4 - 1) * (4 - 1) <? 12).
Proof.
  split; [lia|].
  destruct (generate_maze_output 16 4 1 12 (rng_of_list [1; 3; 0; 2]%nat))
    as [[[Hlt _] _]|Hrun]; [lia|cbn in Hlt; lia|exact Hrun].
Defined.

(** ** The densifier on an arbitrary generator *)

#[global] Instance path_type_eq_dec : EqDecision path_type.
Proof. solve_decision. Defined.

#[global] Instance path_eq_dec : EqDecision path.
Proof. unfold path. apply _. Defined.

(** The loop only puts walls up, and only at its candidates. *)
Lemma densify_loop_grow num paths :
  ∀ self added self' added',
    1 ≤ grid_size self → wf_walls self → candidates_ok self paths →
    densify_loop num paths (self, added) = Ok (self', added') →
    (∀ p, wall_at self p = true → wall_at self' p = true) ∧
    (∀ p, p ∉ paths → wall_at self' p = wall_at self p) ∧
    sub_passages self' self.
Proof.
  induction paths as [|p rest IH]; intros self added self' added' Hn Hw Hcand.
  { intros [= <- <-]. split_and!; [done..|by intros x y ?]. }
  cbn [densify_loop snd].
  destruct (num <=? added); [intros [= <- <-]; split_and!; [done..|by intros x y ?]|].
  destruct (proj2 Hcand p) as [Hp Hf]; [left|].
  destruct (try_candidate_spec self p added Hn Hw Hp Hf)
    as (self1 & added1 & -> & [(_ & -> & -> & _)|(_ & -> & ->)]); monad_simpl; intros Hrun.
  - pose proof (put_config self p Hp true) as (Hg & _).
    destruct (IH _ _ _ _ ltac:(by rewrite <- Hg) (put_wf self p Hw Hp true)
                (candidates_ok_put self p rest Hw Hcand) Hrun) as (Hup & Hout & Hsub).
    split_and!.
    + intros q Hq. apply Hup. destruct (decide (q = p)) as [->|Hne].
      * by apply wall_at_put_eq.
      * by rewrite wall_at_put_ne.
    + intros q Hq. apply not_elem_of_cons in Hq as [Hne Hq].
      rewrite Hout by done. by apply wall_at_put_ne.
    + intros x y Hxy. by apply (put_true_sub self p Hw Hp), Hsub.
  - destruct (IH _ _ _ _ Hn Hw (candidates_ok_tail self p rest Hcand) Hrun)
      as (Hup & Hout & Hsub).
    split_and!; [done| |done].
    intros q Hq. apply not_elem_of_cons in Hq as [_ Hq]. by apply Hout.
Qed.

(** When the loop runs out of candidates short of its target, no
    candidate that is still open can be closed. *)
Lemma densify_loop_saturated num paths :
  ∀ self added self' added' (rejected : list path),
    1 ≤ grid_size self → wf_walls self → candidates_ok self paths →
    (∀ q, q ∈ rejected → interior (grid_size self) q ∧ ¬ connected (put self q true)) →
    densify_loop num paths (self, added) = Ok (self', added') →
    added' < num →
    ∀ q, q ∈ rejected ∨ q ∈ paths → wall_at self' q = false →
         ¬ connected (put self' q true).
Proof.
  induction paths as [|p rest IH]; intros self added self' added' rejected Hn Hw Hcand Hrej.
  { intros [= <- <-] _ q [Hq|Hq%elem_of_nil] _; [|done]. by apply Hrej. }
  cbn [densify_loop snd]. destruct (num <=? added) eqn:Hbreak.
  { intros [= <- <-] Hlt. lia. }
  destruct (proj2 Hcand p) as [Hp Hf]; [left|].
  pose proof (put_config self p Hp true) as (Hg & _).
  pose proof (put_wf self p Hw Hp true) as Hw1.
  destruct (try_candidate_spec self p added Hn Hw Hp Hf)
    as (self1 & added1 & -> & [(_ & -> & -> & _)|(Hc & -> & ->)]); monad_simpl;
    intros Hrun Hlt q Hq Hopen.
  - destruct (densify_loop_grow num rest _ _ _ _ ltac:(by rewrite <- Hg) Hw1
                (candidates_ok_put self p rest Hw Hcand) Hrun) as (Hup & _).
    destruct (decide (q = p)) as [->|Hne].
    { rewrite Hup in Hopen; [done|]. by apply wall_at_put_eq. }
    eapply (IH _ _ _ _ rejected); [by rewrite <- Hg|done|by apply candidates_ok_put| |
                                     exact Hrun|done| |done].
    + intros q' Hq'. destruct (Hrej q' Hq') as [Hi Hnc]. rewrite <- Hg. split; [done|].
      intros Hconn. apply Hnc.
      eapply (connected_sub (put (put self p true) q' true)); [|by apply put_true_mono;
        [| | |by rewrite <- Hg|apply put_true_sub]|done].
      rewrite <- (proj1 (put_config self q' Hi true)).
      rewrite <- (proj1 (put_config (put self p true) q' ltac:(by rewrite <- Hg) true)).
      done.
    + destruct Hq as [Hq|[?|Hq]%elem_of_cons]; [by left|done|by right].
  - eapply (IH _ _ _ _ (p :: rejected)); [done..|by eapply candidates_ok_tail| |
                                            exact Hrun|done| |done].
    + intros q' [->|Hq']%elem_of_cons; [|by apply Hrej]. split; [done|].
      destruct (is_all_connected_decides (put self p true)) as (b & Hb & Hiff);
        [by rewrite <- Hg|done|].
      rewrite Hc in Hb. injection Hb as <-. intros Hconn. by apply Hiff in Hconn.
    + destruct Hq as [Hq|[->|Hq]%elem_of_cons]; [left; by right|left; by left|by right].
Qed.

Lemma wall_at_false_of_grow (a b : MazeGenerator) p :
  (∀ q, wall_at a q = true → wall_at b q = true) → wall_at b p = false → wall_at a p = false.
Proof.
  intros Hup Hb. destruct (wall_at a p) eqn:Ha; [|done]. by rewrite (Hup p Ha) in Hb.
Qed.

(** X4. The contract of [_add_additional_walls] on any generator of size
    [n >= 1] with well-shaped matrices, whatever the target and the random
    source: it returns; the number of walls added is between [0] and
    [max 0 num_walls_to_add]; the interior wall count grows by exactly that
    number; every standing wall still stands, and only interior entries
    differ; the warning is printed exactly when fewer walls were added
    than asked for; and a grid that passed the connectivity check still
    passes it. *)
Theorem densifier_contract self num g :
  1 ≤ grid_size self → wf_walls self →
  ∃ d k,
    add_additional_walls self num g = Ok d ∧
    count_inner_walls self = Ok k ∧
    count_inner_walls (d_self d) = Ok (k + d_added d) ∧
    0 ≤ d_added d ≤ Z.max 0 num ∧
    d_warning d = (d_added d <? num) ∧
    same_config self (d_self d) ∧
    (∀ p, wall_at self p = true → wall_at (d_self d) p = true) ∧
    (∀ p, wall_at (d_self d) p ≠ wall_at self p → interior (grid_size self) p) ∧
    (is_all_connected self = Ok true → is_all_connected (d_self d) = Ok true).
Proof.
  intros Hn Hw. unfold add_additional_walls.
  rewrite removable_paths_ok by done. monad_simpl.
  pose proof (candidates_ok_shuffle self g) as Hcand.
  destruct (shuffle (open_paths self) g) as [paths g'] eqn:Hsh. cbn [fst] in Hcand.
  destruct (densify_loop_spec num paths [] self 0 Hn Hw) as (self' & added & Hrun & Hd & Hle & _).
  { by rewrite app_nil_r. }
  destruct (densify_loop_grow num paths _ _ _ _ Hn Hw Hcand Hrun) as (Hup & Hout & _).
  rewrite Hrun. monad_simpl.
  destruct Hd as [Hw' Hcfg _ Hconn Hadd Hcount].
  eexists _, (Z.of_nat (wall_count self)). split; [done|]. cbn. split_and!; try done.
  - by apply count_inner_walls_ok.
  - rewrite count_inner_walls_ok by done. f_equal. lia.
  - intros p Hne. destruct (decide (p ∈ paths)) as [Hin|Hnin].
    + by destruct (proj2 Hcand p Hin).
    + by rewrite Hout in Hne.
  - intros Hc.
    destruct (is_all_connected_decides self Hn Hw) as (b & Hb & Hiff).
    rewrite Hc in Hb. injection Hb as <-.
    destruct (is_all_connected_decides self') as (b' & -> & Hiff');
      [by rewrite <- (proj1 Hcfg)|done|].
    f_equal. apply Hiff', Hconn. by apply Hiff.
Qed.

Lemma densifier_contract_witness :
  1 ≤ grid_size open_grid2 ∧ wf_walls open_grid2 ∧
  ∃ d k,
    add_additional_walls open_grid2 3 (rng_of_list [2; 0; 1]%nat) = Ok d ∧
    count_inner_walls open_grid2 = Ok k ∧
    count_inner_walls (d_self d) = Ok (k + d_added d) ∧
    0 ≤ d_added d ≤ Z.max 0 3 ∧
    d_warning d = (d_added d <? 3) ∧
    same_config open_grid2 (d_self d) ∧
    (∀ p, wall_at open_grid2 p = true → wall_at (d_self d) p = true) ∧
    (∀ p, wall_at (d_self d) p ≠ wall_at open_grid2 p → interior (grid_size open_grid2) p) ∧
    (is_all_connected open_grid2 = Ok true → is_all_connected (d_self d) = Ok true).
Proof.
  split; [cbn; lia|]. split; [apply open_grid2_wf|].
  apply (densifier_contract open_grid2 3 (rng_of_list [2; 0; 1]%nat));
    [cbn; lia|apply open_grid2_wf].
Defined.

(** X5. The greedy result is saturated. On any generator of size [n >= 1]
    with well-shaped matrices, if [_add_additional_walls] prints its
    warning, then every interior entry that is still [False] in the
    generator it leaves belongs to a wall that cannot be put up: with that
    wall in place the connectivity check answers [False]. *)
Theorem warning_means_saturated self num g :
  1 ≤ grid_size self → wf_walls self →
  ∃ d, add_additional_walls self num g = Ok d ∧
    (d_warning d = true →
     ∀ p, interior (grid_size self) p → wall_at (d_self d) p = false →
       ∃ self', set_wall (d_self d) p true = Ok self' ∧ is_all_connected self' = Ok false).
Proof.
  intros Hn Hw. unfold add_additional_walls.
  rewrite removable_paths_ok by done. monad_simpl.
  pose proof (candidates_ok_shuffle self g) as Hcand.
  pose proof (shuffle_Permutation (open_paths self) g) as Hperm.
  destruct (shuffle (open_paths self) g) as [paths g'] eqn:Hsh. cbn [fst] in Hcand, Hperm.
  destruct (densify_loop_spec num paths [] self 0 Hn Hw) as (self' & added & Hrun & Hd & _).
  { by rewrite app_nil_r. }
  destruct (densify_loop_grow num paths _ _ _ _ Hn Hw Hcand Hrun) as (Hup & _).
  rewrite Hrun. monad_simpl. eexists. split; [done|]. cbn.
  intros Hwarn%Z.ltb_lt p Hp Hopen.
  destruct Hd as [Hw' Hcfg _ _ _ _]. pose proof Hcfg as (Hg & _).
  exists (put self' p true). split; [apply set_wall_ok; [done|by rewrite <- Hg]|].
  assert (¬ connected (put self' p true)) as Hnc.
  { eapply (densify_loop_saturated num paths self 0 self' added []); try done.
    - by intros q ?%elem_of_nil.
    - right. rewrite Hperm. apply elem_of_open_paths. split; [done|].
      by eapply wall_at_false_of_grow. }
  destruct (is_all_connected_decides (put self' p true)) as ([] & Hb & Hiff).
  - rewrite <- (proj1 (put_config self' p ltac:(by rewrite <- Hg) true)), <- Hg. done.
  - apply put_wf; [done|by rewrite <- Hg].
  - destruct Hnc. by apply Hiff.
  - done.
Qed.

Lemma warning_means_saturated_witness :
  1 ≤ grid_size open_grid2 ∧ wf_walls open_grid2 ∧
  ∃ d, add_additional_walls open_grid2 3 (rng_of_list [2; 0; 1]%nat) = Ok d ∧
    (d_warning d = true →
     ∀ p, interior (grid_size open_grid2) p → wall_at (d_self d) p = false →
       ∃ self', set_wall (d_self d) p true = Ok self' ∧ is_all_connected self' = Ok false).
Proof.
  split; [cbn; lia|]. split; [apply open_grid2_wf|].
  apply (warning_means_saturated open_grid2 3 (rng_of_list [2; 0; 1]%nat));
    [cbn; lia|apply open_grid2_wf].
Defined.

Lemma densify_loop_break num paths self added :
  num ≤ added → densify_loop num paths (self, added) = Ok (self, added).
Proof.
  intros Hle. destruct paths as [|p rest]; [done|].
  cbn [densify_loop snd]. by replace (num <=? added) with true by lia.
Qed.

(** A [2 x 2] grid in two pieces: one passage, between the cells of the
    first column. *)
Definition split_grid2 : MazeGenerator :=
  {| grid_size := 2; cell_size := 1%float; min_walls := 3;
     wall_height := 0.5%float; wall_thickness := 0x1.999999999999ap-5%float;
     horizontal_walls := [[true; true]; [false; true]; [true; true]];
     vertical_walls := [[true; true; true]; [true; true; true]] |}.

Lemma split_grid2_wf : wf_walls split_grid2.
Proof. split; (split; [reflexivity|repeat constructor]). Qed.

(** X6. When nothing is to be added ([num_walls_to_add <= 0]) or the grid
    does not pass the connectivity check to begin with,
    [_add_additional_walls] leaves the generator exactly as it is and
    reports no wall added; in the second case every candidate is tried and
    taken down again, and the warning is printed if a wall was asked for. *)
Theorem densifier_noop self num g :
  1 ≤ grid_size self → wf_walls self →
  num ≤ 0 ∨ is_all_connected self = Ok false →
  ∃ d, add_additional_walls self num g = Ok d ∧
    d_self d = self ∧ d_added d = 0 ∧ d_warning d = (0 <? num).
Proof.
  intros Hn Hw Hcase. unfold add_additional_walls.
  rewrite removable_paths_ok by done. monad_simpl.
  pose proof (candidates_ok_shuffle self g) as Hcand.
  destruct (shuffle (open_paths self) g) as [paths g']. cbn [fst] in Hcand.
  assert (densify_loop num paths (self, 0) = Ok (self, 0)) as ->.
  { destruct Hcase as [Hle|Hdis]; [by apply densify_loop_break|].
    apply densify_loop_all_rejected; [done..|].
    intros p Hp. destruct (proj2 Hcand p Hp) as [Hi Hf].
    pose proof (put_config self p Hi true) as (Hg & _).
    destruct (is_all_connected_decides (put self p true)) as ([] & Hb & Hiff);
      [by rewrite <- Hg|by apply put_wf| |done].
    destruct (is_all_connected_decides self Hn Hw) as (b & Hb' & Hiff').
    rewrite Hdis in Hb'. injection Hb' as <-.
    assert (connected self) as Hconn; [|by apply Hiff' in Hconn].
    eapply (connected_sub (put self p true)); [done|by apply put_true_sub|by apply Hiff]. }
  monad_simpl. eexists. by split_and!.
Qed.

Lemma densifier_noop_witness :
  1 ≤ grid_size split_grid2 ∧ wf_walls split_grid2 ∧
  (2 ≤ 0 ∨ is_all_connected split_grid2 = Ok false) ∧
  ∃ d, add_additional_walls split_grid2 2 (rng_of_list [1]%nat) = Ok d ∧
    d_self d = split_grid2 ∧ d_added d = 0 ∧ d_warning d = (0 <? 2).
Proof.
  split; [cbn; lia|]. split; [apply split_grid2_wf|]. split; [right; reflexivity|].
  apply (densifier_noop split_grid2 2 (rng_of_list [1]%nat));
    [cbn; lia|apply split_grid2_wf|right; reflexivity].
Defined.

(** ** The connectivity check never looks at the boundary *)

Lemma passage_interior_ext a b x y :
  grid_size a = grid_size b →
  (∀ p, interior (grid_size a) p → wall_at a p = wall_at b p) →
  passage a x y → passage b x y.
Proof.
  intros Hg Hint ([Hx1 Hx2] & [Hy1 Hy2] & Hcase). unfold passage, in_grid.
  rewrite <- Hg. split_and!; [lia..|].
  destruct x as [xr xc], y as [yr yc]; cbn in *.
  destruct Hcase as [[[= -> ->] Hc]|[[[= -> ->] Hc]|[[[= -> ->] Hc]|[[= -> ->] Hc]]]].
  - left. split; [done|]. rewrite <- Hc. symmetry. apply (Hint (PathH, xr, xc)). cbn. lia.
  - right; left. split; [done|]. rewrite <- Hc. symmetry.
    apply (Hint (PathH, xr + 1, xc)). cbn. lia.
  - right; right; left. split; [done|]. rewrite <- Hc. symmetry.
    apply (Hint (PathV, xr, xc)). cbn. lia.
  - do 3 right. split; [done|]. rewrite <- Hc. symmetry.
    apply (Hint (PathV, xr, xc + 1)). cbn. lia.
Qed.

(** X7. The answer of the connectivity check depends on the interior
    entries only: two generators of the same size [n >= 1] with
    well-shaped matrices that agree on every interior entry get the same
    answer, whatever their boundary entries hold. The search never leaves
    the grid through a missing boundary wall. *)
Theorem check_reads_interior_only a b :
  1 ≤ grid_size a → wf_walls a → wf_walls b → grid_size a = grid_size b →
  (∀ p, interior (grid_size a) p → wall_at a p = wall_at b p) →
  is_all_connected a = is_all_connected b.
Proof.
  intros Hn Ha Hb Hg Hint.
  destruct (is_all_connected_decides a Hn Ha) as (ba & -> & Hiffa).
  destruct (is_all_connected_decides b) as (bb & -> & Hiffb); [by rewrite <- Hg|done|].
  f_equal. apply eq_true_iff_eq. rewrite Hiffa, Hiffb. split.
  - apply connected_sub; [done|]. intros x y. by apply passage_interior_ext.
  - apply connected_sub; [done|]. intros x y. apply passage_interior_ext; [done|].
    intros p Hp. symmetry. apply Hint. by rewrite Hg.
Qed.

(** The open [2 x 2] grid with two boundary entries missing. *)
Definition breached_grid2 : MazeGenerator :=
  {| grid_size := 2; cell_size := 1%float; min_walls := 3;
     wall_height := 0.5%float; wall_thickness := 0x1.999999999999ap-5%float;
     horizontal_walls := [[false; true]; [false; false]; [true; true]];
     vertical_walls := [[true; false; true]; [true; false; false]] |}.

Lemma breached_grid2_wf : wf_walls breached_grid2.
Proof. split; (split; [reflexivity|repeat constructor]). Qed.

Lemma breached_grid2_interior p :
  interior (grid_size open_grid2) p → wall_at open_grid2 p = wall_at breached_grid2 p.
Proof.
  destruct p as [[[] r] c]; cbn; intros [Hr Hc].
  - assert (r = 1) as -> by lia. assert (c = 0 ∨ c = 1) as [-> | ->] by lia; reflexivity.
  - assert (c = 1) as -> by lia. assert (r = 0 ∨ r = 1) as [-> | ->] by lia; reflexivity.
Qed.

Lemma check_reads_interior_only_witness :
  1 ≤ grid_size open_grid2 ∧ wf_walls open_grid2 ∧ wf_walls breached_grid2 ∧
  grid_size open_grid2 = grid_size breached_grid2 ∧
  (∀ p, interior (grid_size open_grid2) p → wall_at open_grid2 p = wall_at breached_grid2 p) ∧
  is_all_connected open_grid2 = is_all_connected breached_grid2.
Proof.
  split; [cbn; lia|]. split; [apply open_grid2_wf|]. split; [apply breached_grid2_wf|].
  split; [reflexivity|]. split; [apply breached_grid2_interior|].
  apply (check_reads_interior_only open_grid2 breached_grid2);
    [cbn; lia|apply open_grid2_wf|apply breached_grid2_wf|reflexivity
    |apply breached_grid2_interior].
Defined.

(** ** The carver on an arbitrary generator *)

Lemma open_wall_keeps_open self p d w :
  wf_walls self → in_grid (grid_size self) p → in_grid (grid_size self) (step p d) →
  d ∈ directions → wall_at self w = false → wall_at (open_wall self p d) w = false.
Proof.
  intros [Hh Hv] [Hr Hc] [Hr' Hc'] Hd Hf. destruct p as [r c]. unfold step in *. cbn in *.
  dir_cases Hd; destruct w as [[[] wr] wc]; cbn in *; try done;
    first [ apply (cell_mupd_false _ _ _ _ _ _ _ Hh); [lia..|by right]
          | apply (cell_mupd_false _ _ _ _ _ _ _ Hv); [lia..|by right] ].
Qed.

Section carve_any.
Context (n : Z) (root : cell_id).
Hypothesis Hn : 1 ≤ n.

(** Whatever walls the grid starts with, the carver only removes walls,
    and the cells it marks are reachable from its first cell. *)
Lemma carve_loop_opens p dirs s s' :
  carve_loop n p dirs s s' → wf_carve n s → in_grid n p →
  sub_passages (c_self s) (c_self s') ∧
  (∀ w, wall_at (c_self s) w = false → wall_at (c_self s') w = false).
Proof.
  induction 1 as [p s|p d dirs s s' Hskip Hloop IH
                 |p d dirs dirs' g' s s1 s' Hq Hnm Hd Hsh Hloop1 IH1 Hloop2 IH2];
    intros Hwf Hp.
  - split; [by intros x y ?|done].
  - by apply IH.
  - pose proof (wf_enter n _ (step p d) g' (wf_opened n s p d Hwf)) as Hwfe.
    destruct (carve_loop_basic n _ _ _ _ Hloop1 Hwfe Hq) as (Hwf1 & _).
    destruct (IH1 Hwfe Hq) as [Hsub1 Hopen1]. destruct (IH2 Hwf1 Hp) as [Hsub2 Hopen2].
    destruct Hwf as (Hg & Hw & Hv). rewrite <- Hg in Hp, Hq. split.
    + intros x y Hxy. apply Hsub2, Hsub1. cbn. by apply passage_open_wall_mono.
    + intros w Hf. apply Hopen2, Hopen1. cbn. by apply open_wall_keeps_open.
Qed.

Lemma carve_loop_reach p dirs s s' :
  carve_loop n p dirs s s' → wf_carve n s → in_grid n p → marked (c_visited s) p →
  (∀ x, marked (c_visited s) x → reachable (c_self s) root x) →
  (∀ x, marked (c_visited s') x → reachable (c_self s') root x).
Proof.
  induction 1 as [p s|p d dirs s s' Hskip Hloop IH
                 |p d dirs dirs' g' s s1 s' Hq Hnm Hd Hsh Hloop1 IH1 Hloop2 IH2];
    intros Hwf Hp Hmp Hreach.
  - done.
  - by apply IH.
  - pose proof (wf_enter n _ (step p d) g' (wf_opened n s p d Hwf)) as Hwfe.
    destruct (carve_loop_basic n _ _ _ _ Hloop1 Hwfe Hq) as (Hwf1 & _ & Hmono1 & _).
    assert (∀ x, marked (c_visited (enter (step p d) (opened s p d) g')) x
                 ↔ x = step p d ∨ marked (c_visited s) x) as Hme.
    { intros x. apply (marked_enter n (opened s p d) (step p d) g' x); [by apply wf_opened|done]. }
    apply IH2; [done..| |].
    + apply Hmono1, Hme. by right.
    + apply IH1; [done..| |].
      * apply Hme. by left.
      * destruct Hwf as (Hg & Hw & Hv). rewrite <- Hg in Hp, Hq.
        intros x [->|Hx]%Hme; cbn [c_self enter opened].
        -- eapply rtc_r; [apply reachable_open_wall, Hreach; done|].
           by apply passage_open_wall_new.
        -- apply reachable_open_wall; auto.
Qed.

End carve_any.

(** X8. [_generate_connected_maze_dfs] on any generator of size [n >= 1]
    with well-shaped matrices, fully walled or not (a second run on the
    same object, say), whatever the random source and the recursion room:
    unless it hits the recursion limit (which takes a room of less than
    [n * n] nested calls and ends it with [RecursionError]), it returns,
    having entered every cell exactly once; the grid it leaves is
    well-shaped, of the same size, and passes the connectivity check; it
    has put up no wall (an entry that was [False] is still [False]) and it
    has kept the boundary if the boundary was in place. *)
Theorem carver_on_any_grid depth self g :
  1 ≤ grid_size self → wf_walls self →
  hits_limit depth (grid_size self) (generate_connected_maze_dfs depth self g) ∨
  ∃ s,
    generate_connected_maze_dfs depth self g = Ok s ∧
    wf_walls (c_self s) ∧ same_config self (c_self s) ∧
    NoDup (c_calls s) ∧ (∀ x, x ∈ c_calls s ↔ in_grid (grid_size self) x) ∧
    is_all_connected (c_self s) = Ok true ∧
    (∀ w, wall_at self w = false → wall_at (c_self s) w = false) ∧
    (boundary_ok self → boundary_ok (c_self s)).
Proof.
  intros Hn Hw.
  destruct (carver_run depth self g Hn Hw)
    as [Hlim|(p & g2 & dirs & g' & s & Hstart & Hsh & Hrun & Hloop)]; [by left|right].
  set (n := grid_size self) in *. set (s0 := start_state self g2) in *.
  pose proof (start_state_wf self g2 Hn Hw) as Hwf0. fold n s0 in Hwf0.
  exists s. split; [done|].
  pose proof (wf_enter n s0 p g' Hwf0) as Hwfe.
  assert (∀ x, marked (c_visited (enter p s0 g')) x ↔ x = p) as Hme.
  { intros x. rewrite (marked_enter n) by done. split; [|by left].
    intros [?|Hm]; [done|]. by apply unmarked_mk_matrix in Hm. }
  destruct (carve_loop_basic n _ _ _ _ Hloop Hwfe Hstart)
    as (Hwf & Hcfg & Hmono & Hcalls & Hbd & _).
  destruct (carve_loop_closed n _ _ _ _ Hloop Hwfe Hstart) as [Hcl Hdirs].
  destruct (carve_loop_opens n _ _ _ _ Hloop Hwfe Hstart) as [_ Hopen].
  pose proof (carve_loop_reach n p _ _ _ _ Hloop Hwfe Hstart) as Hreach.
  specialize (Hreach ltac:(by apply Hme)).
  assert (∀ x, marked (c_visited s) x → reachable (c_self s) p x) as Hreach'.
  { apply Hreach. intros x ->%Hme. apply rtc_refl. }
  assert (∀ x, in_grid n x → marked (c_visited s) x) as Hall.
  { apply (closed_all n _ p); [apply Hwf| |apply Hmono; by apply Hme].
    intros x Hx. destruct (Hcl x Hx) as [->%Hme|?]; [|done].
    intros d Hd Hin. apply Hdirs; [|done].
    change dirs with (dirs, g').1. by rewrite <- Hsh, shuffle_Permutation. }
  destruct Hcalls as [Hnd Hiff].
  { apply (calls_inv_enter n); [done..|apply unmarked_mk_matrix|apply start_state_calls]. }
  destruct Hwf as (Hg & Hw' & Hv').
  split_and!; try done.
  - intros x. rewrite Hiff. split; [apply marked_in_grid, Hv'|by apply Hall].
  - destruct (is_all_connected_decides (c_self s)) as (b & -> & Hb); [lia|done|].
    f_equal. apply Hb. intros x y Hx Hy. rewrite Hg in Hx, Hy.
    transitivity p; [apply reachable_sym|]; apply Hreach'; by apply Hall.
Qed.

Lemma carver_on_any_grid_witness :
  1 ≤ grid_size split_grid2 ∧ wf_walls split_grid2 ∧
  ∃ s,
    generate_connected_maze_dfs 4 split_grid2 (rng_of_list [3; 0; 1]%nat) = Ok s ∧
    wf_walls (c_self s) ∧ same_config split_grid2 (c_self s) ∧
    NoDup (c_calls s) ∧ (∀ x, x ∈ c_calls s ↔ in_grid (grid_size split_grid2) x) ∧
    is_all_connected (c_self s) = Ok true ∧
    (∀ w, wall_at split_grid2 w = false → wall_at (c_self s) w = false) ∧
    (boundary_ok split_grid2 → boundary_ok (c_self s)).
Proof.
  split; [cbn; lia|]. split; [apply split_grid2_wf|].
  destruct (carver_on_any_grid 4 split_grid2 (rng_of_list [3; 0; 1]%nat))
    as [[Hlt _]|Hrun]; [cbn; lia|apply split_grid2_wf|cbn in Hlt; lia|exact Hrun].
Defined.

(** ** The figures of [save_to_sdf] *)

Lemma length_filter_full {A} (P : A → Prop) `{∀ x, Decision (P x)} (l : list A) :
  (length (filter P l) ≤ length l)%nat ∧
  (length (filter P l) = length l ↔ ∀ x, x ∈ l → P x).
Proof.
  induction l as [|a l [Hle Hiff]].
  - split; [done|]. split; [|done]. by intros _ x ?%elem_of_nil.
  - destruct (decide (P a)) as [Ha|Ha].
    + rewrite filter_cons_True by done. cbn [length]. split; [lia|]. split.
      * intros Heq x [->|Hx]%elem_of_cons; [done|]. apply Hiff; [lia|done].
      * intros Hall. f_equal. apply Hiff. intros x Hx. apply Hall. by right.
    + rewrite filter_cons_False by done. cbn [length]. split; [lia|]. split; [lia|].
      intros Hall. destruct Ha. apply Hall. by left.
Qed.

(** The entries of the first and of the last column, counted apart. *)
Lemma length_filter_positions_ends (P : cell_id → Prop) `{∀ x, Decision (P x)}
    (rows mid : list Z) (first last : Z) :
  length (filter P (positions rows (first :: mid ++ [last])))
  = (length (filter P (positions rows mid))
     + length (filter P ((λ r, (r, first)) <$> rows))
     + length (filter P ((λ r, (r, last)) <$> rows)))%nat.
Proof.
  induction rows as [|r rows IH]; [done|].
  cbn [positions fmap list_fmap]. rewrite !filter_app, !length_app, IH.
  rewrite fmap_app. cbn [fmap list_fmap].
  rewrite !filter_cons, filter_app, filter_cons, filter_nil.
  destruct (decide (P (r, first))); destruct (decide (P (r, last)));
    cbn [length]; rewrite ?length_app; cbn [length]; lia.
Qed.

(** The four sides of the boundary, as lists of matrix positions. *)
Definition side_top (n : Z) : list cell_id := pair 0 <$> range 0 n.
Definition side_bottom (n : Z) : list cell_id := pair n <$> range 0 n.
Definition side_left (n : Z) : list cell_id := (λ r, (r, 0)) <$> range 0 n.
Definition side_right (n : Z) : list cell_id := (λ r, (r, n)) <$> range 0 n.

Lemma length_projection_sides self :
  1 ≤ grid_size self →
  length (projection self)
  = (wall_count self
     + length (filter (is_wall (horizontal_walls self)) (side_top (grid_size self)))
     + length (filter (is_wall (horizontal_walls self)) (side_bottom (grid_size self)))
     + length (filter (is_wall (vertical_walls self)) (side_left (grid_size self)))
     + length (filter (is_wall (vertical_walls self)) (side_right (grid_size self))))%nat.
Proof.
  intros Hn. unfold projection, wall_count.
  rewrite length_app, !length_fmap.
  set (n := grid_size self) in *.
  assert (length (filter (is_wall (horizontal_walls self)) (h_all n))
          = (length (filter (is_wall (horizontal_walls self)) (h_interior n))
             + length (filter (is_wall (horizontal_walls self)) (side_top n))
             + length (filter (is_wall (horizontal_walls self)) (side_bottom n)))%nat)
    as ->.
  { unfold h_all, h_interior, side_top, side_bottom.
    rewrite (range_app 0 1 (n + 1)), (range_app 1 n (n + 1)) by lia.
    rewrite !positions_app, !filter_app, !length_app.
    rewrite (range_singleton 0 : range 0 1 = [0]), range_singleton. cbn [positions].
    rewrite !app_nil_r. lia. }
  assert (length (filter (is_wall (vertical_walls self)) (v_all n))
          = (length (filter (is_wall (vertical_walls self)) (v_interior n))
             + length (filter (is_wall (vertical_walls self)) (side_left n))
             + length (filter (is_wall (vertical_walls self)) (side_right n)))%nat)
    as ->.
  { unfold v_all, v_interior, side_left, side_right.
    rewrite (range_app 0 1 (n + 1)), (range_app 1 n (n + 1)) by lia.
    rewrite (range_singleton 0 : range 0 1 = [0]), range_singleton. cbn [app].
    apply length_filter_positions_ends. }
  lia.
Qed.

Lemma boundary_ok_sides self :
  boundary_ok self ↔
  (∀ p, p ∈ side_top (grid_size self) → is_wall (horizontal_walls self) p) ∧
  (∀ p, p ∈ side_bottom (grid_size self) → is_wall (horizontal_walls self) p) ∧
  (∀ p, p ∈ side_left (grid_size self) → is_wall (vertical_walls self) p) ∧
  (∀ p, p ∈ side_right (grid_size self) → is_wall (vertical_walls self) p).
Proof.
  unfold boundary_ok, side_top, side_bottom, side_left, side_right, is_wall. split.
  - intros Hb. split_and!;
      intros p (k & -> & Hk%elem_of_range)%list_elem_of_fmap; by apply Hb.
  - intros (Ht & Hbt & Hl & Hr) k Hk. apply elem_of_range in Hk. split_and!.
    + apply (Ht (0, k)), list_elem_of_fmap. eauto.
    + apply (Hbt (grid_size self, k)), list_elem_of_fmap. eauto.
    + apply (Hl (k, 0)), list_elem_of_fmap. eauto.
    + apply (Hr (k, grid_size self)), list_elem_of_fmap. eauto.
Qed.

(** X9. The interior figure of [save_to_sdf]. For a generator of size
    [n >= 1] with well-shaped matrices, given the list that
    [_convert_to_3d_walls] builds from it, [save_to_sdf] reports as
    interior walls [len(walls) - 4 n]. This figure never exceeds what
    [_count_inner_walls] returns, and equals it exactly when every entry of
    the outer boundary is [True]. *)
Theorem reported_inner_walls self :
  1 ≤ grid_size self → wf_walls self →
  ∃ ws k,
    convert_to_3d_walls self = Ok ws ∧ count_inner_walls self = Ok k ∧
    outer_walls (save_to_sdf self ws) = 4 * grid_size self ∧
    inner_walls (save_to_sdf self ws) ≤ k ∧
    (inner_walls (save_to_sdf self ws) = k ↔ boundary_ok self).
Proof.
  intros Hn Hw. exists (projection self), (Z.of_nat (wall_count self)).
  split; [apply convert_to_3d_walls_ok; [lia|done]|].
  split; [by apply count_inner_walls_ok|].
  cbn [save_to_sdf outer_walls inner_walls]. unfold zlen.
  pose proof (length_projection_sides self Hn) as Hlen.
  set (n := grid_size self) in *.
  destruct (length_filter_full (is_wall (horizontal_walls self)) (side_top n)) as [Ht Hti].
  destruct (length_filter_full (is_wall (horizontal_walls self)) (side_bottom n)) as [Hb Hbi].
  destruct (length_filter_full (is_wall (vertical_walls self)) (side_left n)) as [Hl Hli].
  destruct (length_filter_full (is_wall (vertical_walls self)) (side_right n)) as [Hr Hri].
  assert (length (side_top n) = Z.to_nat n ∧ length (side_bottom n) = Z.to_nat n ∧
          length (side_left n) = Z.to_nat n ∧ length (side_right n) = Z.to_nat n)
    as (Et & Eb & El & Er).
  { unfold side_top, side_bottom, side_left, side_right.
    rewrite !length_fmap, length_range. split_and!; f_equal; lia. }
  rewrite Et in Ht, Hti. rewrite Eb in Hb, Hbi. rewrite El in Hl, Hli. rewrite Er in Hr, Hri.
  split; [lia|]. split; [lia|].
  rewrite boundary_ok_sides. fold n. rewrite <- Hti, <- Hbi, <- Hli, <- Hri. lia.
Qed.

Lemma reported_inner_walls_witness :
  1 ≤ grid_size breached_grid2 ∧ wf_walls breached_grid2 ∧
  ∃ ws k,
    convert_to_3d_walls breached_grid2 = Ok ws ∧ count_inner_walls breached_grid2 = Ok k ∧
    outer_walls (save_to_sdf breached_grid2 ws) = 4 * grid_size breached_grid2 ∧
    inner_walls (save_to_sdf breached_grid2 ws) ≤ k ∧
    (inner_walls (save_to_sdf breached_grid2 ws) = k ↔ boundary_ok breached_grid2).
Proof.
  split; [cbn; lia|]. split; [apply breached_grid2_wf|].
  apply (reported_inner_walls breached_grid2); [cbn; lia|apply breached_grid2_wf].
Defined.

(** X10. The summary at the end of [main] is truthful. For every
    [grid_size = n >= 1], every [cell_size], [min_walls], random source and
    recursion room: unless the carver hits the recursion limit (which
    takes a room of less than [n * n] nested calls and ends [main] with
    [RecursionError] before anything is saved), [main] reaches
    [save_to_sdf] with the [n x n] generator; the boundary figure it
    prints is [4 n], the interior figure is what [_count_inner_walls]
    returns on the final generator, and the closing message that all
    regions are connected, printed without a test, is right:
    [_is_all_connected] returns [True] on the final generator. *)
Theorem main_report_truthful depth n cs mw g :
  1 ≤ n →
  (hits_limit depth n (main depth n cs mw g) ∧
   hits_limit depth n (main_report depth n cs mw g)) ∨
  ∃ o rep,
    main depth n cs mw g = Ok o ∧ main_report depth n cs mw g = Ok rep ∧
    grid_size (generator o) = n ∧ wf_walls (generator o) ∧
    total_walls rep = zlen (walls o) ∧
    outer_walls rep = 4 * n ∧
    total_walls rep = outer_walls rep + inner_walls rep ∧
    count_inner_walls (generator o) = Ok (inner_walls rep) ∧
    is_all_connected (generator o) = Ok true.
Proof.
  intros Hn.
  destruct (generate_maze_spec depth n cs mw g Hn)
    as [[_ [Hlt Hr]]|(s & o & _ & Hs & Ho & Hgen)].
  { left. unfold main_report, main. rewrite Hr. by repeat split. }
  right. exists o, (save_to_sdf (generator o) (walls o)).
  unfold main_report, main. rewrite Ho. monad_simpl. split; [done|]. split; [done|].
  assert (grid_size (generator o) = n) as Hg.
  { rewrite <- (proj1 (gn_config _ _ _ _ Hgen)). apply (cv_wf _ _ _ Hs). }
  pose proof (length_projection (generator o)) as Hlen. rewrite Hg in Hlen.
  specialize (Hlen Hn (gn_boundary _ _ _ _ Hgen)).
  cbn [save_to_sdf total_walls outer_walls inner_walls]. rewrite Hg.
  split; [done|]. split; [apply (gn_wf _ _ _ _ Hgen)|].
  split; [done|]. split; [lia|]. split; [lia|]. split.
  - rewrite count_inner_walls_ok by apply (gn_wf _ _ _ _ Hgen).
    f_equal. rewrite (gn_walls _ _ _ _ Hgen). unfold zlen. lia.
  - destruct (is_all_connected_decides (generator o)) as (b & -> & Hb);
      [lia|apply (gn_wf _ _ _ _ Hgen)|].
    f_equal. apply Hb, (gn_connected _ _ _ _ Hgen).
Qed.

Lemma main_report_truthful_witness :
  1 ≤ 3 ∧
  ∃ o rep,
    main 9 3 2 8 (rng_of_list [0; 2; 1; 1; 3]%nat) = Ok o ∧
    main_report 9 3 2 8 (rng_of_list [0; 2; 1; 1; 3]%nat) = Ok rep ∧
    grid_size (generator o) = 3 ∧ wf_walls (generator o) ∧
    total_walls rep = zlen (walls o) ∧
    outer_walls rep = 4 * 3 ∧
    total_walls rep = outer_walls rep + inner_walls rep ∧
    count_inner_walls (generator o) = Ok (inner_walls rep) ∧
    is_all_connected (generator o) = Ok true.
Proof.
  split; [lia|].
  destruct (main_report_truthful 9 3 2 8 (rng_of_list [0; 2; 1; 1; 3]%nat))
    as [[[Hlt _] _]|Hrun]; [lia|cbn in Hlt; lia|exact Hrun].
Defined.

(** ** The generator as constructed *)

(** X11. What [__init__] builds for [grid_size = n >= 1]: two well-shaped
    matrices with every entry [True]. [_count_inner_walls] returns
    [2 n (n - 1)], [_convert_to_3d_walls] returns [2 n (n + 1)]
    descriptors, the boundary is in place, and [_is_all_connected] returns
    [True] only for the single-cell grid. *)
Theorem fresh_generator n cs mw :
  1 ≤ n →
  wf_walls (init n cs mw) ∧ boundary_ok (init n cs mw) ∧
  count_inner_walls (init n cs mw) = Ok (2 * n * (n - 1)) ∧
  (∃ ws, convert_to_3d_walls (init n cs mw) = Ok ws ∧ zlen ws = 2 * n * (n + 1)) ∧
  is_all_connected (init n cs mw) = Ok (n =? 1).
Proof.
  intros Hn.
  pose proof (init_wf n cs mw ltac:(lia)) as Hw.
  pose proof (init_boundary n cs mw) as Hb.
  pose proof (wall_open_total (init n cs mw)) as Htot.
  rewrite init_open_count in Htot. cbn [grid_size init] in Htot. specialize (Htot Hn).
  split; [done|]. split; [done|]. split; [|split].
  - rewrite count_inner_walls_ok by done. f_equal. lia.
  - exists (projection (init n cs mw)). split; [apply convert_to_3d_walls_ok; [cbn; lia|done]|].
    pose proof (length_projection (init n cs mw)) as Hlen. cbn [grid_size init] in Hlen.
    specialize (Hlen Hn Hb). unfold zlen. lia.
  - destruct (is_all_connected_decides (init n cs mw)) as (b & -> & Hiff); [cbn; lia|done|].
    f_equal. destruct (n =? 1) eqn:Hn1.
    + apply Hiff. intros [r c] [r' c'] [Hr Hc] [Hr' Hc']. cbn in *.
      replace r with 0 by lia. replace c with 0 by lia.
      replace r' with 0 by lia. replace c' with 0 by lia. apply rtc_refl.
    + destruct b; [|done]. exfalso.
      assert (reachable (init n cs mw) (0, 0) (0, 1)) as Hreach.
      { apply Hiff; [done|split; cbn; lia..]. }
      apply rtc_inv in Hreach as [[=]|(y & Hp & _)].
      by apply init_no_passage in Hp.
Qed.

Lemma fresh_generator_witness :
  1 ≤ 3 ∧
  wf_walls (init 3 1 5) ∧ boundary_ok (init 3 1 5) ∧
  count_inner_walls (init 3 1 5) = Ok (2 * 3 * (3 - 1)) ∧
  (∃ ws, convert_to_3d_walls (init 3 1 5) = Ok ws ∧ zlen ws = 2 * 3 * (3 + 1)) ∧
  is_all_connected (init 3 1 5) = Ok (3 =? 1).
Proof.
  split; [lia|]. apply (fresh_generator 3 1 5). lia.
Defined.

(** ** What the layout depends on *)

(** The generator with other values of [cell_size] and [min_walls]. *)
Definition with_params (cs : float) (mw : Z) (self : MazeGenerator) : MazeGenerator :=
  {| grid_size := grid_size self; cell_size := cs; min_walls := mw;
     wall_height := wall_height self; wall_thickness := wall_thickness self;
     horizontal_walls := horizontal_walls self; vertical_walls := vertical_walls self |}.

Definition carve_with_params (cs : float) (mw : Z) (s : carve_state) : carve_state :=
  {| c_self := with_params cs mw (c_self s); c_visited := c_visited s;
     c_rng := c_rng s; c_calls := c_calls s |}.

Definition lift {A B} (f : A → B) (x : result A) : result B := a ← x; Ok (f a).

Lemma for_each_lift {A S} (f : S → S) (body : A → S → result S) (l : list A) (s : S) :
  (∀ a s, body a (f s) = lift f (body a s)) →
  for_each body l (f s) = lift f (for_each body l s).
Proof.
  intros Hbody. revert s. induction l as [|a l IH]; intros s; [done|].
  cbn [for_each]. rewrite Hbody. unfold lift at 1.
  destruct (body a s) as [s1| |]; monad_simpl; [apply IH|done..].
Qed.

Section params.
Context (cs : float) (mw : Z).

Lemma remove_wall_params self r c dr dc :
  remove_wall (with_params cs mw self) r c dr dc
  = lift (with_params cs mw) (remove_wall self r c dr dc).
Proof.
  unfold remove_wall, lift. cbn [horizontal_walls vertical_walls with_params].
  destruct (dr =? 1); [by destruct (mset _ _ _ _)|].
  destruct (dr =? -1); [by destruct (mset _ _ _ _)|].
  destruct (dc =? 1); [by destruct (mset _ _ _ _)|].
  destruct (dc =? -1); [by destruct (mset _ _ _ _)|]. done.
Qed.

Lemma carve_dir_params (recurse : Z → Z → carve_state → result carve_state) r c d s :
  (∀ r c s, recurse r c (carve_with_params cs mw s)
            = lift (carve_with_params cs mw) (recurse r c s)) →
  carve_dir recurse r c d (carve_with_params cs mw s)
  = lift (carve_with_params cs mw) (carve_dir recurse r c d s).
Proof.
  intros Hrec. unfold carve_dir. destruct d as [dr dc].
  cbn [c_self c_visited c_rng c_calls carve_with_params grid_size with_params].
  destruct (unvisited_in_bounds _ _ _ _) as [[]| |]; monad_simpl; try done.
  rewrite remove_wall_params. unfold lift at 1.
  destruct (remove_wall _ _ _ _ _) as [self'| |]; monad_simpl; try done.
  exact (Hrec _ _ {| c_self := self'; c_visited := c_visited s;
                     c_rng := c_rng s; c_calls := c_calls s |}).
Qed.

Lemma dfs_carve_params depth r c s :
  dfs_carve depth r c (carve_with_params cs mw s)
  = lift (carve_with_params cs mw) (dfs_carve depth r c s).
Proof.
  revert r c s. induction depth as [|depth IH]; intros r c s; [done|].
  cbn [dfs_carve c_self c_visited c_rng c_calls carve_with_params].
  destruct (mset _ _ _ _) as [visited| |]; monad_simpl; try done.
  destruct (shuffle directions (c_rng s)) as [dirs g].
  exact (for_each_lift (carve_with_params cs mw) _ dirs
           {| c_self := c_self s; c_visited := visited; c_rng := g;
              c_calls := (r, c) :: c_calls s |}
           (λ d s, carve_dir_params _ r c d s IH)).
Qed.

(** The carver reads the size and the two matrices, nothing else. *)
Lemma generate_connected_maze_dfs_params depth self g :
  generate_connected_maze_dfs depth (with_params cs mw self) g
  = lift (carve_with_params cs mw) (generate_connected_maze_dfs depth self g).
Proof.
  unfold generate_connected_maze_dfs. cbn [grid_size with_params].
  destruct (randint _ _ g) as [[r g1]| |]; monad_simpl; try done.
  destruct (randint _ _ g1) as [[c g2]| |]; monad_simpl; try done.
  exact (dfs_carve_params _ r c
           {| c_self := self; c_visited := mk_matrix (grid_size self) (grid_size self) false;
              c_rng := g2; c_calls := [] |}).
Qed.

End params.

(** X12. The layout depends on [grid_size] and on the random source only.
    Take two runs of [main] in the same interpreter (the same recursion
    room) with the same [grid_size = n >= 1] and the same random choices,
    whatever [cell_size] and [min_walls] each is given. Either both hit
    the recursion limit (which takes a room of less than [n * n] nested
    calls), or both return and leave the same two wall matrices of the
    [n x n] grid: [min_walls] changes no wall. When the two runs also
    share [cell_size], they return the same list of descriptors. *)
Theorem layout_ignores_parameters depth n cs mw cs' mw' g :
  1 ≤ n →
  (hits_limit depth n (main depth n cs mw g) ∧
   hits_limit depth n (main depth n cs' mw' g)) ∨
  ∃ o o',
    main depth n cs mw g = Ok o ∧ main depth n cs' mw' g = Ok o' ∧
    grid_size (generator o) = n ∧ wf_walls (generator o) ∧
    same_walls (generator o) (generator o') ∧
    length (walls o) = length (walls o') ∧
    (cs = cs' → walls o = walls o').
Proof.
  intros Hn. unfold main.
  pose proof (generate_connected_maze_dfs_params cs' mw' depth (init n cs mw) g) as Hpar.
  change (with_params cs' mw' (init n cs mw)) with (init n cs' mw') in Hpar.
  destruct (generate_maze_keeps_carved depth n cs mw g Hn)
    as [[[Hlt Hc] Hlim]|(s & o & Hc & Hs & _ & Ho & Hgo & Hwo & _)].
  { left. split; [done|]. apply generate_maze_hits_limit. split; [done|].
    by rewrite Hpar, Hc. }
  right. rewrite Hc in Hpar. cbn in Hpar.
  destruct (generate_maze_keeps_carved depth n cs' mw' g Hn)
    as [[[_ Hc'] _]|(s' & o' & Hc' & _ & _ & Ho' & Hgo' & Hwo' & _)]; [congruence|].
  rewrite Hpar in Hc'. injection Hc' as <-.
  cbn [c_self carve_with_params] in Hgo', Hwo'.
  exists o, o'. split; [done|]. split; [done|].
  destruct (cv_wf _ _ _ Hs) as (Hg & Hw & _).
  rewrite Hgo, Hgo', Hwo, Hwo'. split; [done|]. split; [done|]. split; [done|]. split.
  - unfold projection. by rewrite !length_app, !length_fmap.
  - intros <-. destruct (cv_config _ _ _ Hs) as (_ & Hcs & _). cbn [cell_size init] in Hcs.
    rewrite Hcs. reflexivity.
Qed.

Lemma layout_ignores_parameters_witness :
  1 ≤ 3 ∧
  ∃ o o',
    main 9 3 1 0 (rng_of_list [4; 1; 0; 2; 2]%nat) = Ok o ∧
    main 9 3 1 9 (rng_of_list [4; 1; 0; 2; 2]%nat) = Ok o' ∧
    grid_size (generator o) = 3 ∧ wf_walls (generator o) ∧
    same_walls (generator o) (generator o') ∧
    length (walls o) = length (walls o') ∧
    (1%float = 1%float → walls o = walls o').
Proof.
  split; [lia|].
  destruct (layout_ignores_parameters 9 3 1 0 1 9 (rng_of_list [4; 1; 0; 2; 2]%nat))
    as [[[Hlt _] _]|Hrun]; [lia|cbn in Hlt; lia|exact Hrun].
Defined.

(** ** The recursion limit *)

(** The least room with which a run that returns with room [bound]
    returns at all. *)
Lemma least_room (P : nat → Prop) (bound : nat) :
  (∀ d, P d ∨ ¬ P d) → (∀ d d', (d ≤ d')%nat → P d → P d') → P bound →
  ∃ need, (need ≤ bound)%nat ∧ P need ∧ ∀ d, (d < need)%nat → ¬ P d.
Proof.
  intros Hdec Hmono. induction bound as [|bound IH]; intros Hb.
  - exists 0%nat. split; [done|]. split; [done|]. intros d Hd. lia.
  - destruct (Hdec bound) as [Hyes|Hno].
    + destruct (IH Hyes) as (need & Hle & Hneed & Hleast).
      exists need. split; [lia|]. by split.
    + exists (S bound). split; [done|]. split; [done|].
      intros d Hd Hp. apply Hno. apply (Hmono d); [lia|done].
Qed.

Lemma generate_connected_maze_dfs_depth_mono depth depth' self g s :
  (depth ≤ depth')%nat →
  generate_connected_maze_dfs depth self g = Ok s →
  generate_connected_maze_dfs depth' self g = Ok s.
Proof.
  intros Hle. unfold generate_connected_maze_dfs.
  destruct (randint _ _ g) as [[r g1]| |]; monad_simpl; try done.
  destruct (randint _ _ g1) as [[c g2]| |]; monad_simpl; try done.
  by apply dfs_carve_depth_mono.
Qed.

(** X13. The recursion limit decides whether the carver returns, never
    what it returns. For every generator of size [n >= 1] with
    well-shaped matrices and every random source there are a number
    [need] of nested calls, between [1] and [n * n], and a state [s] such
    that [_generate_connected_maze_dfs] returns [s] in every interpreter
    with room for [need] nested calls of [_dfs_carve] and raises
    [RecursionError], and nothing else, in every interpreter with less
    room; [generate_maze] raises [RecursionError] with it. *)
Theorem carver_recursion_limit self g :
  1 ≤ grid_size self → wf_walls self →
  ∃ (need : nat) (s : carve_state),
    (1 ≤ need)%nat ∧ Z.of_nat need ≤ grid_size self * grid_size self ∧
    ∀ depth,
      if decide (need ≤ depth)%nat
      then generate_connected_maze_dfs depth self g = Ok s
      else generate_connected_maze_dfs depth self g = Raise RecursionError ∧
           generate_maze depth self g = Raise RecursionError.
Proof.
  intros Hn Hw. set (n := grid_size self) in *.
  set (P := λ d, ∃ s, generate_connected_maze_dfs d self g = Ok s).
  assert (∀ d, P d ∨ ¬ P d) as Hdec.
  { intros d. destruct (carver_run d self g Hn Hw)
      as [[_ Hr]|(_ & _ & _ & _ & s & _ & _ & Hrun & _)].
    - right. intros [s Hs]. congruence.
    - left. by exists s. }
  assert (∀ d d', (d ≤ d')%nat → P d → P d') as Hmono.
  { intros d d' Hle [s Hs]. exists s.
    by apply (generate_connected_maze_dfs_depth_mono d). }
  assert (P (Z.to_nat (n * n))) as Hbound.
  { destruct (carver_run (Z.to_nat (n * n)) self g Hn Hw)
      as [[Hlt _]|(_ & _ & _ & _ & s & _ & _ & Hrun & _)]; [fold n in Hlt; lia|].
    by exists s. }
  destruct (least_room P _ Hdec Hmono Hbound) as (need & Hle & [s Hs] & Hleast).
  exists need, s. split_and!.
  - destruct need as [|need]; [|lia].
    assert (generate_connected_maze_dfs 0 self g = Raise RecursionError) as Hr; [|congruence].
    unfold generate_connected_maze_dfs. fold n.
    destruct (randint_ok n g Hn) as (r & g1 & -> & _). monad_simpl.
    by destruct (randint_ok n g1 Hn) as (c & g2 & -> & _).
  - lia.
  - intros depth. destruct (decide (need ≤ depth)%nat) as [Hge|Hlt].
    + by apply (generate_connected_maze_dfs_depth_mono need).
    + assert (generate_connected_maze_dfs depth self g = Raise RecursionError) as Hr.
      { destruct (carver_run depth self g Hn Hw)
          as [[_ Hr]|(_ & _ & _ & _ & s' & _ & _ & Hrun & _)]; [done|].
        destruct (Hleast depth); [lia|by exists s']. }
      split; [done|]. unfold generate_maze. by rewrite Hr.
Qed.

Lemma carver_recursion_limit_witness :
  1 ≤ grid_size split_grid2 ∧ wf_walls split_grid2 ∧
  ∃ (need : nat) (s : carve_state),
    (1 ≤ need)%nat ∧ Z.of_nat need ≤ grid_size split_grid2 * grid_size split_grid2 ∧
    ∀ depth,
      if decide (need ≤ depth)%nat
      then generate_connected_maze_dfs depth split_grid2 (rng_of_list [1; 1]%nat) = Ok s
      else generate_connected_maze_dfs depth split_grid2 (rng_of_list [1; 1]%nat)
           = Raise RecursionError ∧
           generate_maze depth split_grid2 (rng_of_list [1; 1]%nat) = Raise RecursionError.
Proof.
  split; [cbn; lia|]. split; [apply split_grid2_wf|].
  apply (carver_recursion_limit split_grid2 (rng_of_list [1; 1]%nat));
    [cbn; lia|apply split_grid2_wf].
Defined.

(** The limit is met in practice: on the [32 x 32] grid, when every
    random draw is [0], the calls nest [1024] deep, which the
    interpreter's default limit of 1000 frames does not allow. *)
Example recursion_limit_reached :
  generate_connected_maze_dfs 1023 (init 32 1 5) (rng_of_list []) = Raise RecursionError ∧
  ∃ s, generate_connected_maze_dfs 1024 (init 32 1 5) (rng_of_list []) = Ok s.
Proof. split; [vm_compute; reflexivity|]. eexists. vm_compute. reflexivity. Qed.
